(** * TPS core: text cleaning pipeline and store, embedded from [tps_core.py]

    A Python [str] is a sequence of Unicode code points; it is modelled as a
    list of integers.  The regular expressions of the source are translated
    one by one into scanners over such lists, each documented with the
    pattern it stands for.  The SQLite store is modelled as two tables held
    in lists, with the two [AUTOINCREMENT] counters and the [UNIQUE] and
    [FOREIGN KEY] constraints of the DDL written out.  The routes of
    [app.py] that call the core are embedded after it. *)

From Stdlib Require Import String Ascii List ZArith Bool Lia Arith Sorted.
From Stdlib Require Import DecimalString.
Import ListNotations.

Open Scope Z_scope.

(** ** Python strings *)

Module Py.

Definition str := list Z.

(** Decoder for the UTF-8 bytes of a literal of this file, so that the
    character classes below can be written with the same characters as the
    source. *)
Fixpoint utf8_dec (bs : list Z) (pending : nat) (acc : Z) : str :=
  match bs with
  | [] => []
  | b :: bs' =>
    if b <? 128 then b :: utf8_dec bs' 0 0
    else if b <? 192 then
      let acc' := acc * 64 + (b - 128) in
      match pending with
      | O => utf8_dec bs' 0 0
      | S O => acc' :: utf8_dec bs' 0 0
      | S k => utf8_dec bs' k acc'
      end
    else if b <? 224 then utf8_dec bs' 1 (b - 192)
    else if b <? 240 then utf8_dec bs' 2 (b - 224)
    else utf8_dec bs' 3 (b - 240)
  end.

Definition of_utf8 (s : string) : str :=
  utf8_dec (map (fun a => Z.of_N (N_of_ascii a)) (list_ascii_of_string s)) 0 0.

(** The code point of a one-character literal. *)
Definition ord_utf8 (s : string) : Z := hd 0 (of_utf8 s).

Definition eqb (a b : str) : bool :=
  if list_eq_dec Z.eq_dec a b then true else false.

(** [x in l] on a list of strings. *)
Definition mem (x : str) (l : list str) : bool := existsb (eqb x) l.

Fixpoint starts_with (p s : str) : bool :=
  match p, s with
  | [], _ => true
  | _ :: _, [] => false
  | a :: p', b :: s' => (a =? b) && starts_with p' s'
  end.

(** [q in s] *)
Fixpoint contains (q s : str) : bool :=
  starts_with q s
  || match s with
     | [] => false
     | _ :: s' => contains q s'
     end.

Fixpoint take_while (f : Z -> bool) (s : str) : str :=
  match s with
  | [] => []
  | c :: s' => if f c then c :: take_while f s' else []
  end.

Fixpoint drop_while (f : Z -> bool) (s : str) : str :=
  match s with
  | [] => []
  | c :: s' => if f c then drop_while f s' else s
  end.

(** [str.replace(old, new)] for a non-empty [old]: occurrences are found
    left to right and do not overlap.  [skip] counts the characters of the
    occurrence just replaced that are still to be passed over. *)
Fixpoint replace_go (old new : str) (skip : nat) (s : str) : str :=
  match s with
  | [] => []
  | c :: s' =>
    match skip with
    | S k => replace_go old new k s'
    | O =>
      if starts_with old s
      then new ++ replace_go old new (Nat.pred (length old)) s'
      else c :: replace_go old new O s'
    end
  end.

(** With an empty [old] Python inserts [new] before every character and at
    the end. *)
Definition replace (old new s : str) : str :=
  match old with
  | [] => flat_map (fun c => new ++ [c]) s ++ new
  | _ :: _ => replace_go old new O s
  end.

(** [str.isspace] for one character (CPython's [_PyUnicode_IsWhitespace]). *)
Definition isspace (c : Z) : bool :=
  ((9 <=? c) && (c <=? 13)) || ((28 <=? c) && (c <=? 32))
  || (c =? 133) || (c =? 160) || (c =? 5760)
  || ((8192 <=? c) && (c <=? 8202))
  || (c =? 8232) || (c =? 8233) || (c =? 8239) || (c =? 8287) || (c =? 12288).

Definition lstrip (s : str) : str := drop_while isspace s.
Definition rstrip (s : str) : str := rev (drop_while isspace (rev s)).

(** [str.strip()] *)
Definition strip (s : str) : str := rstrip (lstrip s).

Definition in_range (lo hi c : Z) : bool := (lo <=? c) && (c <=? hi).

(** A bracket class made of single characters, [[abc]]. *)
Definition one_of (cs : str) (c : Z) : bool := existsb (Z.eqb c) cs.

(** [re.search(r"[...]", s)] for a single class: some character is in it. *)
Definition search_class (cls : Z -> bool) (s : str) : bool := existsb cls s.

(** [re.sub(r"[...]+", rep, s)] for a single class: every maximal run of
    class characters is replaced by [rep].  [inrun] tells whether the
    previous character was part of the run being replaced. *)
Fixpoint sub_class_plus (cls : Z -> bool) (rep : str) (inrun : bool) (s : str) : str :=
  match s with
  | [] => []
  | c :: s' =>
    if cls c
    then (if inrun then [] else rep) ++ sub_class_plus cls rep true s'
    else c :: sub_class_plus cls rep false s'
  end.

(** [re.sub(r"\r\n?", "\n", s)]: a CR, with the LF that follows it when
    there is one, becomes one LF. *)
Fixpoint sub_cr_lf (s : str) : str :=
  match s with
  | [] => []
  | c :: s' =>
    if c =? 13
    then 10 :: match s' with
               | d :: s'' => if d =? 10 then sub_cr_lf s'' else sub_cr_lf s'
               | [] => []
               end
    else c :: sub_cr_lf s'
  end.

End Py.

(** String and character literals: the decoding is done once, where the
    literal is written, so that the definitions below hold the code points
    themselves. *)
Abbreviation lit s :=
  (ltac:(let v := eval vm_compute in (Py.of_utf8 s) in exact v))
  (only parsing).
Abbreviation ord s :=
  (ltac:(let v := eval vm_compute in (Py.ord_utf8 s) in exact v))
  (only parsing).

(** ** Text processing *)

Section Text.

(** [str.isalnum] and [str.lower] on the characters beyond ASCII come from
    the Unicode database of the interpreter, which is no part of this
    program: they are taken as parameters.  On ASCII both are written out.
    (The lowering of a capital sigma depends on its position in the word;
    either result lies beyond ASCII, as the parameter's do.) *)
Variable unicode_alnum : Z -> bool.
Variable unicode_lower : Z -> Py.str.

Definition ascii_upper (c : Z) : bool := Py.in_range (ord "A") (ord "Z") c.
Definition ascii_lower (c : Z) : bool := Py.in_range (ord "a") (ord "z") c.
Definition ascii_digit (c : Z) : bool := Py.in_range (ord "0") (ord "9") c.

Definition isalnum (c : Z) : bool :=
  if c <? 128 then ascii_upper c || ascii_lower c || ascii_digit c
  else unicode_alnum c.

(** The class [\w] of [re] on a [str] pattern: alphanumeric or underscore. *)
Definition is_word (c : Z) : bool := isalnum c || (c =? ord "_").

(** The class [[a-zA-Z]]. *)
Definition is_letter (c : Z) : bool := ascii_lower c || ascii_upper c.

Definition lower_char (c : Z) : Py.str :=
  if c <? 128 then [if ascii_upper c then c + 32 else c] else unicode_lower c.

(** [str.lower()] *)
Definition lower (s : Py.str) : Py.str := flat_map lower_char s.

(** [re.findall(r"\w+", s)]: the maximal runs of word characters. *)
Fixpoint findall_words (skip : nat) (s : Py.str) : list Py.str :=
  match s with
  | [] => []
  | c :: s' =>
    match skip with
    | S k => findall_words k s'
    | O =>
      if is_word c
      then let run := Py.take_while is_word s in
           run :: findall_words (Nat.pred (length run)) s'
      else findall_words O s'
    end
  end.

(** [re.findall(r"#(\w+)", s)]: for every [#] followed by a word character,
    the maximal run of word characters after it; the scan resumes after the
    run. *)
Fixpoint findall_hashtags (skip : nat) (s : Py.str) : list Py.str :=
  match s with
  | [] => []
  | c :: s' =>
    match skip with
    | S k => findall_hashtags k s'
    | O =>
      if c =? ord "#"
      then match Py.take_while is_word s' with
           | [] => findall_hashtags O s'
           | run => run :: findall_hashtags (length run) s'
           end
      else findall_hashtags O s'
    end
  end.

(** [re.findall(r"\b[a-zA-Z]{5,}\b", s)].  A match starts where the previous
    character is no word character ([prevw] false) and the current one is a
    letter.  The greedy [{5,}] takes the maximal run of letters; the closing
    [\b] holds there when the next character is no word character.  Giving
    back letters cannot help, since inside the run both neighbours are word
    characters.  After a match the scan resumes after the run. *)
Definition word_follows (s : Py.str) : bool :=
  match s with
  | [] => false
  | c :: _ => is_word c
  end.

Fixpoint findall_tokens (prevw : bool) (skip : nat) (s : Py.str) : list Py.str :=
  match s with
  | [] => []
  | c :: s' =>
    match skip with
    | S k => findall_tokens (is_word c) k s'
    | O =>
      let run := Py.take_while is_letter s in
      if negb prevw && (5 <=? length run)%nat
         && negb (word_follows (skipn (length run) s))
      then run :: findall_tokens (is_word c) (Nat.pred (length run)) s'
      else findall_tokens (is_word c) O s'
    end
  end.

(** The quotation mark, which a literal of this file cannot hold. *)
Definition dquote : Py.str := [34].

(** The first argument of the first [replace] of line 104, as Python reads
    it: the three quotation marks open a long string that runs up to the
    next three, so the text between them is the string searched for. *)
Definition quote_pattern : Py.str :=
  lit ", '" ++ dquote ++ lit "').replace(".

Definition space_or_nbsp (c : Z) : bool := (c =? 32) || (c =? 160).

Definition simple_normalize (text : Py.str) : Py.str :=
  let t := Py.replace [9] (lit " ") text in
  let t := Py.sub_class_plus space_or_nbsp (lit " ") false t in
  let t := Py.sub_cr_lf t in
  let t := Py.strip t in
  let t := Py.replace (lit "'") (lit "'")
             (Py.replace quote_pattern dquote t) in
  t.

Definition cyrillic (c : Z) : bool :=
  Py.in_range (ord "А") (ord "Я") c
  || Py.in_range (ord "а") (ord "я") c
  || Py.one_of (lit "Ёё") c.

Definition cjk (c : Z) : bool :=
  Py.in_range (ord "ぁ") (ord "ゟ") c
  || Py.in_range (ord "゠") (ord "ヿ") c
  || Py.in_range (ord "一") (ord "鿿") c.

Definition spanish_set : Z -> bool := Py.one_of (lit "áéíóúñü¿¡").
Definition french_set : Z -> bool := Py.one_of (lit "àâäéèêëîïôöùûüÿç").
Definition german_set : Z -> bool := Py.one_of (lit "äöüß").

Definition infer_language_guess (text : Py.str) : Py.str :=
  if Py.search_class cyrillic text then lit "Russian"
  else if Py.search_class cjk text then lit "Japanese/Chinese"
  else if Py.search_class spanish_set text then lit "Spanish"
  else if Py.search_class french_set text then lit "French"
  else if Py.search_class german_set text then lit "German"
  else lit "English".

(** One step of the loop of [extract_tags], and of the filling of a dict by
    [dict.fromkeys]: the key goes to the end unless it is there already. *)
Definition add_new (tags : list Py.str) (tok : Py.str) : list Py.str :=
  if Py.mem tok tags then tags else tags ++ [tok].

Definition dict_fromkeys (l : list Py.str) : list Py.str :=
  fold_left add_new l [].

Definition extract_tags (text : Py.str) : list Py.str :=
  let tags := findall_hashtags O text in
  let tokens := findall_tokens false O (lower text) in
  let tags := fold_left add_new (firstn 5 tokens) tags in
  firstn 10 (dict_fromkeys tags).

(** [round(n / d)] for integers [0 <= n] and [0 < d]: to the nearest
    integer, a tie going to the even one.  The quotient of the source is a
    double; a tie [k + 1/2] is a double, and no other quotient [n / 200] is
    rounded onto one while [n] stays below [2^52], so the exact rounding is
    what the source computes on any text that fits in memory. *)
Definition round_div (n d : Z) : Z :=
  let q := n / d in
  let r := n mod d in
  if 2 * r <? d then q
  else if d <? 2 * r then q + 1
  else if Z.even q then q else q + 1.

Record Meta := {
  source : Py.str;
  word_count : Z;
  char_count : Z;
  language_guess : Py.str;
  tags : list Py.str;
  reading_time_minutes : Z;
  processed_at : Py.str
}.

(** [now] is the value of [now_iso()] at the call. *)
Definition tps_ai_clean (now : Py.str) (raw_text : Py.str) : Py.str * Meta :=
  let cleaned := simple_normalize raw_text in
  let word_count := Z.of_nat (length (findall_words O cleaned)) in
  let char_count := Z.of_nat (length cleaned) in
  let language := infer_language_guess cleaned in
  let tags := extract_tags cleaned in
  let reading_time := Z.max 1 (round_div word_count 200) in
  (cleaned,
   {| source := lit "tps_ai_processor";
      word_count := word_count;
      char_count := char_count;
      language_guess := language;
      tags := tags;
      reading_time_minutes := reading_time;
      processed_at := now |}).

End Text.


(** ** SQL helpers *)

(** The number of bytes of the UTF-8 encoding. *)
Definition utf8_length (s : Py.str) : Z :=
  fold_right
    (fun c n =>
       (if c <? 128 then 1 else if c <? 2048 then 2
        else if c <? 65536 then 3 else 4) + n)
    0 s.

Module Sql.

(** [ORDER BY key]: a stable insertion sort. *)
Fixpoint insert_by {A} (key : A -> Z) (x : A) (l : list A) : list A :=
  match l with
  | [] => [x]
  | y :: l' => if key x <=? key y then x :: l else y :: insert_by key x l'
  end.

Definition order_by {A} (key : A -> Z) (l : list A) : list A :=
  fold_right (insert_by key) [] l.

(** [LIKE] compares the letters of ASCII without their case, and no other. *)
Definition like_fold (c : Z) : Z :=
  if Py.in_range (ord "A") (ord "Z") c then c + 32 else c.

(** A text as the functions of SQLite that are written for C strings read
    it: up to its first NUL character. *)
Definition c_string (s : Py.str) : Py.str :=
  Py.take_while (fun c => negb (c =? 0)) s.

(** [length(s)]: the number of characters before the first NUL. *)
Definition char_length (s : Py.str) : nat := length (c_string s).

(** [patternCompare] for [LIKE] without [ESCAPE], on two texts without NUL:
    [%] stands for any run of characters, [_] for any one character. *)
Fixpoint pattern_compare (p s : Py.str) : bool :=
  match p with
  | [] => match s with [] => true | _ :: _ => false end
  | c :: p' =>
    if c =? ord "%"
    then (fix any (s : Py.str) : bool :=
            pattern_compare p' s
            || match s with [] => false | _ :: s' => any s' end) s
    else match s with
         | [] => false
         | x :: s' =>
           ((c =? ord "_") || (like_fold c =? like_fold x))
           && pattern_compare p' s'
         end
  end.

(** [SQLITE_MAX_LIKE_PATTERN_LENGTH], in bytes, as SQLite is built by
    default. *)
Definition like_pattern_limit : Z := 50000.

(** [s LIKE p].  A pattern of more than [like_pattern_limit] bytes is
    refused, whatever the text ([None]: the statement raises
    [OperationalError]); otherwise the pattern and the text are both read
    up to their first NUL. *)
Definition like (p s : Py.str) : option bool :=
  if like_pattern_limit <? utf8_length p then None
  else Some (pattern_compare (c_string p) (c_string s)).

(** [WHERE test] on the rows of a table: the rows that pass the test, or
    [None] when the test raises on a row. *)
Fixpoint select_where {A} (test : A -> option bool) (rows : list A)
  : option (list A) :=
  match rows with
  | [] => Some []
  | x :: rows' =>
    match test x with
    | None => None
    | Some b =>
      match select_where test rows' with
      | None => None
      | Some l => Some (if b then x :: l else l)
      end
    end
  end.

(** [SQLITE_MAX_LENGTH], in bytes, as SQLite is built by default: the
    longest text that a statement takes. *)
Definition max_length : Z := 1000000000.

End Sql.

(** ** Texts as parameters of a statement *)

(** A code point that UTF-8 encodes: any but a surrogate. *)
Definition scalar_value (c : Z) : bool :=
  Py.in_range 0 55295 c || Py.in_range 57344 1114111 c.

(** A [str] that UTF-8 encodes: on a [str] that holds a lone surrogate the
    binding of a parameter raises [UnicodeEncodeError]. *)
Definition encodable (s : Py.str) : bool := forallb scalar_value s.

(** A [str] that [execute] takes as a parameter: it has an encoding, of
    [Sql.max_length] bytes at most; on a longer one the binding raises
    [DataError]. *)
Definition bindable (s : Py.str) : bool :=
  encodable s && (utf8_length s <=? Sql.max_length).

(** ** The store *)

Record RawEntry := {
  r_id : Z;
  r_text : Py.str;
  r_created_at : Py.str;
  r_status : Py.str
}.

Record CleanedEntry := {
  ce_id : Z;
  ce_raw_id : Z;
  ce_clean_text : Py.str;
  ce_metadata_json : Py.str;
  ce_created_at : Py.str
}.

(** A connection: the two tables in insertion order, the largest row id
    each [AUTOINCREMENT] key has given out, and the number of readings of
    the wall clock made so far. *)
Record Conn := {
  raw_entries : list RawEntry;
  raw_seq : Z;
  cleaned_entries : list CleanedEntry;
  cleaned_seq : Z;
  clock : nat
}.

(** The rows of the two search queries. *)
Record SearchRow := {
  sr_id : Z;
  sr_raw_id : Z;
  sr_clean_text_preview : Py.str;
  sr_clean_text : Py.str;
  sr_metadata_json : Py.str;
  sr_created_at : Py.str;
  sr_raw_created_at : Py.str
}.

Definition pending : Py.str := lit "pending".
Definition processed : Py.str := lit "processed".
Definition error : Py.str := lit "error".

(** The database that [get_conn] finds on first use: the DDL has made two
    empty tables. *)
Definition empty_conn (t : nat) : Conn :=
  {| raw_entries := []; raw_seq := 0;
     cleaned_entries := []; cleaned_seq := 0; clock := t |}.

Section Store.

(** [now_iso_at n] is what the [n]-th call of [now_iso] returns. *)
Variable now_iso_at : nat -> Py.str.

(** [json.dumps(meta, ensure_ascii=False)] *)
Variable json_dumps : Meta -> Py.str.

(** The call [tps_ai_clean(r["text"])] as [process_pending] sees it: it
    raises ([None]) or it returns a pair, whose metadata hold the reading of
    the clock made during the call. *)
Variable ai_clean : Py.str -> option (Py.str -> Py.str * Meta).

(** The answer of the FTS5 index, which mirrors the cleaned entries, to
    [MATCH query]: the entries that match, or [None] when the statement
    raises [OperationalError] (no index, or a query that FTS5 does not
    parse). *)
Variable fts5_match :
  list CleanedEntry -> Py.str -> option (CleanedEntry -> bool).

Definition now_iso (conn : Conn) : Py.str * Conn :=
  (now_iso_at (clock conn),
   {| raw_entries := raw_entries conn; raw_seq := raw_seq conn;
      cleaned_entries := cleaned_entries conn;
      cleaned_seq := cleaned_seq conn; clock := S (clock conn) |}).

(** [add_raw(conn, text)], for a text that the binding takes
    ([bindable]).  On another text [execute] raises before anything is
    stored: no state comes of it. *)
Definition add_raw (conn : Conn) (text : Py.str) : Conn * Z :=
  let '(now, conn) := now_iso conn in
  let lastrowid := raw_seq conn + 1 in
  ({| raw_entries :=
        raw_entries conn ++
        [{| r_id := lastrowid; r_text := text;
            r_created_at := now; r_status := pending |}];
      raw_seq := lastrowid;
      cleaned_entries := cleaned_entries conn;
      cleaned_seq := cleaned_seq conn;
      clock := clock conn |},
   lastrowid).

(** [INSERT INTO cleaned_entries ...]: refused ([None], an
    [IntegrityError]) when [raw_id] is taken already ([UNIQUE]) or names no
    raw entry ([FOREIGN KEY]). *)
Definition insert_cleaned (conn : Conn) (raw_id : Z)
    (clean_text metadata_json created_at : Py.str) : option Conn :=
  if existsb (fun ce => ce_raw_id ce =? raw_id) (cleaned_entries conn)
  then None
  else if negb (existsb (fun r => r_id r =? raw_id) (raw_entries conn))
  then None
  else
    let id := cleaned_seq conn + 1 in
    Some {| raw_entries := raw_entries conn; raw_seq := raw_seq conn;
            cleaned_entries :=
              cleaned_entries conn ++
              [{| ce_id := id; ce_raw_id := raw_id;
                  ce_clean_text := clean_text;
                  ce_metadata_json := metadata_json;
                  ce_created_at := created_at |}];
            cleaned_seq := id;
            clock := clock conn |}.

Definition set_status (st : Py.str) (id : Z) (r : RawEntry) : RawEntry :=
  if r_id r =? id
  then {| r_id := r_id r; r_text := r_text r;
          r_created_at := r_created_at r; r_status := st |}
  else r.

(** [UPDATE raw_entries SET status=st WHERE id=?] *)
Definition update_status (conn : Conn) (st : Py.str) (id : Z) : Conn :=
  {| raw_entries := map (set_status st id) (raw_entries conn);
     raw_seq := raw_seq conn;
     cleaned_entries := cleaned_entries conn;
     cleaned_seq := cleaned_seq conn;
     clock := clock conn |}.

(** [SELECT * FROM raw_entries WHERE status='pending' ORDER BY id] *)
Definition select_pending (conn : Conn) : list RawEntry :=
  Sql.order_by r_id
    (filter (fun r => Py.eqb (r_status r) pending) (raw_entries conn)).

(** The body of the loop of [process_pending]; the state is the connection
    with the two counters [ok] and [err].  The parameters of the [INSERT]
    are taken to be texts that the binding accepts ([bindable]), as the
    cleaned text and the JSON text of a stored text are while they stay
    within [Sql.max_length]. *)
Definition process_row (st : Conn * (Z * Z)) (r : RawEntry) : Conn * (Z * Z) :=
  let '(conn, (ok, err)) := st in
  match ai_clean (r_text r) with
  | Some result =>
    let '(now1, conn) := now_iso conn in
    let '(cleaned, meta) := result now1 in
    let '(now2, conn) := now_iso conn in
    match insert_cleaned conn (r_id r) cleaned (json_dumps meta) now2 with
    | Some conn => (update_status conn processed (r_id r), (ok + 1, err))
    | None => (update_status conn error (r_id r), (ok, err + 1))
    end
  | None => (update_status conn error (r_id r), (ok, err + 1))
  end.

Definition process_pending (conn : Conn) : Conn * (Z * Z) :=
  let rows := select_pending conn in
  fold_left process_row rows (conn, (0, 0)).

(** [CASE WHEN length(s) > n THEN substr(s,1,n) || '...' ELSE s END].
    [length] counts up to the first NUL, so a text cut there is kept
    whole; when it is longer, the first [n] characters hold no NUL and
    [substr] returns them all. *)
Definition preview (n : nat) (s : Py.str) : Py.str :=
  if (n <? Sql.char_length s)%nat then firstn n s ++ lit "..." else s.

(** One row of the join of a cleaned entry with its raw entry. *)
Definition search_row (ce : CleanedEntry) (r : RawEntry) : SearchRow :=
  {| sr_id := ce_id ce; sr_raw_id := ce_raw_id ce;
     sr_clean_text_preview := preview 200 (ce_clean_text ce);
     sr_clean_text := ce_clean_text ce;
     sr_metadata_json := ce_metadata_json ce;
     sr_created_at := ce_created_at ce;
     sr_raw_created_at := r_created_at r |}.

Definition join_raw (conn : Conn) (ce : CleanedEntry) : list SearchRow :=
  map (search_row ce)
      (filter (fun r => r_id r =? ce_raw_id ce) (raw_entries conn)).

(** The [SELECT] of both queries, on the cleaned entries that pass the
    [WHERE] clause. *)
Definition select_cleaned (conn : Conn) (hits : list CleanedEntry)
  : list SearchRow :=
  firstn 50
    (Sql.order_by (fun row => - sr_id row) (flat_map (join_raw conn) hits)).

(** [search_clean(conn, query, use_fts)]; [None] stands for the exception
    that [execute] raises: from the binding of the parameter, from the
    index or from [LIKE].  ([LIKE] refuses a pattern on every row or on
    none, so the statement raises at the first cleaned entry it tests,
    whatever the order of the scan and the [LIMIT].) *)
Definition search_clean (conn : Conn) (query : Py.str) (use_fts : bool)
  : option (list SearchRow) :=
  if use_fts
  then
    if bindable query
    then
      match fts5_match (cleaned_entries conn) query with
      | Some hit =>
        Some (select_cleaned conn (filter hit (cleaned_entries conn)))
      | None => None
      end
    else None
  else
    let q := lit "%" ++ query ++ lit "%" in
    if bindable q
    then
      match Sql.select_where (fun ce => Sql.like q (ce_clean_text ce))
                             (cleaned_entries conn) with
      | Some hits => Some (select_cleaned conn hits)
      | None => None
      end
    else None.

Definition count_where (p : RawEntry -> bool) (conn : Conn) : Z :=
  Z.of_nat (length (filter p (raw_entries conn))).

Definition count_stats (conn : Conn) : Z * Z * Z :=
  let total := count_where (fun _ => true) conn in
  let processed_n := count_where (fun r => Py.eqb (r_status r) processed) conn in
  let errors := count_where (fun r => Py.eqb (r_status r) error) conn in
  (total, processed_n, errors).

(** The states the core operations lead to from the empty database. *)
Inductive reachable : Conn -> Prop :=
  | reach_empty t : reachable (empty_conn t)
  | reach_add_raw conn text :
      reachable conn -> reachable (fst (add_raw conn text))
  | reach_process_pending conn :
      reachable conn -> reachable (fst (process_pending conn)).

End Store.

(** ** The listing and the detail of entries *)

(** [LIMIT limit OFFSET offset]: SQLite reads a negative offset as 0 and a
    negative limit as no limit. *)
Definition limit_offset {A} (limit offset : Z) (l : list A) : list A :=
  let l := skipn (Z.to_nat offset) l in
  if limit <? 0 then l else firstn (Z.to_nat limit) l.

(** [raw_entries r LEFT JOIN cleaned_entries ce ON ce.raw_id = r.id], the
    rows for one raw entry: one for each cleaned entry bound to it, and one
    with the columns of [ce] null when there is none. *)
Definition left_join (conn : Conn) (r : RawEntry)
  : list (RawEntry * option CleanedEntry) :=
  match filter (fun ce => ce_raw_id ce =? r_id r) (cleaned_entries conn) with
  | [] => [(r, None)]
  | ces => map (fun ce => (r, Some ce)) ces
  end.

(** The rows of [recent]; a null column is [None], and the truth value
    [has_clean] is the integer SQLite gives. *)
Record RecentRow := {
  rr_id : Z;
  rr_text_preview : Py.str;
  rr_text : Py.str;
  rr_status : Py.str;
  rr_created_at : Py.str;
  rr_has_clean : Z;
  rr_clean_id : option Z;
  rr_metadata_json : option Py.str
}.

Definition recent_row (j : RawEntry * option CleanedEntry) : RecentRow :=
  let (r, ce) := j in
  {| rr_id := r_id r;
     rr_text_preview := preview 100 (r_text r);
     rr_text := r_text r;
     rr_status := r_status r;
     rr_created_at := r_created_at r;
     rr_has_clean := match ce with Some _ => 1 | None => 0 end;
     rr_clean_id := option_map ce_id ce;
     rr_metadata_json := option_map ce_metadata_json ce |}.

(** An integer that SQLite holds.  The binding of a Python integer beyond
    this range raises [OverflowError]. *)
Definition sqlite_int (n : Z) : bool :=
  (- 9223372036854775808 <=? n) && (n <=? 9223372036854775807).

(** The rows of the query of [recent]. *)
Definition recent_rows (conn : Conn) (limit offset : Z) : list RecentRow :=
  limit_offset limit offset
    (Sql.order_by (fun row => - rr_id row)
       (map recent_row (flat_map (left_join conn) (raw_entries conn)))).

(** [recent(conn, limit, offset)]; the defaults of the source are
    [limit = 10] and [offset = 0].  [None] stands for the [OverflowError]
    that [execute] raises on a parameter SQLite cannot hold. *)
Definition recent (conn : Conn) (limit offset : Z)
  : option (list RecentRow) :=
  if sqlite_int limit && sqlite_int offset
  then Some (recent_rows conn limit offset)
  else None.

(** The row of [get_entry_detail]. *)
Record EntryDetail := {
  d_id : Z;
  d_text : Py.str;
  d_status : Py.str;
  d_created_at : Py.str;
  d_clean_id : option Z;
  d_clean_text : option Py.str;
  d_metadata_json : option Py.str;
  d_clean_created_at : option Py.str
}.

Definition detail_row (j : RawEntry * option CleanedEntry) : EntryDetail :=
  let (r, ce) := j in
  {| d_id := r_id r;
     d_text := r_text r;
     d_status := r_status r;
     d_created_at := r_created_at r;
     d_clean_id := option_map ce_id ce;
     d_clean_text := option_map ce_clean_text ce;
     d_metadata_json := option_map ce_metadata_json ce;
     d_clean_created_at := option_map ce_created_at ce |}.

(** The rows of the query of [get_entry_detail]. *)
Definition detail_rows (conn : Conn) (raw_id : Z) : list EntryDetail :=
  map detail_row
    (flat_map (left_join conn)
       (filter (fun r => r_id r =? raw_id) (raw_entries conn))).

(** [get_entry_detail(conn, raw_id)]: [fetchone] gives the first row of the
    join, or Python's [None] (here [Some None]) when there is no row.  The
    outer [None] stands for the [OverflowError] that [execute] raises on an
    id SQLite cannot hold. *)
Definition get_entry_detail (conn : Conn) (raw_id : Z)
  : option (option EntryDetail) :=
  if sqlite_int raw_id then Some (hd_error (detail_rows conn raw_id)) else None.

(** ** The routes of [app.py]

    A route is modelled by what it does to the store and by what it hands
    to the page: the messages it flashes, and for [browse] the values given
    to the template.  [get_conn] is taken to succeed; the [except] branch
    of a route is entered when a call of the core raises. *)






(** The values [browse] gives to its template. *)
Record BrowsePage := {
  bp_entries : list RecentRow;
  bp_page : Z;
  bp_total_pages : Z;
  bp_has_prev : bool;
  bp_has_next : bool;
  bp_total : Z
}.

Section App.

Variable now_iso_at : nat -> Py.str.
Variable json_dumps : Meta -> Py.str.
Variable ai_clean : Py.str -> option (Py.str -> Py.str * Meta).



End App.

Definition per_page : Z := 20.

(** The route [/browse], for the value [page] of the query string.  When
    [recent] raises, the [except] branch gives the template an empty first
    page. *)
Definition browse (conn : Conn) (page : Z) : BrowsePage :=
  let offset := (page - 1) * per_page in
  match recent conn per_page offset with
  | Some entries =>
    let '(total, processed_n, errors) := count_stats conn in
    let total_pages := (total + per_page - 1) / per_page in
    let has_prev := 1 <? page in
    let has_next := page <? total_pages in
    {| bp_entries := entries;
       bp_page := page;
       bp_total_pages := total_pages;
       bp_has_prev := has_prev;
       bp_has_next := has_next;
       bp_total := total |}
  | None =>
    {| bp_entries := []; bp_page := 1; bp_total_pages := 0;
       bp_has_prev := false; bp_has_next := false; bp_total := 0 |}
  end.

(** ** Reference definitions for the properties below *)

(** The classes of the language guess by their code points: the letters of
    the Russian alphabet (U+0410 to U+044F, U+0401 and U+0451), the kana and
    the unified ideographs (U+3041 to U+30FF, U+4E00 to U+9FFF), and the
    accented letters and marks of the three Latin sets. *)
Definition russian_letter (c : Z) : Prop :=
  1040 <= c <= 1103 \/ c = 1025 \/ c = 1105.

Definition kana_or_kanji (c : Z) : Prop :=
  12353 <= c <= 12543 \/ 19968 <= c <= 40959.

Definition spanish_mark (c : Z) : Prop :=
  In c [225; 233; 237; 243; 250; 241; 252; 191; 161].

Definition french_mark (c : Z) : Prop :=
  In c [224; 226; 228; 233; 232; 234; 235; 238; 239; 244; 246; 249; 251;
        252; 255; 231].

Definition german_mark (c : Z) : Prop := In c [228; 246; 252; 223].

(** The Cyrillic block of Unicode, U+0400 to U+04FF. *)
Definition cyrillic_block (c : Z) : Prop := 1024 <= c <= 1279.

(** Some character of the text has the property. *)
Definition holds (P : Z -> Prop) (text : Py.str) : Prop :=
  exists c, In c text /\ P c.

(** The letters German adds to the Latin alphabet, small and capital. *)
Definition german_letter : Z -> bool := Py.one_of (lit "äöüßÄÖÜẞ").

Definition has (cls : Z -> bool) (text : Py.str) : Prop :=
  exists c, In c text /\ cls c = true.

(** The place of the first occurrence of [x] in [l] (the length of [l] when
    there is none). *)
Fixpoint first_index (x : Py.str) (l : list Py.str) : nat :=
  match l with
  | [] => O
  | y :: l' => if Py.eqb x y then O else S (first_index x l')
  end.

(** Reading time as a ceiling of [word_count / 200], not below 1. *)
Definition ceiling_minutes (word_count : Z) : Z :=
  Z.max 1 ((word_count + 199) / 200).

(** Inputs and parameters for the closed statements. *)
Definition example_input : Py.str :=
  lit "Hello   world" ++ [9] ++ lit "#fun #fun testingword".

Definition words_201 : Py.str :=
  flat_map (fun _ => lit "a ") (seq 0 201).

Definition quoted_pattern_input : Py.str :=
  lit ", '" ++ quote_pattern ++ lit "').replace(".

Definition ascii_only_alnum : Z -> bool := fun _ => false.
Definition unchanged_lower : Z -> Py.str := fun c => [c].

(** The cleaner of this program, as [process_pending] calls it: it returns
    on every text. *)
Definition tps_clean_call (unicode_alnum : Z -> bool)
    (unicode_lower : Z -> Py.str) (text : Py.str)
  : option (Py.str -> Py.str * Meta) :=
  Some (fun now => tps_ai_clean unicode_alnum unicode_lower now text).

(** A cleaner that raises on one text, for the closed statements. *)
Definition clean_or_raise (text : Py.str)
  : option (Py.str -> Py.str * Meta) :=
  if Py.eqb text (lit "raise") then None
  else tps_clean_call ascii_only_alnum unchanged_lower text.

Definition epoch : nat -> Py.str := fun _ => lit "1970-01-01T00:00:00Z".
Definition no_json : Meta -> Py.str := fun _ => lit "{}".

(** A store with two pending entries, the second of which makes
    [clean_or_raise] raise, and the store after the batch. *)
Definition example_pending_store : Conn :=
  fst (add_raw epoch
         (fst (add_raw epoch (empty_conn 0) (lit "Hello world")))
         (lit "raise")).

Definition example_store : Conn :=
  fst (process_pending epoch no_json clean_or_raise example_pending_store).

(** No full-text index: [MATCH] raises. *)
Definition no_fts
  : list CleanedEntry -> Py.str -> option (CleanedEntry -> bool) :=
  fun _ _ => None.

(** [q] occurs in [s] up to the case of the letters of ASCII. *)
Definition contains_nocase (q s : Py.str) : Prop :=
  exists pre mid post,
    s = pre ++ mid ++ post /\ map Sql.like_fold mid = map Sql.like_fold q.

(** A query without the two wildcards of [LIKE]. *)
Definition plain_query (q : Py.str) : Prop :=
  Forall (fun c => c <> ord "%" /\ c <> ord "_") q.

(** The cleaned entries of a raw entry. *)
Definition cleaned_for (conn : Conn) (id : Z) : list CleanedEntry :=
  filter (fun ce => ce_raw_id ce =? id) (cleaned_entries conn).

(** The raw entry [id] exists and has status [st]. *)
Definition status_in (conn : Conn) (id : Z) (st : Py.str) : Prop :=
  (exists r, In r (raw_entries conn) /\ r_id r = id) /\
  forall r, In r (raw_entries conn) -> r_id r = id -> r_status r = st.

Definition known_status (r : RawEntry) : Prop :=
  r_status r = pending \/ r_status r = processed \/ r_status r = error.

(** Whether the cleaner raises on the text of a row. *)
Definition raises (ai_clean : Py.str -> option (Py.str -> Py.str * Meta))
    (r : RawEntry) : bool :=
  match ai_clean (r_text r) with None => true | Some _ => false end.

Definition count_rows (p : RawEntry -> bool) (rows : list RawEntry) : Z :=
  Z.of_nat (length (filter p rows)).

(** What a row of the batch comes to: [error] and no cleaned entry when the
    cleaner raised, [processed] and one cleaned entry when it returned. *)
Definition outcome (ai_clean : Py.str -> option (Py.str -> Py.str * Meta))
    (conn : Conn) (r : RawEntry) : Prop :=
  if raises ai_clean r
  then status_in conn (r_id r) error /\ cleaned_for conn (r_id r) = []
  else status_in conn (r_id r) processed /\
       length (cleaned_for conn (r_id r)) = 1%nat.

(** What the constraints of the DDL and the pipeline keep true. *)
Record wf (conn : Conn) : Prop := {
  wf_raw_ids : StronglySorted Z.lt (map r_id (raw_entries conn));
  wf_raw_seq : Forall (fun r => r_id r <= raw_seq conn) (raw_entries conn);
  wf_cleaned_ids : StronglySorted Z.lt (map ce_id (cleaned_entries conn));
  wf_cleaned_seq :
    Forall (fun ce => ce_id ce <= cleaned_seq conn) (cleaned_entries conn);
  wf_unique : NoDup (map ce_raw_id (cleaned_entries conn));
  wf_status : Forall known_status (raw_entries conn);
  wf_link : forall r, In r (raw_entries conn) ->
      (r_status r = processed <-> cleaned_for conn (r_id r) <> []);
  wf_foreign_key : forall ce, In ce (cleaned_entries conn) ->
      exists r, In r (raw_entries conn) /\ r_id r = ce_raw_id ce
}.

(** ** Reference definitions for the tags *)

Section TagReference.

Variable unicode_alnum : Z -> bool.
Variable unicode_lower : Z -> Py.str.

(** The characters that [\w] takes: the digits and letters of ASCII, the
    underscore, and beyond ASCII what the interpreter calls alphanumeric. *)
Definition word_char (c : Z) : Prop :=
  48 <= c <= 57 \/ 65 <= c <= 90 \/ 97 <= c <= 122 \/ c = 95 \/
  (128 <= c /\ unicode_alnum c = true).

(** The characters that [[a-zA-Z]] takes. *)
Definition letter_char (c : Z) : Prop := 65 <= c <= 90 \/ 97 <= c <= 122.

(** [t] is the text [s] in lower case: a capital letter of ASCII becomes
    the small one, the other characters of ASCII stay, and a character
    beyond ASCII becomes what the interpreter makes of it. *)
Inductive lowered : Py.str -> Py.str -> Prop :=
| lowered_nil : lowered [] []
| lowered_capital c s t :
    65 <= c <= 90 -> lowered s t -> lowered (c :: s) (c + 32 :: t)
| lowered_ascii c s t :
    c < 128 -> ~ 65 <= c <= 90 -> lowered s t -> lowered (c :: s) (c :: t)
| lowered_beyond c s t :
    128 <= c -> lowered s t -> lowered (c :: s) (unicode_lower c ++ t).

(** What the group of [#(\w+)] can take: one word character or more. *)
Definition hashtag_group (w : Py.str) : Prop := w <> [] /\ Forall word_char w.

(** The list that [re.findall] gives for [#(\w+)]: no match, and no group;
    or the group [w] of the match that starts first, taken as long as it
    can be, and then the groups of the text after this match. *)
Inductive hashtag_matches : Py.str -> list Py.str -> Prop :=
| hm_none s :
    (forall a w b, s = a ++ ord "#" :: w ++ b -> ~ hashtag_group w) ->
    hashtag_matches s []
| hm_next a w b l :
    hashtag_group w ->
    (forall a' w' b', a ++ ord "#" :: w ++ b = a' ++ ord "#" :: w' ++ b' ->
                      hashtag_group w' -> (length a <= length a')%nat) ->
    (forall w' b', w ++ b = w' ++ b' -> hashtag_group w' ->
                   (length w' <= length w)%nat) ->
    hashtag_matches b l ->
    hashtag_matches (a ++ ord "#" :: w ++ b) (w :: l).

(** A word character ends [a]; a word character starts [b]. *)
Definition word_before (a : Py.str) : Prop :=
  exists a' c, a = a' ++ [c] /\ word_char c.

Definition word_after (b : Py.str) : Prop :=
  exists c b', b = c :: b' /\ word_char c.

(** [\b] holds between [a] and [b]: a word character on one side only. *)
Definition boundary (a b : Py.str) : Prop :=
  (word_before a /\ ~ word_after b) \/ (~ word_before a /\ word_after b).

(** [\b[a-zA-Z]{5,}\b] matches [t] in the text [a ++ t ++ b]. *)
Definition token_at (a t b : Py.str) : Prop :=
  (5 <= length t)%nat /\ Forall letter_char t /\
  boundary a (t ++ b) /\ boundary (a ++ t) b.

(** The list that [re.findall] gives for [\b[a-zA-Z]{5,}\b] on the part [s]
    of a text that comes after the part [before]: no match, and no token; or
    the match that starts first, taken as long as it can be, and then the
    tokens of the text after this match. *)
Inductive token_matches : Py.str -> Py.str -> list Py.str -> Prop :=
| tm_none before s :
    (forall a t b, s = a ++ t ++ b -> ~ token_at (before ++ a) t b) ->
    token_matches before s []
| tm_next before a t b l :
    token_at (before ++ a) t b ->
    (forall a' t' b', a ++ t ++ b = a' ++ t' ++ b' ->
                      token_at (before ++ a') t' b' ->
                      (length a <= length a')%nat) ->
    (forall t' b', t ++ b = t' ++ b' -> token_at (before ++ a) t' b' ->
                   (length t' <= length t)%nat) ->
    token_matches (before ++ a ++ t) b l ->
    token_matches before (a ++ t ++ b) (t :: l).

End TagReference.

(** ** Reference definitions for the further properties *)

(** No two spaces in a row; with [prev], no space at the start either. *)
Fixpoint spaced (prev : bool) (s : Py.str) : bool :=
  match s with
  | [] => true
  | c :: s' => if c =? 32 then negb prev && spaced true s' else spaced false s'
  end.

(** The text does not end with a white space character. *)
Definition ends_ok (s : Py.str) : Prop :=
  s = [] \/ Py.isspace (last s 0) = false.

(** The text does not start with a white space character. *)
Definition starts_ok (s : Py.str) : Prop :=
  match s with
  | [] => True
  | c :: _ => Py.isspace c = false
  end.

(** What the white space steps of [simple_normalize] leave: no tab, no
    carriage return, no no-break space, no two spaces in a row, no white
    space at either end. *)
Definition normal (t : Py.str) : Prop :=
  (forall c, In c t -> c <> 9 /\ c <> 13 /\ c <> 160) /\
  spaced false t = true /\ starts_ok t /\ ends_ok t.

(** The four white space steps of [simple_normalize]. *)
Definition whitespace_steps (text : Py.str) : Py.str :=
  Py.strip
    (Py.sub_cr_lf
       (Py.sub_class_plus space_or_nbsp (lit " ") false
          (Py.replace [9] (lit " ") text))).

(** The status the batch gives a pending row. *)
Definition verdict (ai_clean : Py.str -> option (Py.str -> Py.str * Meta))
    (r : RawEntry) : Py.str :=
  if raises ai_clean r then error else processed.

(** A pending row after the batch; the other rows stay as they are. *)
Definition settle (ai_clean : Py.str -> option (Py.str -> Py.str * Meta))
    (r : RawEntry) : RawEntry :=
  if Py.eqb (r_status r) pending
  then {| r_id := r_id r; r_text := r_text r;
          r_created_at := r_created_at r; r_status := verdict ai_clean r |}
  else r.

(** A row of the table after the [UPDATE]s for the rows [rows]. *)
Definition settle_by (ai_clean : Py.str -> option (Py.str -> Py.str * Meta))
    (rows : list RawEntry) (r0 : RawEntry) : RawEntry :=
  fold_left (fun x r => set_status (verdict ai_clean r) (r_id r) x) rows r0.

(** The cleaned entry that a turn of the loop inserts for the row [r]. *)
Definition new_entry (now_iso_at : nat -> Py.str) (json_dumps : Meta -> Py.str)
    (conn : Conn) (r : RawEntry) (result : Py.str -> Py.str * Meta)
  : CleanedEntry :=
  {| ce_id := cleaned_seq conn + 1;
     ce_raw_id := r_id r;
     ce_clean_text := fst (result (now_iso_at (clock conn)));
     ce_metadata_json := json_dumps (snd (result (now_iso_at (clock conn))));
     ce_created_at := now_iso_at (S (clock conn)) |}.

(** [ce] is what the cleaner made of the text of [r], at some reading of
    the clock. *)
Definition cleaned_from (now_iso_at : nat -> Py.str)
    (json_dumps : Meta -> Py.str)
    (ai_clean : Py.str -> option (Py.str -> Py.str * Meta))
    (r : RawEntry) (ce : CleanedEntry) : Prop :=
  ce_raw_id ce = r_id r /\
  exists result n,
    ai_clean (r_text r) = Some result /\
    ce_clean_text ce = fst (result (now_iso_at n)) /\
    ce_metadata_json ce = json_dumps (snd (result (now_iso_at n))) /\
    ce_created_at ce = now_iso_at (S n).

(** The store after one entry went through the cleaner of the program. *)
Definition example_clean_store : Conn :=
  fst (process_pending epoch no_json
         (tps_clean_call ascii_only_alnum unchanged_lower)
         (fst (add_raw epoch (empty_conn 0) (lit "Hello   world")))).

(** A store with three processed entries, for the search. *)
Definition example_search_store : Conn :=
  let cleaner := tps_clean_call ascii_only_alnum unchanged_lower in
  let conn := fst (add_raw epoch (empty_conn 0) (lit "Alpha one")) in
  let conn := fst (add_raw epoch conn (lit "beta")) in
  let conn := fst (add_raw epoch conn (lit "two alphas")) in
  fst (process_pending epoch no_json cleaner conn).

(** * Properties *)

Module PyFacts.

Lemma eqb_eq a b : Py.eqb a b = true <-> a = b.
Proof. unfold Py.eqb. destruct (list_eq_dec Z.eq_dec a b); split; congruence. Qed.

Lemma eqb_refl a : Py.eqb a a = true.
Proof. now apply eqb_eq. Qed.

Lemma eqb_neq a b : Py.eqb a b = false <-> a <> b.
Proof. unfold Py.eqb. destruct (list_eq_dec Z.eq_dec a b); split; congruence. Qed.

Lemma mem_In x l : Py.mem x l = true <-> In x l.
Proof.
  unfold Py.mem. rewrite existsb_exists. split.
  - intros (y & Hy & E). apply eqb_eq in E. now subst.
  - intros H. exists x. split; [assumption | now apply eqb_eq].
Qed.

Lemma mem_not_In x l : Py.mem x l = false <-> ~ In x l.
Proof.
  rewrite <- mem_In. destruct (Py.mem x l); split; congruence.
Qed.

Lemma search_class_has cls text : Py.search_class cls text = true <-> has cls text.
Proof. unfold Py.search_class, has. apply existsb_exists. Qed.

Lemma search_class_none cls text :
  Py.search_class cls text = false <-> forall c, In c text -> cls c = false.
Proof.
  unfold Py.search_class. induction text as [|a text IH]; simpl.
  - split; [intros _ c [] | reflexivity].
  - rewrite orb_false_iff, IH. split.
    + intros [Ha Ht] c [<- | Hc]; auto.
    + intros H. split; [apply H; now left | intros c Hc; apply H; now right].
Qed.

Lemma take_while_Forall f s : Forall (fun c => f c = true) (Py.take_while f s).
Proof.
  induction s as [|c s IH]; simpl; [constructor |].
  destruct (f c) eqn:E; constructor; assumption.
Qed.

Lemma take_while_keeps (P : Z -> Prop) f s :
  Forall P s -> Forall P (Py.take_while f s).
Proof.
  induction 1 as [|c s Hc Hs IH]; simpl; [constructor |].
  destruct (f c); constructor; assumption.
Qed.

Lemma in_range_iff lo hi c : Py.in_range lo hi c = true <-> lo <= c <= hi.
Proof. unfold Py.in_range. rewrite andb_true_iff, !Z.leb_le. tauto. Qed.

Lemma in_range_false lo hi c : Py.in_range lo hi c = false <-> c < lo \/ hi < c.
Proof.
  unfold Py.in_range. rewrite andb_false_iff, !Z.leb_gt. tauto.
Qed.

Lemma letter_not_upper c :
  is_letter c = true -> ascii_upper c = false -> ascii_lower c = true.
Proof.
  unfold is_letter. intros H Hu. rewrite Hu, orb_false_r in H. exact H.
Qed.

Lemma round_div_nearest n :
  let k := round_div n 200 in
  Z.abs (200 * k - n) <= 100 /\
  (Z.abs (200 * k - n) < 100 \/ Z.even k = true).
Proof.
  unfold round_div.
  pose proof (Z.div_mod n 200 ltac:(lia)) as E.
  pose proof (Z.mod_pos_bound n 200 ltac:(lia)) as B.
  destruct (Z.ltb_spec (2 * (n mod 200)) 200) as [H1 | H1].
  - cbv zeta. split; [lia | left; lia].
  - destruct (Z.ltb_spec 200 (2 * (n mod 200))) as [H2 | H2].
    + cbv zeta. split; [lia | left; lia].
    + destruct (Z.even (n / 200)) eqn:Ev; cbv zeta.
      * split; [lia | now right].
      * split; [lia | right].
        rewrite Z.even_add, Ev. reflexivity.
Qed.

End PyFacts.

(** ** The language guess *)

Section LanguageFacts.

Import PyFacts.

Ltac guess_cases text :=
  unfold infer_language_guess;
  destruct (Py.search_class cyrillic text) eqn:Ecyr;
  [| destruct (Py.search_class cjk text) eqn:Ecjk;
     [| destruct (Py.search_class spanish_set text) eqn:Esp;
        [| destruct (Py.search_class french_set text) eqn:Efr;
           [| destruct (Py.search_class german_set text) eqn:Ede ]]]].

Lemma one_of_In cs c : Py.one_of cs c = true <-> In c cs.
Proof.
  unfold Py.one_of. rewrite existsb_exists. split.
  - intros (x & Hx & E). apply Z.eqb_eq in E. now subst.
  - intros H. exists c. split; [assumption | apply Z.eqb_refl].
Qed.

Lemma cyrillic_iff c : cyrillic c = true <-> russian_letter c.
Proof.
  unfold cyrillic, russian_letter.
  rewrite !orb_true_iff, !in_range_iff, one_of_In. cbn [In]. lia.
Qed.

Lemma cjk_iff c : cjk c = true <-> kana_or_kanji c.
Proof.
  unfold cjk, kana_or_kanji. rewrite !orb_true_iff, !in_range_iff. lia.
Qed.

Lemma search_class_holds cls (P : Z -> Prop) text :
  (forall c, cls c = true <-> P c) ->
  (Py.search_class cls text = true <-> holds P text).
Proof.
  intros H. rewrite search_class_has. unfold has, holds.
  split; intros (c & Hc & Hp); exists c; (split; [assumption | now apply H]).
Qed.

(** C7.  The checks of the language guess come in a fixed order and the
    first that succeeds gives the answer: Russian when the text holds a
    letter of the Russian alphabet; otherwise Japanese/Chinese when it holds
    a kana or a unified ideograph; otherwise Spanish, French or German, in
    this order, when it holds a character of the set; otherwise English. *)
Theorem infer_language_guess_priority (text : Py.str) :
  (holds russian_letter text ->
   infer_language_guess text = lit "Russian") /\
  (~ holds russian_letter text -> holds kana_or_kanji text ->
   infer_language_guess text = lit "Japanese/Chinese") /\
  (~ holds russian_letter text -> ~ holds kana_or_kanji text ->
   holds spanish_mark text ->
   infer_language_guess text = lit "Spanish") /\
  (~ holds russian_letter text -> ~ holds kana_or_kanji text ->
   ~ holds spanish_mark text -> holds french_mark text ->
   infer_language_guess text = lit "French") /\
  (~ holds russian_letter text -> ~ holds kana_or_kanji text ->
   ~ holds spanish_mark text -> ~ holds french_mark text ->
   holds german_mark text ->
   infer_language_guess text = lit "German") /\
  (~ holds russian_letter text -> ~ holds kana_or_kanji text ->
   ~ holds spanish_mark text -> ~ holds french_mark text ->
   ~ holds german_mark text ->
   infer_language_guess text = lit "English").
Proof.
  pose proof (search_class_holds cyrillic _ text cyrillic_iff) as Hru.
  pose proof (search_class_holds cjk _ text cjk_iff) as Hcjk.
  pose proof (search_class_holds spanish_set spanish_mark text
                (one_of_In _)) as Hes.
  pose proof (search_class_holds french_set french_mark text
                (one_of_In _)) as Hfr.
  pose proof (search_class_holds german_set german_mark text
                (one_of_In _)) as Hde.
  guess_cases text;
    repeat split; intros; try reflexivity; exfalso;
    repeat match goal with
           | H : true = true <-> _ |- _ =>
             apply proj1 in H; specialize (H eq_refl)
           | H : false = true <-> _ |- _ =>
             apply proj2 in H;
             assert (~ _)
               by (let X := fresh in intros X; apply H in X; discriminate X);
             clear H
           end;
    tauto.
Qed.

Lemma infer_language_guess_priority_witness :
  infer_language_guess (lit "Привет, world") = lit "Russian".
Proof.
  apply (proj1 (infer_language_guess_priority (lit "Привет, world"))).
  exists (ord "П"). split; [vm_compute; tauto | unfold russian_letter; lia].
Defined.

(** C7 as stated fails: the two letters of this text lie in the Cyrillic
    block, and the guess is English. *)
Lemma cyrillic_letter_not_russian :
  Forall cyrillic_block (lit "ії") /\
  infer_language_guess (lit "ії") = lit "English" /\
  infer_language_guess (lit "ії") <> lit "Russian".
Proof.
  split; [repeat constructor; unfold cyrillic_block; lia |].
  vm_compute. split; [reflexivity | intros H; discriminate H].
Qed.

(** Case analysis on a hypothesis [H : cls c = true] for a class given by
    its list of characters. *)
Ltac class_cases H :=
  apply one_of_In in H; vm_compute in H;
  repeat destruct H as [<- | H]; [.. | contradiction H].

Lemma german_only_class (cls : Z -> bool) (text : Py.str) :
  (forall c, In c text -> 128 <= c -> german_letter c = true) ->
  (forall c, c < 128 -> cls c = false) ->
  (forall c, german_letter c = true -> cls c = false) ->
  Py.search_class cls text = false.
Proof.
  intros Hg Hascii Hcls. apply search_class_none. intros c Hc.
  destruct (Z_lt_ge_dec c 128) as [Hlt | Hge].
  - now apply Hascii.
  - apply Hcls, Hg; [assumption | lia].
Qed.

Lemma cyrillic_not_ascii c : c < 128 -> cyrillic c = false.
Proof.
  intros H. unfold cyrillic, Py.in_range, Py.one_of.
  cbn [existsb].
  destruct (Z.leb_spec 1040 c); [lia |].
  destruct (Z.leb_spec 1072 c); [lia |].
  destruct (Z.eqb_spec c 1025); [lia |].
  destruct (Z.eqb_spec c 1105); [lia |].
  reflexivity.
Qed.

Lemma cjk_not_ascii c : c < 128 -> cjk c = false.
Proof.
  intros H. unfold cjk, Py.in_range.
  destruct (Z.leb_spec 12353 c); [lia |].
  destruct (Z.leb_spec 12448 c); [lia |].
  destruct (Z.leb_spec 19968 c); [lia |].
  reflexivity.
Qed.

Lemma german_not_cyrillic c : german_letter c = true -> cyrillic c = false.
Proof. intros H. class_cases H; vm_compute; reflexivity. Qed.

Lemma german_not_cjk c : german_letter c = true -> cjk c = false.
Proof. intros H. class_cases H; vm_compute; reflexivity. Qed.

Lemma class_of_member (cls : Z -> bool) c text :
  In c text -> cls c = true -> Py.search_class cls text = true.
Proof. intros Hin Hc. apply search_class_has. now exists c. Qed.

(** The cascade of [infer_language_guess] once the first two checks are
    known to fail. *)
Lemma guess_latin text :
  Py.search_class cyrillic text = false ->
  Py.search_class cjk text = false ->
  infer_language_guess text =
  if Py.search_class spanish_set text then lit "Spanish"
  else if Py.search_class french_set text then lit "French"
  else if Py.search_class german_set text then lit "German"
  else lit "English".
Proof.
  intros Hcyr Hcjk. unfold infer_language_guess.
  destruct (Py.search_class cyrillic text); [discriminate |].
  destruct (Py.search_class cjk text); [discriminate |]. reflexivity.
Qed.

(** C10.  In a text whose characters beyond ASCII are all German letters,
    a small u-umlaut makes the guess Spanish; without it a small a-umlaut or
    o-umlaut makes it French.  For any text, the guess German means that the
    text holds a sharp s and no character of the Cyrillic, CJK, Spanish or
    French class. *)
Theorem german_letters_guess (text : Py.str)
  (Hgerman : forall c, In c text -> 128 <= c -> german_letter c = true) :
  (In (ord "ü") text -> infer_language_guess text = lit "Spanish") /\
  (~ In (ord "ü") text ->
   In (ord "ä") text \/ In (ord "ö") text ->
   infer_language_guess text = lit "French") /\
  (infer_language_guess text = lit "German" ->
   In (ord "ß") text /\ ~ has cyrillic text /\ ~ has cjk text /\
   ~ has spanish_set text /\ ~ has french_set text).
Proof.
  assert (Hcyr : Py.search_class cyrillic text = false)
    by (apply german_only_class;
        auto using cyrillic_not_ascii, german_not_cyrillic).
  assert (Hcjk : Py.search_class cjk text = false)
    by (apply german_only_class; auto using cjk_not_ascii, german_not_cjk).
  split; [| split].
  - intros Hu. rewrite (guess_latin _ Hcyr Hcjk).
    assert (E : Py.search_class spanish_set text = true)
      by (apply (class_of_member _ _ _ Hu); vm_compute; reflexivity).
    destruct (Py.search_class spanish_set text); [reflexivity | discriminate].
  - intros Hnu Hao. rewrite (guess_latin _ Hcyr Hcjk).
    assert (Hsp : Py.search_class spanish_set text = false).
    { apply search_class_none. intros c Hc.
      destruct (spanish_set c) eqn:E; [exfalso | reflexivity].
      destruct (Z_lt_ge_dec c 128) as [Hlt | Hge].
      - class_cases E; vm_compute in Hlt; discriminate Hlt.
      - assert (G : german_letter c = true)
          by (apply Hgerman; [assumption | lia]).
        class_cases E; try (apply Hnu; exact Hc);
          vm_compute in G; discriminate G. }
    assert (Hfr : Py.search_class french_set text = true).
    { destruct Hao as [Ha | Ho].
      - apply (class_of_member _ _ _ Ha); vm_compute; reflexivity.
      - apply (class_of_member _ _ _ Ho); vm_compute; reflexivity. }
    destruct (Py.search_class spanish_set text); [discriminate |].
    destruct (Py.search_class french_set text); [reflexivity | discriminate].
  - clear Hcyr Hcjk Hgerman. unfold infer_language_guess.
    destruct (Py.search_class cyrillic text) eqn:Ecyr;
      [intros E; exfalso; revert E; apply eqb_neq; vm_compute; reflexivity |].
    destruct (Py.search_class cjk text) eqn:Ecjk;
      [intros E; exfalso; revert E; apply eqb_neq; vm_compute; reflexivity |].
    destruct (Py.search_class spanish_set text) eqn:Esp;
      [intros E; exfalso; revert E; apply eqb_neq; vm_compute; reflexivity |].
    destruct (Py.search_class french_set text) eqn:Efr;
      [intros E; exfalso; revert E; apply eqb_neq; vm_compute; reflexivity |].
    destruct (Py.search_class german_set text) eqn:Ede;
      [| intros E; exfalso; revert E; apply eqb_neq; vm_compute; reflexivity].
    intros _. repeat split.
    + apply search_class_has in Ede. destruct Ede as (c & Hc & E).
      assert (Hf : french_set c = false)
        by (apply (proj1 (search_class_none french_set text) Efr c Hc)).
      class_cases E; try (vm_compute in Hf; discriminate Hf). exact Hc.
    + rewrite <- search_class_has. congruence.
    + rewrite <- search_class_has. congruence.
    + rewrite <- search_class_has. congruence.
    + rewrite <- search_class_has. congruence.
Qed.

Lemma german_letters_guess_witness :
  infer_language_guess (lit "Grüße") = lit "Spanish".
Proof.
  apply (proj1 (german_letters_guess (lit "Grüße")
    ltac:(intros c Hc Hge; vm_compute in Hc;
          repeat destruct Hc as [<- | Hc];
          [.. | contradiction Hc];
          try (vm_compute; reflexivity);
          exfalso; apply Hge; reflexivity))).
  vm_compute. tauto.
Defined.

End LanguageFacts.

(** ** Tags *)

Module TagFacts.

Import PyFacts.

Lemma NoDup_snoc {A} (l : list A) a : NoDup l -> ~ In a l -> NoDup (l ++ [a]).
Proof.
  induction 1 as [|x l Hx Hl IH]; intros Ha; simpl.
  - constructor; [intros [] | constructor].
  - constructor.
    + rewrite in_app_iff. simpl. intros [H | [H | []]]; [tauto |].
      apply Ha. now left.
    + apply IH. intros H. apply Ha. now right.
Qed.

Lemma add_new_cases tags tok :
  (In tok tags /\ add_new tags tok = tags) \/
  (~ In tok tags /\ add_new tags tok = tags ++ [tok]).
Proof.
  unfold add_new. destruct (Py.mem tok tags) eqn:E.
  - left. split; [now apply mem_In | reflexivity].
  - right. split; [now apply mem_not_In | reflexivity].
Qed.

Lemma fold_add_new_In l acc x :
  In x (fold_left add_new l acc) <-> In x acc \/ In x l.
Proof.
  revert acc. induction l as [|a l IH]; intros acc; simpl.
  - tauto.
  - rewrite IH. destruct (add_new_cases acc a) as [[Hin ->] | [Hout ->]].
    + split; [tauto |]. intros [H | [<- | H]]; auto.
    + rewrite in_app_iff. simpl. tauto.
Qed.

Lemma fold_add_new_NoDup l acc : NoDup acc -> NoDup (fold_left add_new l acc).
Proof.
  revert acc. induction l as [|a l IH]; intros acc Hacc; simpl; [assumption |].
  apply IH. destruct (add_new_cases acc a) as [[Hin ->] | [Hout ->]].
  - assumption.
  - now apply NoDup_snoc.
Qed.

(** The loop only appends: what it adds are the tokens not yet present,
    at most one for each token looked at. *)
Lemma fold_add_new_extends l acc :
  exists rest,
    fold_left add_new l acc = acc ++ rest /\
    (length rest <= length l)%nat /\
    forall t, In t rest <-> In t l /\ ~ In t acc.
Proof.
  revert acc. induction l as [|a l IH]; intros acc; simpl.
  - exists []. rewrite app_nil_r. split; [reflexivity |].
    split; [simpl; lia |]. intros t. simpl. tauto.
  - destruct (add_new_cases acc a) as [[Hin ->] | [Hout ->]].
    + destruct (IH acc) as (rest & E & Hlen & Hin').
      exists rest. split; [assumption |]. split; [lia |].
      intros t. rewrite Hin'. split; [tauto |].
      intros [[<- | H] Hn]; tauto.
    + destruct (IH (acc ++ [a])) as (rest & E & Hlen & Hin').
      exists (a :: rest). rewrite E, <- app_assoc. simpl.
      split; [reflexivity |]. split; [lia |].
      intros t. rewrite Hin', in_app_iff. simpl. split.
      * intros [<- | H]; tauto.
      * intros [[<- | H] Hn]; [now left |].
        destruct (list_eq_dec Z.eq_dec a t) as [<- | Hne]; [now left | right].
        tauto.
Qed.

Lemma dict_fromkeys_app a b :
  dict_fromkeys (a ++ b) = fold_left add_new b (dict_fromkeys a).
Proof. unfold dict_fromkeys. apply fold_left_app. Qed.

Lemma dict_fromkeys_In l x : In x (dict_fromkeys l) <-> In x l.
Proof. unfold dict_fromkeys. rewrite fold_add_new_In. simpl. tauto. Qed.

Lemma dict_fromkeys_NoDup l : NoDup (dict_fromkeys l).
Proof. apply fold_add_new_NoDup. constructor. Qed.

(** Removing the duplicates after the loop is removing them from the
    hashtags followed by the tokens looked at. *)
Lemma dict_fromkeys_fold toks hs :
  dict_fromkeys (fold_left add_new toks hs) = dict_fromkeys (hs ++ toks).
Proof.
  revert hs. induction toks as [|t ts IH]; intros hs; simpl.
  - now rewrite app_nil_r.
  - rewrite IH. destruct (add_new_cases hs t) as [[Hin ->] | [Hout ->]].
    + rewrite !dict_fromkeys_app. simpl.
      destruct (add_new_cases (dict_fromkeys hs) t) as [[_ ->] | [Hn _]].
      * reflexivity.
      * exfalso. apply Hn. now apply dict_fromkeys_In.
    + now rewrite <- app_assoc.
Qed.

Lemma first_index_app_in x l m :
  In x l -> first_index x (l ++ m) = first_index x l.
Proof.
  induction l as [|y l IH]; simpl; [tauto |].
  intros H. destruct (Py.eqb x y) eqn:E; [reflexivity |].
  f_equal. apply IH. destruct H as [<- | H]; [| assumption].
  now rewrite eqb_refl in E.
Qed.

Lemma first_index_lt x l : In x l -> (first_index x l < length l)%nat.
Proof.
  induction l as [|y l IH]; simpl; [tauto |].
  intros H. destruct (Py.eqb x y) eqn:E; [lia |].
  destruct H as [<- | H]; [now rewrite eqb_refl in E |].
  specialize (IH H). lia.
Qed.

Lemma first_index_app_notin x l :
  ~ In x l -> first_index x (l ++ [x]) = length l.
Proof.
  induction l as [|y l IH]; simpl; intros H.
  - now rewrite eqb_refl.
  - destruct (Py.eqb x y) eqn:E.
    + apply eqb_eq in E. exfalso. apply H. left. congruence.
    + f_equal. apply IH. tauto.
Qed.

(** The keys of the dict come in the order of their first occurrences. *)
Lemma dict_fromkeys_order l i j x y :
  nth_error (dict_fromkeys l) i = Some x ->
  nth_error (dict_fromkeys l) j = Some y ->
  (i < j)%nat ->
  (first_index x l < first_index y l)%nat.
Proof.
  revert i j x y. induction l as [|z l IH] using rev_ind; intros i j x y Hi Hj Hij.
  - destruct i; discriminate Hi.
  - rewrite dict_fromkeys_app in Hi, Hj. simpl in Hi, Hj.
    assert (Hx_in : forall k w, nth_error (dict_fromkeys l) k = Some w -> In w l)
      by (intros k w H; apply dict_fromkeys_In; eapply nth_error_In; eassumption).
    destruct (add_new_cases (dict_fromkeys l) z) as [[Hin E] | [Hout E]];
      rewrite E in Hi, Hj.
    + rewrite !first_index_app_in by eauto. eauto.
    + assert (Hz : ~ In z l) by (now rewrite <- dict_fromkeys_In).
      assert (Hjlen : (j < length (dict_fromkeys l ++ [z]))%nat)
        by (apply nth_error_Some; congruence).
      rewrite length_app in Hjlen. simpl in Hjlen.
      assert (Hix : nth_error (dict_fromkeys l) i = Some x)
        by (rewrite nth_error_app1 in Hi by lia; assumption).
      destruct (Nat.lt_ge_cases j (length (dict_fromkeys l))) as [Hlt | Hge].
      * rewrite nth_error_app1 in Hj by assumption.
        rewrite !first_index_app_in by eauto. eauto.
      * rewrite nth_error_app2 in Hj by assumption.
        replace (j - length (dict_fromkeys l))%nat with O in Hj by lia.
        simpl in Hj. injection Hj as <-.
        rewrite first_index_app_in by eauto.
        rewrite first_index_app_notin by assumption.
        apply first_index_lt. eauto.
Qed.

End TagFacts.

(** ** The two scans of the tags *)

Module ScanFacts.

Import PyFacts.

Lemma app_same_length {A} (a a' x x' : list A) :
  a ++ x = a' ++ x' -> length a = length a' -> a = a' /\ x = x'.
Proof.
  revert a'. induction a as [|c a IH]; intros [|c' a'] E L;
    try discriminate L.
  - now split.
  - cbn [app] in E. injection E as -> E. injection L as L.
    destruct (IH a' E L) as [-> ->]. now split.
Qed.

Lemma take_while_split f s :
  s = Py.take_while f s ++ skipn (length (Py.take_while f s)) s.
Proof.
  induction s as [|c s IH]; cbn [Py.take_while]; [reflexivity |].
  destruct (f c); cbn [length skipn app]; [now f_equal | reflexivity].
Qed.

Lemma take_while_longest f t b :
  Forall (fun c => f c = true) t ->
  (length t <= length (Py.take_while f (t ++ b)))%nat.
Proof.
  induction 1 as [|c t Hc Ht IH]; cbn [app Py.take_while length]; [lia |].
  rewrite Hc. cbn [length]. lia.
Qed.

Lemma take_while_exact f t b :
  Forall (fun c => f c = true) t ->
  match b with [] => True | c :: _ => f c = false end ->
  Py.take_while f (t ++ b) = t.
Proof.
  intros Ht Hb. induction Ht as [|c t Hc Ht IH]; cbn [app Py.take_while].
  - destruct b as [|c b]; [reflexivity |]. cbn [Py.take_while]. now rewrite Hb.
  - rewrite Hc. now f_equal.
Qed.

Section Scans.

Variable unicode_alnum : Z -> bool.
Variable unicode_lower : Z -> Py.str.

Lemma is_word_iff c :
  is_word unicode_alnum c = true <-> word_char unicode_alnum c.
Proof.
  unfold is_word, isalnum, word_char, ascii_upper, ascii_lower, ascii_digit.
  destruct (Z.ltb_spec c 128) as [Hlt | Hge].
  - rewrite !orb_true_iff, !in_range_iff, Z.eqb_eq. lia.
  - rewrite orb_true_iff, Z.eqb_eq. split; [intros [H | H] | intros H].
    + right. right. right. right. now split.
    + lia.
    + left. destruct H as [H | [H | [H | [H | [_ H]]]]]; try lia. exact H.
Qed.

Lemma is_letter_iff c : is_letter c = true <-> letter_char c.
Proof.
  unfold is_letter, letter_char, ascii_upper, ascii_lower.
  rewrite orb_true_iff, !in_range_iff. lia.
Qed.

Lemma letter_word c : letter_char c -> word_char unicode_alnum c.
Proof. unfold letter_char, word_char. lia. Qed.

Lemma Forall_is_word w :
  Forall (fun c => is_word unicode_alnum c = true) w
  <-> Forall (word_char unicode_alnum) w.
Proof.
  rewrite !Forall_forall. split; intros H c Hc; apply is_word_iff; auto.
Qed.

Lemma Forall_is_letter t :
  Forall (fun c => is_letter c = true) t <-> Forall letter_char t.
Proof.
  rewrite !Forall_forall. split; intros H c Hc; apply is_letter_iff; auto.
Qed.

(** *** Lower case *)

Lemma lower_lowered s : lowered unicode_lower s (lower unicode_lower s).
Proof.
  unfold lower. induction s as [|c s IH]; cbn [flat_map]; [constructor |].
  unfold lower_char at 1. destruct (Z.ltb_spec c 128) as [Hlt | Hge].
  - unfold ascii_upper. destruct (Py.in_range 65 90 c) eqn:E; cbn [app].
    + apply in_range_iff in E. now constructor.
    + apply in_range_false in E. constructor; [assumption | lia | assumption].
  - now constructor.
Qed.

Lemma lowered_unique s t :
  lowered unicode_lower s t -> forall t', lowered unicode_lower s t' -> t = t'.
Proof.
  induction 1 as [| c s t Hc Hs IH | c s t Hc Hn Hs IH | c s t Hc Hs IH];
    intros t' H'; inversion H'; subst; try lia; try reflexivity;
    f_equal; now apply IH.
Qed.

(** *** Hashtags *)

Lemma findall_hashtags_skip w b :
  findall_hashtags unicode_alnum (length w) (w ++ b)
  = findall_hashtags unicode_alnum O b.
Proof.
  induction w as [|c w IH]; cbn [length app]; [reflexivity |].
  cbn [findall_hashtags]. exact IH.
Qed.

Lemma hashtag_matches_cons c s l :
  (forall w b, c :: s = ord "#" :: w ++ b ->
               ~ hashtag_group unicode_alnum w) ->
  hashtag_matches unicode_alnum s l ->
  hashtag_matches unicode_alnum (c :: s) l.
Proof.
  intros Hno H.
  inversion H as [s0 Hnone | a w b l0 Hw Hfirst Hlong Hrest]; subst.
  - apply hm_none. intros [|c' a] w b E.
    + now apply (Hno w b).
    + cbn [app] in E. injection E as <- E. now apply (Hnone a w b).
  - apply (hm_next unicode_alnum (c :: a) w b l0); try assumption.
    intros [|c' a'] w' b' E Hw'.
    + exfalso. now apply (Hno w' b').
    + cbn [app] in E. injection E as <- E. cbn [length].
      apply le_n_S. now apply (Hfirst a' w' b').
Qed.

Lemma findall_hashtags_matches_le n s :
  (length s <= n)%nat ->
  hashtag_matches unicode_alnum s (findall_hashtags unicode_alnum O s).
Proof.
  revert s. induction n as [|n IH]; intros [|c s] Hn;
    try (cbn [length] in Hn; lia).
  - apply hm_none. intros [|? ?] w b E; discriminate E.
  - apply hm_none. intros [|? ?] w b E; discriminate E.
  - cbn [length] in Hn. cbn [findall_hashtags].
    assert (Hplain : (forall w b, c :: s = ord "#" :: w ++ b ->
                                  ~ hashtag_group unicode_alnum w) ->
              hashtag_matches unicode_alnum (c :: s)
                (findall_hashtags unicode_alnum O s)).
    { intros Hno. apply hashtag_matches_cons; [assumption |]. apply IH. lia. }
    destruct (Z.eqb_spec c (ord "#")) as [-> | Hc].
    + pose proof (take_while_split (is_word unicode_alnum) s) as Es.
      pose proof (take_while_Forall (is_word unicode_alnum) s) as Hrun.
      destruct (Py.take_while (is_word unicode_alnum) s) as [|d run] eqn:Erun.
      * apply Hplain. intros w b E [Hne Hw]. injection E as E.
        destruct w as [|d w]; [now apply Hne |].
        inversion Hw as [|? ? Hd _]; subst. apply is_word_iff in Hd.
        cbn [app Py.take_while] in Erun. rewrite Hd in Erun. discriminate Erun.
      * set (b := skipn (length (d :: run)) s) in *.
        rewrite Es at 2. rewrite findall_hashtags_skip.
        rewrite Es at 1.
        apply (hm_next unicode_alnum [] (d :: run) b).
        -- split; [discriminate | now apply Forall_is_word].
        -- intros; cbn [length]; lia.
        -- intros w' b' E [_ Hw']. apply Forall_is_word in Hw'.
           pose proof (take_while_longest (is_word unicode_alnum) w' b' Hw')
             as L.
           rewrite <- E, <- Es, Erun in L. exact L.
        -- apply IH. rewrite Es in Hn. rewrite length_app in Hn.
           cbn [length] in *. lia.
    + apply Hplain. intros w b E _. injection E as E _. contradiction.
Qed.

Lemma findall_hashtags_matches s :
  hashtag_matches unicode_alnum s (findall_hashtags unicode_alnum O s).
Proof. now apply (findall_hashtags_matches_le (length s)). Qed.

Lemma hashtag_matches_unique s l1 :
  hashtag_matches unicode_alnum s l1 ->
  forall l2, hashtag_matches unicode_alnum s l2 -> l1 = l2.
Proof.
  induction 1 as [s Hnone | a w b l Hw Hfirst Hlong Hrest IH]; intros l2 H2.
  - inversion H2 as [| a w b l Hw Hfirst Hlong Hrest E]; [reflexivity |].
    subst. exfalso. now apply (Hnone a w b).
  - remember (a ++ ord "#" :: w ++ b) as s eqn:Es.
    destruct H2 as [s Hnone | a2 w2 b2 l2 Hw2 Hfirst2 Hlong2 Hrest2].
    + exfalso. now apply (Hnone a w b).
    + assert (La : length a = length a2).
      { apply Nat.le_antisymm.
        - now apply (Hfirst a2 w2 b2).
        - now apply (Hfirst2 a w b). }
      destruct (app_same_length _ _ _ _ Es (eq_sym La)) as [-> E].
      injection E as E.
      assert (Lw : length w = length w2).
      { apply Nat.le_antisymm.
        - now apply (Hlong2 w b).
        - now apply (Hlong w2 b2). }
      destruct (app_same_length _ _ _ _ E (eq_sym Lw)) as [-> ->].
      f_equal. now apply IH.
Qed.

(** *** Tokens *)

Lemma word_before_nil : ~ word_before unicode_alnum [].
Proof. intros (a & c & E & _). destruct a; discriminate E. Qed.

Lemma word_before_snoc a c :
  word_before unicode_alnum (a ++ [c]) <-> word_char unicode_alnum c.
Proof.
  split.
  - intros (a' & c' & E & H). apply app_inj_tail in E. now destruct E as [_ ->].
  - intros H. now exists a, c.
Qed.

Lemma word_after_nil : ~ word_after unicode_alnum [].
Proof. intros (c & b & E & _). discriminate E. Qed.

Lemma word_after_cons c b :
  word_after unicode_alnum (c :: b) <-> word_char unicode_alnum c.
Proof.
  split.
  - intros (c' & b' & E & H). now injection E as -> _.
  - intros H. now exists c, b.
Qed.

Lemma word_follows_iff b :
  word_follows unicode_alnum b = true <-> word_after unicode_alnum b.
Proof.
  destruct b as [|c b]; cbn [word_follows].
  - split; [discriminate | intros H; now apply word_after_nil in H].
  - now rewrite word_after_cons, is_word_iff.
Qed.

Lemma word_before_letters a t :
  t <> [] -> Forall letter_char t -> word_before unicode_alnum (a ++ t).
Proof.
  intros Hne Ht. destruct (exists_last Hne) as (t' & z & ->).
  rewrite app_assoc. apply word_before_snoc, letter_word.
  rewrite Forall_forall in Ht. apply Ht, in_app_iff. right. now left.
Qed.

Lemma findall_tokens_skip run p b :
  Forall (fun c => is_word unicode_alnum c = true) run ->
  findall_tokens unicode_alnum p (length run) (run ++ b)
  = findall_tokens unicode_alnum (match run with [] => p | _ => true end) O b.
Proof.
  intros Hrun. revert p.
  induction Hrun as [|c r Hc Hr IH]; intros p; [reflexivity |].
  cbn [length app]. cbn [findall_tokens]. rewrite IH, Hc. now destruct r.
Qed.

(** A match at the head of [t ++ b] is what the scan looks for there. *)
Lemma token_at_head before prevw t b :
  (prevw = true <-> word_before unicode_alnum before) ->
  token_at unicode_alnum before t b ->
  prevw = false /\ Py.take_while is_letter (t ++ b) = t /\
  (5 <= length t)%nat /\ word_follows unicode_alnum b = false.
Proof.
  intros Hp (Hlen & Ht & Hb1 & Hb2).
  assert (Hne : t <> [])
    by (destruct t; [cbn [length] in Hlen; lia | discriminate]).
  assert (Hafter : word_after unicode_alnum (t ++ b)).
  { destruct t as [|c t]; [now destruct Hne |]. cbn [app].
    apply word_after_cons, letter_word. now inversion Ht. }
  assert (Hbefore : word_before unicode_alnum (before ++ t))
    by now apply word_before_letters.
  destruct Hb1 as [[_ H] | [Hb1 _]]; [contradiction |].
  destruct Hb2 as [[_ Hb2] | [H _]]; [| contradiction].
  assert (Hf : word_follows unicode_alnum b = false).
  { destruct (word_follows unicode_alnum b) eqn:E; [| reflexivity].
    apply word_follows_iff in E. contradiction. }
  split; [destruct prevw; [exfalso; now apply Hb1, Hp | reflexivity] |].
  split; [| now split].
  apply take_while_exact; [now apply Forall_is_letter |].
  destruct b as [|c b]; [exact I |].
  destruct (is_letter c) eqn:E; [| reflexivity].
  apply is_letter_iff, letter_word, is_word_iff in E.
  cbn [word_follows] in Hf. congruence.
Qed.

Lemma token_matches_cons before c s l :
  (forall t b, c :: s = t ++ b -> ~ token_at unicode_alnum before t b) ->
  token_matches unicode_alnum (before ++ [c]) s l ->
  token_matches unicode_alnum before (c :: s) l.
Proof.
  intros Hno H.
  inversion H as [? s0 Hnone | ? a t b l0 Hat Hfirst Hlong Hrest]; subst.
  - apply tm_none. intros [|c' a] t b E.
    + rewrite app_nil_r. now apply (Hno t b).
    + cbn [app] in E. injection E as <- E.
      specialize (Hnone a t b E). now rewrite <- app_assoc in Hnone.
  - rewrite <- !app_assoc in *. cbn [app] in *.
    apply (tm_next unicode_alnum before (c :: a) t b l0); try assumption.
    intros [|c' a'] t' b' E Hat'.
    + exfalso. rewrite app_nil_r in Hat'. now apply (Hno t' b').
    + cbn [app] in E. injection E as <- E. cbn [length].
      apply le_n_S. apply (Hfirst a' t' b' E).
      now rewrite <- app_assoc.
Qed.

Lemma findall_tokens_matches_le n before prevw s :
  (length s <= n)%nat ->
  (prevw = true <-> word_before unicode_alnum before) ->
  token_matches unicode_alnum before s
    (findall_tokens unicode_alnum prevw O s).
Proof.
  revert before prevw s.
  induction n as [|n IH]; intros before prevw [|c s] Hn Hp;
    try (cbn [length] in Hn; lia).
  - apply tm_none. intros a t b E (Hlen & _).
    destruct a, t; try discriminate E. cbn [length] in Hlen. lia.
  - apply tm_none. intros a t b E (Hlen & _).
    destruct a, t; try discriminate E. cbn [length] in Hlen. lia.
  - cbn [length] in Hn. cbn [findall_tokens].
    pose proof (take_while_split is_letter (c :: s)) as Es.
    pose proof (take_while_Forall is_letter (c :: s)) as Hrun.
    remember (Py.take_while is_letter (c :: s)) as run eqn:Erun.
    remember (skipn (length run) (c :: s)) as b eqn:Eb.
    destruct (negb prevw && (5 <=? length run)%nat
              && negb (word_follows unicode_alnum b)) eqn:Econd.
    + apply andb_true_iff in Econd. destruct Econd as [Econd Hfol].
      apply andb_true_iff in Econd. destruct Econd as [Hprev Hlen].
      apply negb_true_iff in Hprev, Hfol. apply Nat.leb_le in Hlen.
      assert (Hne : run <> [])
        by (destruct run; [cbn [length] in Hlen; lia | discriminate]).
      assert (Etail : findall_tokens unicode_alnum (is_word unicode_alnum c)
                        (Nat.pred (length run)) s
                      = findall_tokens unicode_alnum true O b).
      { clear Erun Eb. destruct run as [|d run']; [now destruct Hne |].
        cbn [app] in Es. injection Es as Ec Es.
        cbn [length Nat.pred]. rewrite Es, Ec.
        pose proof (Forall_inv Hrun) as Hd. cbn beta in Hd.
        pose proof (Forall_inv_tail Hrun) as Hrun'.
        assert (Hw : Forall (fun x => is_word unicode_alnum x = true) run').
        { rewrite Forall_forall in *. intros x Hx.
          now apply is_word_iff, letter_word, is_letter_iff, Hrun'. }
        rewrite (findall_tokens_skip run' _ b Hw).
        apply is_letter_iff, letter_word, is_word_iff in Hd. rewrite Hd.
        now destruct run'. }
      rewrite Etail, Es.
      assert (Hl : Forall letter_char run) by now apply Forall_is_letter.
      rewrite <- (app_nil_r before) in Hp.
      apply (tm_next unicode_alnum before [] run b).
      * rewrite app_nil_r in *. split; [assumption |]. split; [assumption |].
        split.
        -- right. split; [intros H; apply Hp in H; congruence |].
           destruct run as [|d run']; [now destruct Hne |]. cbn [app].
           apply word_after_cons, letter_word. now inversion Hl.
        -- left. split; [now apply word_before_letters |].
           intros H. apply word_follows_iff in H. congruence.
      * intros; cbn [length]; lia.
      * intros t' b' E (_ & Ht' & _). apply Forall_is_letter in Ht'.
        pose proof (take_while_longest is_letter t' b' Ht') as L.
        cbn [app] in E. rewrite <- E, <- Es, <- Erun in L. exact L.
      * cbn [app]. apply IH.
        -- assert (L := f_equal (@length Z) Es).
           rewrite length_app in L. cbn [length] in L. lia.
        -- split; [intros _; now apply word_before_letters | reflexivity].
    + apply token_matches_cons.
      * intros t b' E Hat.
        destruct (token_at_head before prevw t b' Hp Hat)
          as (Hprev & Htake & Hlen & Hfol).
        rewrite <- E, <- Erun in Htake.
        assert (Eb' : b' = b).
        { rewrite Eb, Htake, E, skipn_app, Nat.sub_diag.
          rewrite skipn_all. reflexivity. }
        rewrite Eb' in Hfol. rewrite Hprev, Htake, Hfol in Econd.
        apply Nat.leb_le in Hlen. rewrite Hlen in Econd. discriminate Econd.
      * apply IH; [lia |]. rewrite word_before_snoc. apply is_word_iff.
Qed.

Lemma findall_tokens_matches s :
  token_matches unicode_alnum [] s (findall_tokens unicode_alnum false O s).
Proof.
  apply (findall_tokens_matches_le (length s)); [lia |].
  split; [discriminate | intros H; now apply word_before_nil in H].
Qed.

Lemma token_matches_unique before s l1 :
  token_matches unicode_alnum before s l1 ->
  forall l2, token_matches unicode_alnum before s l2 -> l1 = l2.
Proof.
  induction 1 as [before s Hnone | before a t b l Hat Hfirst Hlong Hrest IH];
    intros l2 H2.
  - inversion H2 as [| ? a t b l Hat Hfirst Hlong Hrest]; [reflexivity |].
    subst. exfalso. now apply (Hnone a t b).
  - remember (a ++ t ++ b) as s eqn:Es.
    destruct H2
      as [before s Hnone | before a2 t2 b2 l2 Hat2 Hfirst2 Hlong2 Hrest2].
    + exfalso. now apply (Hnone a t b).
    + assert (La : length a = length a2).
      { apply Nat.le_antisymm.
        - now apply (Hfirst a2 t2 b2).
        - now apply (Hfirst2 a t b). }
      destruct (app_same_length _ _ _ _ Es (eq_sym La)) as [-> E].
      assert (Lt : length t = length t2).
      { apply Nat.le_antisymm.
        - now apply (Hlong2 t b).
        - now apply (Hlong t2 b2). }
      destruct (app_same_length _ _ _ _ E (eq_sym Lt)) as [-> ->].
      f_equal. now apply IH.
Qed.

End Scans.

End ScanFacts.

(** ** The enricher *)

Section TextFacts.

Import PyFacts TagFacts ScanFacts.

Variable unicode_alnum : Z -> bool.
Variable unicode_lower : Z -> Py.str.

(** Every match of [\b[a-zA-Z]{5,}\b] has five letters or more and nothing
    but letters. *)
Lemma findall_tokens_letters prevw skip s :
  Forall (fun t => (5 <= length t)%nat /\ Forall (fun c => is_letter c = true) t)
         (findall_tokens unicode_alnum prevw skip s).
Proof.
  revert prevw skip. induction s as [|c s IH]; intros prevw skip;
    cbn [findall_tokens]; [constructor |].
  destruct skip as [|k]; [| apply IH].
  set (run := Py.take_while is_letter (c :: s)).
  destruct (negb prevw && (5 <=? length run)%nat
            && negb (word_follows unicode_alnum (skipn (length run) (c :: s))))
    eqn:E; [| apply IH].
  constructor; [| apply IH].
  apply andb_true_iff in E. destruct E as [E _].
  apply andb_true_iff in E. destruct E as [_ E]. apply Nat.leb_le in E.
  split; [assumption | apply take_while_Forall].
Qed.

(** The matches are made of characters of the text. *)
Lemma findall_tokens_keeps (P : Z -> Prop) prevw skip s :
  Forall P s -> Forall (Forall P) (findall_tokens unicode_alnum prevw skip s).
Proof.
  intros Hs. revert prevw skip. induction Hs as [|c s Hc Hs IH];
    intros prevw skip; cbn [findall_tokens]; [constructor |].
  destruct skip as [|k]; [| apply IH].
  set (run := Py.take_while is_letter (c :: s)).
  destruct (negb prevw && (5 <=? length run)%nat
            && negb (word_follows unicode_alnum (skipn (length run) (c :: s))));
    [| apply IH].
  constructor; [| apply IH].
  apply take_while_keeps. now constructor.
Qed.

(** [str.lower()] leaves no capital letter of ASCII, when the lowering of
    the characters beyond ASCII yields none. *)
Lemma lower_no_upper text :
  (forall c d, 128 <= c -> In d (unicode_lower c) -> ascii_upper d = false) ->
  Forall (fun c => ascii_upper c = false) (lower unicode_lower text).
Proof.
  intros Hlower. unfold lower. induction text as [|c text IH]; simpl;
    [constructor |].
  apply Forall_app. split; [| assumption].
  unfold lower_char. destruct (Z.ltb_spec c 128) as [Hlt | Hge].
  - constructor; [| constructor].
    unfold ascii_upper. destruct (Py.in_range 65 90 c) eqn:E.
    + apply in_range_iff in E. apply in_range_false. lia.
    + assumption.
  - apply Forall_forall. intros d Hd. now apply (Hlower c).
Qed.

(** C4.  The tags come from the matches of [#(\w+)] in the text, in the
    order of the text, followed by the first five matches of
    [\b[a-zA-Z]{5,}\b] in the text in lower case: they are the first ten of
    these, each kept once at the place where it comes first.  So they are
    ten at most, without duplicates, in first-seen order, and one of these
    is left out only when ten come before it.  The loop appends to the
    hashtag matches, in order, those of the first five tokens that are not
    present yet, so five at most; the tokens are runs of five or more small
    letters. *)
Theorem extract_tags_spec (text : Py.str)
  (Hlower : forall c d, 128 <= c -> In d (unicode_lower c) ->
                        ~ 65 <= d <= 90) :
  exists lowered_text hashtags tokens,
    (lowered unicode_lower text lowered_text /\
     forall x, lowered unicode_lower text x -> x = lowered_text) /\
    (hashtag_matches unicode_alnum text hashtags /\
     forall x, hashtag_matches unicode_alnum text x -> x = hashtags) /\
    (token_matches unicode_alnum [] lowered_text tokens /\
     forall x, token_matches unicode_alnum [] lowered_text x -> x = tokens) /\
    let seen := hashtags ++ firstn 5 tokens in
    let tags := extract_tags unicode_alnum unicode_lower text in
    (length tags <= 10)%nat /\
    NoDup tags /\
    tags = firstn 10 (dict_fromkeys seen) /\
    (forall x, In x tags -> In x seen) /\
    (forall x, In x seen ->
       In x tags \/
       (length tags = 10%nat /\
        forall y, In y tags ->
                  (first_index y seen < first_index x seen)%nat)) /\
    (forall i j x y,
        nth_error tags i = Some x -> nth_error tags j = Some y ->
        (i < j)%nat ->
        (first_index x seen < first_index y seen)%nat) /\
    (exists appended,
        fold_left add_new (firstn 5 tokens) hashtags = hashtags ++ appended /\
        (length appended <= 5)%nat /\
        forall t, In t appended <-> In t (firstn 5 tokens) /\ ~ In t hashtags) /\
    Forall (fun t => (5 <= length t)%nat /\
                     Forall (fun c => 97 <= c <= 122) t) tokens.
Proof.
  set (hashtags := findall_hashtags unicode_alnum O text).
  set (tokens :=
         findall_tokens unicode_alnum false O (lower unicode_lower text)).
  exists (lower unicode_lower text), hashtags, tokens.
  split.
  { split; [apply lower_lowered |]. intros x Hx. symmetry.
    apply (lowered_unique unicode_lower text _ (lower_lowered _ text) x Hx). }
  split.
  { split; [apply findall_hashtags_matches |]. intros x Hx. symmetry.
    apply (hashtag_matches_unique unicode_alnum text _
             (findall_hashtags_matches _ text) x Hx). }
  split.
  { split; [apply findall_tokens_matches |]. intros x Hx. symmetry.
    apply (token_matches_unique unicode_alnum [] _ _
             (findall_tokens_matches _ _) x Hx). }
  intros seen tags.
  assert (Etags : tags = firstn 10 (dict_fromkeys seen)).
  { unfold tags, extract_tags. fold hashtags. fold tokens.
    now rewrite dict_fromkeys_fold. }
  assert (Hnth : forall i x, nth_error tags i = Some x ->
                             nth_error (dict_fromkeys seen) i = Some x).
  { intros i x H. rewrite Etags in H.
    rewrite <- (firstn_skipn 10 (dict_fromkeys seen)).
    rewrite nth_error_app1; [assumption |].
    apply nth_error_Some. congruence. }
  assert (Hlen : length tags = Nat.min 10 (length (dict_fromkeys seen)))
    by (rewrite Etags; apply length_firstn).
  split; [lia |].
  split.
  { rewrite Etags. rewrite <- (firstn_skipn 10 (dict_fromkeys seen)) at 1.
    pose proof (dict_fromkeys_NoDup seen) as H.
    rewrite <- (firstn_skipn 10 (dict_fromkeys seen)) in H.
    rewrite firstn_skipn. now apply NoDup_app_remove_r in H. }
  split; [assumption |].
  split.
  { intros x Hx. apply dict_fromkeys_In. apply In_nth_error in Hx.
    destruct Hx as [i Hi]. eapply nth_error_In, Hnth, Hi. }
  split.
  { intros x Hx. apply dict_fromkeys_In, In_nth_error in Hx.
    destruct Hx as [i Hi].
    assert (Hi' : (i < length (dict_fromkeys seen))%nat)
      by (apply nth_error_Some; congruence).
    destruct (Nat.lt_ge_cases i 10) as [Hlt | Hge].
    - left. apply (nth_error_In _ i). rewrite Etags.
      rewrite <- (firstn_skipn 10 (dict_fromkeys seen)) in Hi.
      rewrite nth_error_app1 in Hi; [assumption |].
      rewrite length_firstn. lia.
    - right. split; [lia |]. intros y Hy. apply In_nth_error in Hy.
      destruct Hy as [j Hj].
      assert (Hj' : (j < length tags)%nat)
        by (apply nth_error_Some; congruence).
      apply (dict_fromkeys_order seen j i y x); [now apply Hnth | assumption |].
      lia. }
  split.
  { intros i j x y Hi Hj Hij.
    eapply dict_fromkeys_order; eauto. }
  split.
  { destruct (fold_add_new_extends (firstn 5 tokens) hashtags)
      as (appended & E & Hlen' & Hin).
    exists appended. split; [assumption |]. split; [| assumption].
    pose proof (firstn_le_length 5 tokens). lia. }
  assert (Hup : forall c d, 128 <= c -> In d (unicode_lower c) ->
                            ascii_upper d = false).
  { intros c d Hc Hd. apply in_range_false.
    specialize (Hlower c d Hc Hd). change (ord "A") with 65.
    change (ord "Z") with 90. lia. }
  pose proof (findall_tokens_letters false O (lower unicode_lower text)) as Hl.
  pose proof (findall_tokens_keeps _ false O _ (lower_no_upper text Hup)) as Hu.
  fold tokens in Hl, Hu. rewrite Forall_forall in *.
  intros t Ht. destruct (Hl t Ht) as [Hlen' Hlet]. split; [assumption |].
  specialize (Hu t Ht). rewrite Forall_forall in *.
  intros c Hc. specialize (Hlet c Hc). specialize (Hu c Hc).
  apply is_letter_iff in Hlet. apply in_range_false in Hu.
  unfold letter_char in Hlet. change (ord "A") with 65 in Hu.
  change (ord "Z") with 90 in Hu. lia.
Qed.

(** C8 as the code has it.  The reading time is [word_count / 200] rounded
    to the nearest integer (a tie to the even one), and 1 when that is
    less; so it is 1 at least, for the empty text too. *)
Theorem reading_time_minutes_spec (now text : Py.str) :
  let meta := snd (tps_ai_clean unicode_alnum unicode_lower now text) in
  let k := round_div (word_count meta) 200 in
  reading_time_minutes meta = Z.max 1 k /\
  1 <= reading_time_minutes meta /\
  Z.abs (200 * k - word_count meta) <= 100 /\
  (Z.abs (200 * k - word_count meta) < 100 \/ Z.even k = true) /\
  reading_time_minutes
    (snd (tps_ai_clean unicode_alnum unicode_lower now [])) = 1.
Proof.
  intros meta k.
  assert (E : reading_time_minutes meta = Z.max 1 k).
  { unfold k, meta, tps_ai_clean.
    cbn [snd reading_time_minutes word_count]. reflexivity. }
  split; [exact E |]. split; [rewrite E; lia |].
  pose proof (round_div_nearest (word_count meta)) as [H1 H2].
  split; [exact H1 |]. split; [exact H2 |]. vm_compute. reflexivity.
Qed.

(** C5 as the code has it.  On the example input the two five-letter words
    before the hashtags are tokens as well, so four tags come out. *)
Theorem example_clean (now : Py.str) :
  tps_ai_clean unicode_alnum unicode_lower now example_input =
  (lit "Hello world #fun #fun testingword",
   {| source := lit "tps_ai_processor";
      word_count := 5;
      char_count := 33;
      language_guess := lit "English";
      tags := [lit "fun"; lit "hello"; lit "world"; lit "testingword"];
      reading_time_minutes := 1;
      processed_at := now |}).
Proof. vm_compute. reflexivity. Qed.

End TextFacts.

Lemma extract_tags_spec_witness :
  exists hashtags tokens,
    hashtag_matches ascii_only_alnum example_input hashtags /\
    hashtags = [lit "fun"; lit "fun"] /\
    token_matches ascii_only_alnum []
      (lit "hello   world" ++ [9] ++ lit "#fun #fun testingword") tokens /\
    tokens = [lit "hello"; lit "world"; lit "testingword"] /\
    extract_tags ascii_only_alnum unchanged_lower example_input
    = firstn 10 (dict_fromkeys (hashtags ++ firstn 5 tokens)) /\
    (length (extract_tags ascii_only_alnum unchanged_lower example_input)
     <= 10)%nat /\
    NoDup (extract_tags ascii_only_alnum unchanged_lower example_input).
Proof.
  destruct (extract_tags_spec ascii_only_alnum unchanged_lower example_input)
    as (lo & hs & ts & [Hlo Ulo] & [Hh Uh] & [Ht Ut] & Hlen & Hnd & E & _).
  { intros c d Hc [<- | []]. lia. }
  assert (Elo : lit "hello   world" ++ [9] ++ lit "#fun #fun testingword"
                = lo).
  { apply Ulo.
    apply (ScanFacts.lower_lowered unchanged_lower example_input). }
  exists hs, ts. rewrite Elo.
  split; [exact Hh |].
  split; [symmetry; apply Uh;
          apply (ScanFacts.findall_hashtags_matches ascii_only_alnum
                   example_input) |].
  split; [exact Ht |].
  split; [symmetry; apply Ut; rewrite <- Elo;
          apply (ScanFacts.findall_tokens_matches ascii_only_alnum) |].
  split; [exact E |]. split; [exact Hlen | exact Hnd].
Defined.

(** C5 as stated fails: the tags of the example are not the two the claim
    gives. *)
Lemma example_tags_not_two :
  tags (snd (tps_ai_clean ascii_only_alnum unchanged_lower [] example_input))
  <> [lit "fun"; lit "testingword"].
Proof. vm_compute. intros H. discriminate H. Qed.

(** C8 as stated fails: with 201 words the reading time is 1, and the
    ceiling of 201 / 200 is 2. *)
Lemma reading_time_not_ceiling :
  let meta :=
    snd (tps_ai_clean ascii_only_alnum unchanged_lower [] words_201) in
  word_count meta = 201 /\
  reading_time_minutes meta <> ceiling_minutes (word_count meta).
Proof. vm_compute. split; [reflexivity | intros H; discriminate H]. Qed.

(** C6 fails on the code.  Line 104 replaces the text between its two
    triple quotes, not a curly quote; on an input that holds that text with
    its own quotation mark replaced by the text once more, the first pass
    leaves the text itself and the second pass replaces it. *)
Theorem simple_normalize_not_idempotent :
  simple_normalize quoted_pattern_input = quote_pattern /\
  simple_normalize (simple_normalize quoted_pattern_input) = [34] /\
  simple_normalize (simple_normalize quoted_pattern_input)
  <> simple_normalize quoted_pattern_input.
Proof.
  vm_compute. split; [reflexivity |]. split; [reflexivity |].
  intros H. discriminate H.
Qed.

(** ** The store *)

Module SqlFacts.

Lemma sorted_snoc (l : list Z) x :
  StronglySorted Z.lt l -> Forall (fun y => y < x) l ->
  StronglySorted Z.lt (l ++ [x]).
Proof.
  induction 1 as [|y l Hl IH Hy]; intros Hx; simpl.
  - constructor; constructor.
  - inversion Hx; subst. constructor; [now apply IH |].
    apply Forall_app. split; [assumption | now constructor].
Qed.

Lemma sorted_NoDup (l : list Z) : StronglySorted Z.lt l -> NoDup l.
Proof.
  induction 1 as [|y l Hl IH Hy]; constructor; [| assumption].
  intros Hin. rewrite Forall_forall in Hy. specialize (Hy y Hin). lia.
Qed.

Lemma sorted_filter {A} (key : A -> Z) (p : A -> bool) l :
  StronglySorted Z.lt (map key l) ->
  StronglySorted Z.lt (map key (filter p l)).
Proof.
  induction l as [|x l IH]; simpl; intros H; [constructor |].
  inversion H as [|? ? Hl Hx]; subst. destruct (p x); simpl; [| now apply IH].
  constructor; [now apply IH |].
  rewrite Forall_forall in *. intros k Hk. apply Hx.
  rewrite in_map_iff in *. destruct Hk as (y & <- & Hy).
  exists y. split; [reflexivity |]. now apply filter_In in Hy.
Qed.

(** [ORDER BY] leaves a table that is in order as it is. *)
Lemma order_by_sorted {A} (key : A -> Z) l :
  StronglySorted Z.lt (map key l) -> Sql.order_by key l = l.
Proof.
  unfold Sql.order_by. induction l as [|x l IH]; simpl; intros H;
    [reflexivity |].
  inversion H as [|? ? Hl Hx]; subst. rewrite (IH Hl).
  destruct l as [|y l]; [reflexivity |]. simpl.
  inversion Hx as [|? ? Hxy _]; subst.
  destruct (Z.leb_spec (key x) (key y)); [reflexivity | lia].
Qed.

End SqlFacts.

Module StoreFacts.

Import PyFacts SqlFacts.

Lemma status_distinct :
  pending <> processed /\ pending <> error /\ processed <> error.
Proof. repeat split; apply eqb_neq; vm_compute; reflexivity. Qed.

Lemma set_status_id st id r : r_id (set_status st id r) = r_id r.
Proof. unfold set_status. destruct (r_id r =? id); reflexivity. Qed.

Lemma set_status_other st id r : r_id r <> id -> set_status st id r = r.
Proof.
  unfold set_status. destruct (Z.eqb_spec (r_id r) id); [contradiction | reflexivity].
Qed.

Lemma set_status_same st id r : r_id r = id -> r_status (set_status st id r) = st.
Proof.
  unfold set_status. destruct (Z.eqb_spec (r_id r) id); [reflexivity | contradiction].
Qed.

Lemma map_set_status_ids st id l : map r_id (map (set_status st id) l) = map r_id l.
Proof.
  rewrite map_map. apply map_ext. intros r. apply set_status_id.
Qed.

Lemma cleaned_for_In conn id ce :
  In ce (cleaned_for conn id) <-> In ce (cleaned_entries conn) /\ ce_raw_id ce = id.
Proof. unfold cleaned_for. rewrite filter_In, Z.eqb_eq. reflexivity. Qed.

Lemma cleaned_for_nil conn id :
  cleaned_for conn id = [] <->
  forall ce, In ce (cleaned_entries conn) -> ce_raw_id ce <> id.
Proof.
  split.
  - intros E ce Hce Hid.
    assert (H : In ce (cleaned_for conn id)) by (now apply cleaned_for_In).
    rewrite E in H. exact H.
  - intros H. destruct (cleaned_for conn id) as [|ce l] eqn:E; [reflexivity |].
    assert (Hin : In ce (cleaned_for conn id)) by (rewrite E; now left).
    apply cleaned_for_In in Hin. destruct Hin as [Hin Hid].
    exfalso. exact (H ce Hin Hid).
Qed.

(** At most one cleaned entry for a raw entry, by the [UNIQUE] key. *)
Lemma unique_at_most_one (l : list CleanedEntry) id :
  NoDup (map ce_raw_id l) ->
  (length (filter (fun ce => Z.eqb (ce_raw_id ce) id) l) <= 1)%nat.
Proof.
  induction l as [|ce l IH]; simpl; intros H; [lia |].
  inversion H as [|? ? Hn Hl]; subst.
  destruct (Z.eqb_spec (ce_raw_id ce) id) as [E | E]; [| now apply IH].
  simpl. replace (filter (fun ce0 => ce_raw_id ce0 =? id) l) with (@nil CleanedEntry);
    [simpl; lia |].
  symmetry. destruct (filter (fun ce0 => ce_raw_id ce0 =? id) l) as [|x xs] eqn:F;
    [reflexivity |].
  assert (Hx : In x (filter (fun ce0 => ce_raw_id ce0 =? id) l))
    by (rewrite F; now left).
  apply filter_In in Hx. destruct Hx as [Hx Hid]. apply Z.eqb_eq in Hid.
  exfalso. apply Hn. rewrite E, <- Hid. now apply in_map.
Qed.

(** Two rows of a table with the same primary key are the same row. *)
Lemma same_id_same_row (l : list RawEntry) a b :
  NoDup (map r_id l) -> In a l -> In b l -> r_id a = r_id b -> a = b.
Proof.
  induction l as [|x l IH]; simpl; intros H Ha Hb E; [contradiction |].
  inversion H as [|? ? Hn Hl]; subst.
  destruct Ha as [<- | Ha], Hb as [<- | Hb]; auto.
  - exfalso. apply Hn. rewrite E. now apply in_map.
  - exfalso. apply Hn. rewrite <- E. now apply in_map.
Qed.

Lemma wf_raw_NoDup conn : wf conn -> NoDup (map r_id (raw_entries conn)).
Proof. intros H. apply sorted_NoDup, H. Qed.

Lemma pending_not_cleaned conn r :
  wf conn -> In r (raw_entries conn) -> r_status r = pending ->
  cleaned_for conn (r_id r) = [].
Proof.
  intros Hwf Hr Hp. destruct (cleaned_for conn (r_id r)) eqn:E; [reflexivity |].
  assert (H : r_status r = processed)
    by (apply (wf_link _ Hwf r Hr); rewrite E; discriminate).
  exfalso. apply (proj1 status_distinct). congruence.
Qed.

Lemma wf_empty t : wf (empty_conn t).
Proof.
  constructor; cbn; try constructor; try contradiction.
Qed.

(** The table after [UPDATE ... SET status=st WHERE id=?]. *)
Lemma In_set_status st id l r' :
  In r' (map (set_status st id) l) ->
  exists r, In r l /\ r' = set_status st id r.
Proof.
  rewrite in_map_iff. intros (r & <- & Hr). now exists r.
Qed.

Lemma status_in_update st id (l : list RawEntry) t rs cl cs :
  (exists r, In r l /\ r_id r = id) ->
  status_in {| raw_entries := map (set_status st id) l; raw_seq := rs;
               cleaned_entries := cl; cleaned_seq := cs; clock := t |} id st.
Proof.
  intros (r & Hr & Hid). split; cbn [raw_entries].
  - exists (set_status st id r). split; [now apply in_map |].
    now rewrite set_status_id.
  - intros r' Hr' Hid'. apply In_set_status in Hr'.
    destruct Hr' as (r0 & Hr0 & ->). rewrite set_status_id in Hid'.
    now apply set_status_same.
Qed.

(** The invariant after a failed row: its status becomes [error], and it
    has no cleaned entry. *)
Lemma wf_mark_error conn id t :
  wf conn -> cleaned_for conn id = [] ->
  wf {| raw_entries := map (set_status error id) (raw_entries conn);
        raw_seq := raw_seq conn;
        cleaned_entries := cleaned_entries conn;
        cleaned_seq := cleaned_seq conn; clock := t |}.
Proof.
  intros Hwf Hnil. destruct Hwf as [Hids Hseq Hcids Hcseq Huniq Hst Hlink Hfk].
  constructor; cbn [raw_entries raw_seq cleaned_entries cleaned_seq];
    try assumption.
  - now rewrite map_set_status_ids.
  - rewrite Forall_forall in *. intros r' Hr'. apply In_set_status in Hr'.
    destruct Hr' as (r & Hr & ->). rewrite set_status_id. now apply Hseq.
  - rewrite Forall_forall in *. intros r' Hr'. apply In_set_status in Hr'.
    destruct Hr' as (r & Hr & ->).
    destruct (Z.eq_dec (r_id r) id) as [E | E].
    + right. right. now apply set_status_same.
    + rewrite (set_status_other _ _ _ E). now apply Hst.
  - intros r' Hr'. apply In_set_status in Hr'. destruct Hr' as (r & Hr & ->).
    unfold cleaned_for. cbn [cleaned_entries].
    destruct (Z.eq_dec (r_id r) id) as [E | E].
    + rewrite set_status_id, (set_status_same _ _ _ E), E.
      fold (cleaned_for conn id). rewrite Hnil. split; [| congruence].
      intros H. exfalso. apply (proj2 (proj2 status_distinct)). congruence.
    + rewrite (set_status_other _ _ _ E). apply (Hlink r Hr).
  - intros ce Hce. destruct (Hfk ce Hce) as (r & Hr & Hid).
    exists (set_status error id r). split; [now apply in_map |].
    now rewrite set_status_id.
Qed.

(** The invariant after a successful row: one cleaned entry more, bound to
    the row, whose status becomes [processed]. *)
Lemma wf_mark_processed conn id ce t :
  wf conn -> cleaned_for conn id = [] ->
  (exists r, In r (raw_entries conn) /\ r_id r = id) ->
  ce_raw_id ce = id -> ce_id ce = cleaned_seq conn + 1 ->
  wf {| raw_entries := map (set_status processed id) (raw_entries conn);
        raw_seq := raw_seq conn;
        cleaned_entries := cleaned_entries conn ++ [ce];
        cleaned_seq := cleaned_seq conn + 1; clock := t |}.
Proof.
  intros Hwf Hnil Hex Hraw Hid.
  destruct Hwf as [Hids Hseq Hcids Hcseq Huniq Hst Hlink Hfk].
  constructor; cbn [raw_entries raw_seq cleaned_entries cleaned_seq].
  - now rewrite map_set_status_ids.
  - rewrite Forall_forall in *. intros r' Hr'. apply In_set_status in Hr'.
    destruct Hr' as (r & Hr & ->). rewrite set_status_id. now apply Hseq.
  - rewrite map_app. cbn [map]. apply sorted_snoc; [assumption |].
    rewrite Forall_forall in *. intros k Hk. apply in_map_iff in Hk.
    destruct Hk as (c & <- & Hc). specialize (Hcseq c Hc). cbn beta in Hcseq. lia.
  - apply Forall_app. split.
    + rewrite Forall_forall in *. intros c Hc. specialize (Hcseq c Hc).
      cbn beta in Hcseq. lia.
    + constructor; [lia | constructor].
  - rewrite map_app. cbn [map].
    apply TagFacts.NoDup_snoc; [assumption |]. intros Hin.
    apply in_map_iff in Hin. destruct Hin as (c & Hc1 & Hc2).
    apply (proj1 (cleaned_for_nil conn id) Hnil c Hc2). congruence.
  - rewrite Forall_forall in *. intros r' Hr'. apply In_set_status in Hr'.
    destruct Hr' as (r & Hr & ->).
    destruct (Z.eq_dec (r_id r) id) as [E | E].
    + right. left. now apply set_status_same.
    + rewrite (set_status_other _ _ _ E). now apply Hst.
  - intros r' Hr'. apply In_set_status in Hr'. destruct Hr' as (r & Hr & ->).
    unfold cleaned_for. cbn [cleaned_entries]. rewrite filter_app. cbn [filter].
    destruct (Z.eq_dec (r_id r) id) as [E | E].
    + rewrite set_status_id, (set_status_same _ _ _ E), E.
      destruct (Z.eqb_spec (ce_raw_id ce) id) as [_ | N]; [| contradiction].
      split; [intros _ | reflexivity].
      intros H. apply app_eq_nil in H. destruct H as [_ H]. discriminate H.
    + rewrite (set_status_other _ _ _ E).
      destruct (Z.eqb_spec (ce_raw_id ce) (r_id r)) as [B | _]; [congruence |].
      rewrite app_nil_r. apply (Hlink r Hr).
  - intros c Hc. apply in_app_iff in Hc. destruct Hc as [Hc | [<- | []]].
    + destruct (Hfk c Hc) as (r & Hr & Hrid).
      exists (set_status processed id r). split; [now apply in_map |].
      now rewrite set_status_id.
    + destruct Hex as (r & Hr & Hrid).
      exists (set_status processed id r). split; [now apply in_map |].
      rewrite set_status_id. congruence.
Qed.

Section Pipeline.

Variable now_iso_at : nat -> Py.str.
Variable json_dumps : Meta -> Py.str.
Variable ai_clean : Py.str -> option (Py.str -> Py.str * Meta).

Lemma wf_add_raw conn text : wf conn -> wf (fst (add_raw now_iso_at conn text)).
Proof.
  intros Hwf. destruct Hwf as [Hids Hseq Hcids Hcseq Huniq Hst Hlink Hfk].
  unfold add_raw, now_iso. cbn [fst raw_entries raw_seq cleaned_entries cleaned_seq].
  constructor; cbn [raw_entries raw_seq cleaned_entries cleaned_seq];
    try assumption.
  - rewrite map_app. cbn [map r_id]. apply sorted_snoc; [assumption |].
    rewrite Forall_forall in *. intros k Hk. apply in_map_iff in Hk.
    destruct Hk as (r & <- & Hr). specialize (Hseq r Hr). cbn beta in Hseq. lia.
  - apply Forall_app. split.
    + rewrite Forall_forall in *. intros r Hr. specialize (Hseq r Hr).
      cbn beta in Hseq. lia.
    + constructor; [cbn [r_id]; lia | constructor].
  - apply Forall_app. split; [assumption |].
    constructor; [now left | constructor].
  - intros r Hr. unfold cleaned_for. cbn [cleaned_entries].
    apply in_app_iff in Hr. destruct Hr as [Hr | [<- | []]].
    + apply (Hlink r Hr).
    + cbn [r_status r_id]. split.
      * intros H. exfalso. now apply (proj1 status_distinct).
      * intros H. exfalso. apply H.
        apply (proj2 (cleaned_for_nil conn (raw_seq conn + 1))).
        intros ce Hce Hid. destruct (Hfk ce Hce) as (r & Hr & Hrid).
        rewrite Forall_forall in Hseq. specialize (Hseq r Hr).
        cbn beta in Hseq. lia.
  - intros ce Hce. destruct (Hfk ce Hce) as (r & Hr & Hrid).
    exists r. split; [apply in_app_iff; now left | assumption].
Qed.

Lemma process_row_raise conn ok err r :
  ai_clean (r_text r) = None ->
  process_row now_iso_at json_dumps ai_clean (conn, (ok, err)) r =
  (update_status conn error (r_id r), (ok, err + 1)).
Proof. intros E. unfold process_row. now rewrite E. Qed.

(** On a pending row of a well-formed store the [INSERT] is accepted. *)
Lemma process_row_return conn ok err r result :
  ai_clean (r_text r) = Some result ->
  cleaned_for conn (r_id r) = [] -> In r (raw_entries conn) ->
  exists ce t,
    ce_raw_id ce = r_id r /\ ce_id ce = cleaned_seq conn + 1 /\
    process_row now_iso_at json_dumps ai_clean (conn, (ok, err)) r =
    ({| raw_entries := map (set_status processed (r_id r)) (raw_entries conn);
        raw_seq := raw_seq conn;
        cleaned_entries := cleaned_entries conn ++ [ce];
        cleaned_seq := cleaned_seq conn + 1; clock := t |},
     (ok + 1, err)).
Proof.
  intros E Hnil Hr. unfold process_row. rewrite E. unfold now_iso.
  cbn [clock raw_entries raw_seq cleaned_entries cleaned_seq].
  destruct (result (now_iso_at (clock conn))) as [cleaned meta].
  unfold insert_cleaned.
  cbn [clock raw_entries raw_seq cleaned_entries cleaned_seq].
  assert (E1 : existsb (fun ce => ce_raw_id ce =? r_id r) (cleaned_entries conn)
               = false).
  { destruct (existsb _ (cleaned_entries conn)) eqn:X; [| reflexivity].
    apply existsb_exists in X. destruct X as (ce & Hce & Hid).
    apply Z.eqb_eq in Hid.
    exfalso. exact (proj1 (cleaned_for_nil conn (r_id r)) Hnil ce Hce Hid). }
  assert (E2 : existsb (fun r0 => r_id r0 =? r_id r) (raw_entries conn) = true).
  { apply existsb_exists. exists r. split; [assumption | apply Z.eqb_refl]. }
  rewrite E1, E2. cbn [negb].
  eexists. eexists. split; [| split]; [| | reflexivity]; reflexivity.
Qed.

(** One turn of the loop on a pending row. *)
Lemma process_row_spec conn ok err r :
  wf conn -> In r (raw_entries conn) -> r_status r = pending ->
  let res := process_row now_iso_at json_dumps ai_clean (conn, (ok, err)) r in
  wf (fst res) /\
  (forall r0, In r0 (raw_entries conn) -> r_id r0 <> r_id r ->
              In r0 (raw_entries (fst res))) /\
  (forall id, id <> r_id r -> cleaned_for (fst res) id = cleaned_for conn id) /\
  (if raises ai_clean r
   then status_in (fst res) (r_id r) error /\
        cleaned_for (fst res) (r_id r) = []
   else status_in (fst res) (r_id r) processed /\
        length (cleaned_for (fst res) (r_id r)) = 1%nat) /\
  snd res = if raises ai_clean r then (ok, err + 1) else (ok + 1, err).
Proof.
  intros Hwf Hr Hp res.
  pose proof (pending_not_cleaned conn r Hwf Hr Hp) as Hnil.
  assert (Hex : exists r0, In r0 (raw_entries conn) /\ r_id r0 = r_id r)
    by (now exists r).
  assert (Hframe : forall st r0, In r0 (raw_entries conn) -> r_id r0 <> r_id r ->
                     In r0 (map (set_status st (r_id r)) (raw_entries conn))).
  { intros st r0 H0 Hne. rewrite <- (set_status_other st (r_id r) r0 Hne).
    now apply in_map. }
  unfold raises. destruct (ai_clean (r_text r)) as [result |] eqn:E.
  - destruct (process_row_return conn ok err r result E Hnil Hr)
      as (ce & t & Hraw & Hid & Eres).
    subst res. rewrite Eres. cbn [fst snd].
    split; [now apply wf_mark_processed |].
    split; [cbn [raw_entries]; now apply Hframe |].
    split.
    { intros id Hne. unfold cleaned_for. cbn [cleaned_entries].
      rewrite filter_app. cbn [filter].
      destruct (Z.eqb_spec (ce_raw_id ce) id); [congruence |].
      apply app_nil_r. }
    split; [| reflexivity].
    split; [now apply status_in_update |].
    unfold cleaned_for. cbn [cleaned_entries]. rewrite filter_app. cbn [filter].
    fold (cleaned_for conn (r_id r)). rewrite Hnil.
    destruct (Z.eqb_spec (ce_raw_id ce) (r_id r)); [reflexivity | contradiction].
  - subst res. rewrite (process_row_raise conn ok err r E).
    unfold update_status. cbn [fst snd].
    split; [now apply wf_mark_error |].
    split; [cbn [raw_entries]; now apply Hframe |].
    split; [reflexivity |].
    split; [| reflexivity].
    split; [now apply status_in_update | exact Hnil].
Qed.

Lemma count_rows_cons p r rows :
  count_rows p (r :: rows) = (if p r then 1 else 0) + count_rows p rows.
Proof.
  unfold count_rows. cbn [filter]. destruct (p r); cbn [length]; lia.
Qed.

(** The loop over a list of pending rows with distinct ids. *)
Lemma process_rows_spec rows : forall conn ok err,
  wf conn -> NoDup (map r_id rows) ->
  (forall r, In r rows -> In r (raw_entries conn) /\ r_status r = pending) ->
  let res := fold_left (process_row now_iso_at json_dumps ai_clean) rows
                       (conn, (ok, err)) in
  wf (fst res) /\
  (forall r0, In r0 (raw_entries conn) -> ~ In (r_id r0) (map r_id rows) ->
              In r0 (raw_entries (fst res))) /\
  (forall id, ~ In id (map r_id rows) ->
              cleaned_for (fst res) id = cleaned_for conn id) /\
  (forall r, In r rows -> outcome ai_clean (fst res) r) /\
  fst (snd res) = ok + count_rows (fun r => negb (raises ai_clean r)) rows /\
  snd (snd res) = err + count_rows (raises ai_clean) rows.
Proof.
  induction rows as [|r rows IH]; intros conn ok err Hwf Hnd Hrows res.
  - subst res. cbn [fold_left fst snd]. unfold count_rows.
    cbn [filter length Z.of_nat].
    split; [assumption |]. split; [auto |]. split; [reflexivity |].
    split; [intros r [] |]. split; lia.
  - subst res. cbn [fold_left].
    inversion Hnd as [|? ? Hfresh Hnd']; subst.
    destruct (Hrows r (or_introl eq_refl)) as [Hr Hp].
    pose proof (process_row_spec conn ok err r Hwf Hr Hp) as Hstep.
    cbv zeta in Hstep.
    destruct (process_row now_iso_at json_dumps ai_clean (conn, (ok, err)) r)
      as [conn1 [ok1 err1]].
    cbn [fst snd] in Hstep.
    destruct Hstep as (Hwf1 & Hraw1 & Hcl1 & Hout1 & Hcnt1).
    assert (Hrows1 : forall r2, In r2 rows ->
                       In r2 (raw_entries conn1) /\ r_status r2 = pending).
    { intros r2 H2. destruct (Hrows r2 (or_intror H2)) as [Hin2 Hp2].
      split; [| assumption]. apply Hraw1; [assumption |].
      intros Heq. apply Hfresh. rewrite <- Heq. now apply in_map. }
    specialize (IH conn1 ok1 err1 Hwf1 Hnd' Hrows1). cbv zeta in IH.
    destruct (fold_left (process_row now_iso_at json_dumps ai_clean) rows
                        (conn1, (ok1, err1))) as [conn2 [ok2 err2]].
    cbn [fst snd] in *.
    destruct IH as (Hwf2 & Hraw2 & Hcl2 & Hout2 & Hok2 & Herr2).
    split; [assumption |].
    split.
    { intros r0 H0 Hn. cbn [map] in Hn. apply Hraw2.
      - apply Hraw1; [assumption |]. intros Heq. apply Hn. now left.
      - intros Hin. apply Hn. now right. }
    split.
    { intros id Hn. cbn [map] in Hn. rewrite Hcl2.
      - apply Hcl1. intros Heq. apply Hn. now left.
      - intros Hin. apply Hn. now right. }
    split.
    { intros r' [<- | Hin']; [| now apply Hout2].
      unfold outcome in *.
      assert (Hkeep : forall st, status_in conn1 (r_id r) st ->
                                 status_in conn2 (r_id r) st).
      { intros st [(r1 & Hr1 & Hid1) Hall].
        assert (Hr1' : In r1 (raw_entries conn2))
          by (apply Hraw2; [assumption | now rewrite Hid1]).
        split; [now exists r1 |].
        intros r' Hr' Hid'.
        rewrite (same_id_same_row _ r' r1 (wf_raw_NoDup _ Hwf2) Hr' Hr1'
                   ltac:(congruence)).
        now apply Hall. }
      rewrite (Hcl2 (r_id r) Hfresh).
      destruct (raises ai_clean r); destruct Hout1 as [Hs Hc];
        (split; [now apply Hkeep | assumption]). }
    rewrite Hok2, Herr2, !count_rows_cons.
    destruct (raises ai_clean r); injection Hcnt1 as -> ->; cbn [negb];
      split; lia.
Qed.

Lemma select_pending_rows conn :
  wf conn ->
  select_pending conn =
  filter (fun r => Py.eqb (r_status r) pending) (raw_entries conn).
Proof.
  intros Hwf. unfold select_pending. apply order_by_sorted.
  apply sorted_filter, Hwf.
Qed.

(** The batch on a well-formed store. *)
Lemma process_pending_spec conn :
  wf conn ->
  let rows := select_pending conn in
  let res := process_pending now_iso_at json_dumps ai_clean conn in
  wf (fst res) /\
  (forall r0, In r0 (raw_entries conn) -> r_status r0 <> pending ->
              In r0 (raw_entries (fst res))) /\
  (forall r, In r rows -> outcome ai_clean (fst res) r) /\
  fst (snd res) = count_rows (fun r => negb (raises ai_clean r)) rows /\
  snd (snd res) = count_rows (raises ai_clean) rows.
Proof.
  intros Hwf rows res.
  assert (Erows : rows = filter (fun r => Py.eqb (r_status r) pending)
                                (raw_entries conn))
    by (now apply select_pending_rows).
  assert (Hin : forall r, In r rows ->
                  In r (raw_entries conn) /\ r_status r = pending).
  { intros r Hr. rewrite Erows in Hr. apply filter_In in Hr.
    destruct Hr as [Hr Hp]. now apply eqb_eq in Hp. }
  assert (Hnd : NoDup (map r_id rows)).
  { rewrite Erows. apply sorted_NoDup, sorted_filter, Hwf. }
  pose proof (process_rows_spec rows conn 0 0 Hwf Hnd Hin) as H.
  cbv zeta in H. fold rows in H.
  change (fold_left (process_row now_iso_at json_dumps ai_clean) rows
                    (conn, (0, 0))) with res in H.
  destruct H as (Hwf' & Hraw & _ & Hout & Hok & Herr).
  split; [assumption |].
  split.
  { intros r0 H0 Hnp. apply Hraw; [assumption |].
    intros Hid. apply in_map_iff in Hid. destruct Hid as (r & Hid & Hr).
    destruct (Hin r Hr) as [Hr' Hp].
    rewrite (same_id_same_row _ r0 r (wf_raw_NoDup _ Hwf) H0 Hr'
               ltac:(congruence)) in Hnp. contradiction. }
  split; [assumption |]. split; lia.
Qed.

Lemma reachable_wf conn :
  reachable now_iso_at json_dumps ai_clean conn -> wf conn.
Proof.
  induction 1 as [t | conn text _ IH | conn _ IH].
  - apply wf_empty.
  - now apply wf_add_raw.
  - now apply process_pending_spec.
Qed.

End Pipeline.

End StoreFacts.

(** ** The pipeline and the counts *)

Section PipelineClaims.

Import PyFacts SqlFacts StoreFacts.

Variable now_iso_at : nat -> Py.str.
Variable json_dumps : Meta -> Py.str.
Variable ai_clean : Py.str -> option (Py.str -> Py.str * Meta).

Lemma filter_true {A} (l : list A) : filter (fun _ => true) l = l.
Proof.
  induction l as [|x l IH]; [reflexivity |]. cbn [filter]. now rewrite IH.
Qed.



(** C1.  In a reachable state a processed raw entry has exactly one cleaned
    entry, and a pending one or one in error has none. *)
Theorem processed_has_one_cleaned (conn : Conn) (r : RawEntry)
  (Hreach : reachable now_iso_at json_dumps ai_clean conn)
  (Hr : In r (raw_entries conn)) :
  (r_status r = processed -> exists ce, cleaned_for conn (r_id r) = [ce]) /\
  (r_status r = pending \/ r_status r = error ->
   cleaned_for conn (r_id r) = []).
Proof.
  apply reachable_wf in Hreach. split.
  - intros Hp. apply (wf_link _ Hreach r Hr) in Hp.
    pose proof (unique_at_most_one (cleaned_entries conn) (r_id r)
                  (wf_unique _ Hreach)) as Hle.
    fold (cleaned_for conn (r_id r)) in Hle.
    destruct (cleaned_for conn (r_id r)) as [|ce [|ce' l]].
    + contradiction.
    + now exists ce.
    + cbn [length] in Hle. lia.
  - intros Hs. destruct (cleaned_for conn (r_id r)) eqn:E; [reflexivity |].
    assert (Hp : r_status r = processed)
      by (apply (wf_link _ Hreach r Hr); rewrite E; discriminate).
    destruct status_distinct as (D1 & D2 & D3).
    destruct Hs as [Hs | Hs]; exfalso; congruence.
Qed.



End PipelineClaims.

Lemma example_pending_reachable :
  reachable epoch no_json clean_or_raise example_pending_store.
Proof.
  unfold example_pending_store.
  apply reach_add_raw, reach_add_raw, reach_empty.
Defined.

Lemma example_reachable :
  reachable epoch no_json clean_or_raise example_store.
Proof.
  unfold example_store. apply reach_process_pending, example_pending_reachable.
Defined.


Lemma processed_has_one_cleaned_witness :
  exists ce, cleaned_for example_store 1 = [ce].
Proof.
  refine (proj1 (processed_has_one_cleaned epoch no_json clean_or_raise
                   example_store
                   {| r_id := 1; r_text := lit "Hello world";
                      r_created_at := epoch O; r_status := processed |}
                   _ _) eq_refl).
  - unfold example_store, example_pending_store.
    apply reach_process_pending, reach_add_raw, reach_add_raw, reach_empty.
  - vm_compute. left. reflexivity.
Defined.


(** ** The fallback search *)

Module LikeFacts.

Lemma starts_with_iff q s :
  Py.starts_with q s = true <-> exists post, s = q ++ post.
Proof.
  revert s. induction q as [|a q IH]; intros s; simpl.
  - split; [intros _; now exists s | reflexivity].
  - destruct s as [|b s].
    + split; [discriminate | intros [post H]; discriminate].
    + rewrite andb_true_iff, Z.eqb_eq, IH. split.
      * intros [-> [post ->]]. now exists post.
      * intros [post H]. injection H as -> ->. split; [reflexivity | now exists post].
Qed.

(** [Py.contains] is Python's [in]: the literal occurrence of [q] in [s]. *)
Lemma contains_iff q s :
  Py.contains q s = true <-> exists pre post, s = pre ++ q ++ post.
Proof.
  induction s as [|b s IH]; simpl; rewrite orb_true_iff, starts_with_iff.
  - split.
    + intros [[post H] | H]; [| discriminate]. now exists [], post.
    + intros (pre & post & H). left. destruct pre as [|? ?]; [| discriminate].
      now exists post.
  - rewrite IH. split.
    + intros [[post H] | (pre & post & ->)]; [now exists [], post |].
      now exists (b :: pre), post.
    + intros (pre & post & H). destruct pre as [|c pre]; simpl in H.
      * left. now exists post.
      * right. injection H as _ ->. now exists pre, post.
Qed.

Lemma like_percent_unfold p s :
  Sql.pattern_compare (ord "%" :: p) s
  = Sql.pattern_compare p s
    || match s with
       | [] => false
       | _ :: s' => Sql.pattern_compare (ord "%" :: p) s'
       end.
Proof. destruct s; reflexivity. Qed.

(** A leading [%] matches any prefix. *)
Lemma like_percent p s :
  Sql.pattern_compare (ord "%" :: p) s = true
  <-> exists pre post, s = pre ++ post /\ Sql.pattern_compare p post = true.
Proof.
  split.
  - induction s as [|x s IH]; rewrite like_percent_unfold, orb_true_iff.
    + intros [H | H]; [| discriminate]. now exists [], [].
    + intros [H | H]; [now exists [], (x :: s) |].
      destruct (IH H) as (pre & post & -> & Hp). now exists (x :: pre), post.
  - intros (pre & post & -> & Hp).
    induction pre as [|x pre IH]; rewrite like_percent_unfold, orb_true_iff.
    + now left.
    + now right.
Qed.

Lemma like_only_percent s : Sql.pattern_compare [ord "%"] s = true.
Proof.
  apply like_percent. exists s, []. split; [now rewrite app_nil_r | reflexivity].
Qed.

(** A pattern without wildcards followed by [%] matches the strings that
    begin with the pattern, up to the case of the letters of ASCII. *)
Lemma like_prefix q s :
  plain_query q ->
  (Sql.pattern_compare (q ++ [ord "%"]) s = true
   <-> exists mid post,
         s = mid ++ post /\ map Sql.like_fold mid = map Sql.like_fold q).
Proof.
  intros Hq. revert s.
  induction Hq as [|c q [Hc1 Hc2] _ IH]; intros s.
  - split; [| intros _; apply like_only_percent].
    intros _. now exists [], s.
  - change ((c :: q) ++ [ord "%"]) with (c :: (q ++ [ord "%"])).
    cbn [Sql.pattern_compare].
    destruct (Z.eqb_spec c (ord "%")) as [E | _]; [contradiction |].
    destruct s as [|x s].
    + split; [discriminate |].
      intros (mid & post & H & Hm). destruct mid; discriminate.
    + destruct (Z.eqb_spec c (ord "_")) as [E | _]; [contradiction |].
      rewrite orb_false_l, andb_true_iff, Z.eqb_eq, IH. split.
      * intros (Hx & mid & post & -> & Hm). exists (x :: mid), post.
        split; [reflexivity |]. simpl. now rewrite Hx, Hm.
      * intros (mid & post & H & Hm). destruct mid as [|y mid]; [discriminate |].
        simpl in H, Hm. injection H as -> ->. injection Hm as Hy Hm.
        split; [now symmetry |]. now exists mid, post.
Qed.

(** A text without NUL is read whole. *)
Lemma c_string_whole s : ~ In 0 s -> Sql.c_string s = s.
Proof.
  unfold Sql.c_string. induction s as [|c s IH]; intros H; [reflexivity |].
  cbn [Py.take_while]. destruct (Z.eqb_spec c 0) as [E | _].
  - exfalso. apply H. now left.
  - cbn [negb]. rewrite IH; [reflexivity |]. intros Hin. apply H. now right.
Qed.

Lemma c_string_no_nul s : ~ In 0 (Sql.c_string s).
Proof.
  unfold Sql.c_string. induction s as [|c s IH]; [intros [] |].
  cbn [Py.take_while]. destruct (Z.eqb_spec c 0) as [E | N]; cbn [negb];
    [intros [] |].
  intros [H | H]; [congruence | now apply IH].
Qed.

(** The folding of [LIKE] neither makes nor removes a NUL. *)
Lemma like_fold_nul mid q :
  map Sql.like_fold mid = map Sql.like_fold q -> ~ In 0 mid -> ~ In 0 q.
Proof.
  revert q. induction mid as [|x mid IH]; intros [|c q] E H;
    try discriminate E; [intros [] |].
  cbn [map] in E. injection E as Ex E.
  intros [Hc | Hc].
  - subst c. apply H. left. unfold Sql.like_fold in Ex.
    change (Py.in_range 65 90 0) with false in Ex.
    destruct (Py.in_range 65 90 x) eqn:R; [| assumption].
    apply PyFacts.in_range_iff in R. lia.
  - apply (IH q E); [| assumption]. intros Hin. apply H. now right.
Qed.

(** [LIKE '%query%'] for a query without wildcards and without NUL: the
    text, read up to its first NUL, contains the query up to the case of
    the letters of ASCII. *)
Lemma like_contains q s :
  plain_query q -> ~ In 0 q ->
  (Sql.pattern_compare (Sql.c_string (lit "%" ++ q ++ lit "%"))
                       (Sql.c_string s) = true
   <-> contains_nocase q (Sql.c_string s)).
Proof.
  intros Hq Hnul.
  rewrite (c_string_whole (lit "%" ++ q ++ lit "%")).
  - change (lit "%" ++ q ++ lit "%") with (ord "%" :: (q ++ [ord "%"])).
    rewrite like_percent. unfold contains_nocase. split.
    + intros (pre & rest & -> & H). apply (like_prefix q rest Hq) in H.
      destruct H as (mid & post & -> & Hm). now exists pre, mid, post.
    + intros (pre & mid & post & -> & Hm). exists pre, (mid ++ post).
      split; [reflexivity |]. apply (like_prefix q _ Hq). now exists mid, post.
  - intros H. apply in_app_iff in H. destruct H as [[H | []] | H];
      [discriminate H |].
    apply in_app_iff in H. destruct H as [H | [H | []]];
      [contradiction | discriminate H].
Qed.

Lemma utf8_length_app a b : utf8_length (a ++ b) = utf8_length a + utf8_length b.
Proof.
  unfold utf8_length. induction a as [|c a IH]; cbn [app fold_right];
    [reflexivity |].
  rewrite IH. lia.
Qed.

Lemma encodable_app a b : encodable (a ++ b) = encodable a && encodable b.
Proof. apply forallb_app. Qed.

Lemma utf8_length_pattern q :
  utf8_length (lit "%" ++ q ++ lit "%") = utf8_length q + 2.
Proof.
  rewrite !utf8_length_app. change (utf8_length (lit "%")) with 1. lia.
Qed.

Lemma bindable_pattern q :
  bindable (lit "%" ++ q ++ lit "%") = true
  <-> encodable q = true /\ utf8_length q + 2 <= Sql.max_length.
Proof.
  unfold bindable. rewrite andb_true_iff, Z.leb_le, utf8_length_pattern.
  rewrite !encodable_app. change (encodable (lit "%")) with true.
  rewrite andb_true_r. reflexivity.
Qed.

(** [LIKE] on a pattern within the limit. *)
Lemma like_short p s :
  utf8_length p <= Sql.like_pattern_limit ->
  Sql.like p s
  = Some (Sql.pattern_compare (Sql.c_string p) (Sql.c_string s)).
Proof.
  intros H. unfold Sql.like.
  destruct (Z.ltb_spec Sql.like_pattern_limit (utf8_length p));
    [lia | reflexivity].
Qed.


(** A test that does not raise selects as a filter. *)
Lemma select_where_filter {A} (test : A -> option bool) (f : A -> bool) l :
  (forall x, In x l -> test x = Some (f x)) ->
  Sql.select_where test l = Some (filter f l).
Proof.
  induction l as [|x l IH]; intros H; cbn [Sql.select_where filter];
    [reflexivity |].
  rewrite (H x (or_introl eq_refl)), IH by (intros y Hy; apply H; now right).
  now destruct (f x).
Qed.


(** The fallback search on a query short enough for [LIKE]. *)
Lemma search_clean_short fts5_match conn q :
  encodable q = true ->
  utf8_length q + 2 <= Sql.like_pattern_limit ->
  search_clean fts5_match conn q false
  = Some (select_cleaned conn
            (filter (fun ce =>
                       Sql.pattern_compare
                         (Sql.c_string (lit "%" ++ q ++ lit "%"))
                         (Sql.c_string (ce_clean_text ce)))
                    (cleaned_entries conn))).
Proof.
  intros Henc Hlen. unfold search_clean.
  replace (bindable (lit "%" ++ q ++ lit "%")) with true.
  2:{ symmetry. apply bindable_pattern. split; [assumption |].
      unfold Sql.like_pattern_limit, Sql.max_length in *. lia. }
  rewrite (select_where_filter _
             (fun ce => Sql.pattern_compare
                          (Sql.c_string (lit "%" ++ q ++ lit "%"))
                          (Sql.c_string (ce_clean_text ce)))).
  - reflexivity.
  - intros ce _. apply like_short. rewrite utf8_length_pattern. exact Hlen.
Qed.



Lemma firstn_In {A} (n : nat) (x : A) l : In x (firstn n l) -> In x l.
Proof.
  revert l. induction n as [|n IH]; intros [|y l]; simpl; try contradiction.
  intros [H | H]; [now left | right; now apply IH].
Qed.


End LikeFacts.

Section SearchClaims.

Variable now_iso_at : nat -> Py.str.
Variable json_dumps : Meta -> Py.str.
Variable ai_clean : Py.str -> option (Py.str -> Py.str * Meta).
Variable fts5_match :
  list CleanedEntry -> Py.str -> option (CleanedEntry -> bool).

Lemma join_raw_In conn ce row :
  In row (join_raw conn ce)
  <-> exists r, In r (raw_entries conn) /\ r_id r = ce_raw_id ce /\
                row = search_row ce r.
Proof.
  unfold join_raw. rewrite in_map_iff. split.
  - intros (r & <- & Hr). apply filter_In in Hr. destruct Hr as [Hr E].
    apply Z.eqb_eq in E. now exists r.
  - intros (r & Hr & E & ->). exists r. split; [reflexivity |].
    apply filter_In. split; [assumption | now apply Z.eqb_eq].
Qed.


End SearchClaims.



(** * Further properties *)

(** ** The normalizer *)

Module NormalizeFacts.

Lemma replace_char a r s :
  Py.replace [a] r s = flat_map (fun c => if a =? c then r else [c]) s.
Proof.
  unfold Py.replace. induction s as [|c s IH]; [reflexivity |].
  cbn [Py.replace_go Py.starts_with length Nat.pred flat_map].
  rewrite andb_true_r. destruct (a =? c); now rewrite IH.
Qed.

Lemma replace_char_same a s : Py.replace [a] [a] s = s.
Proof.
  rewrite replace_char. induction s as [|c s IH]; [reflexivity |].
  cbn [flat_map]. rewrite IH. destruct (Z.eqb_spec a c); subst; reflexivity.
Qed.

Lemma replace_char_In a r s c :
  In c (Py.replace [a] r s) -> In c r \/ (In c s /\ c <> a).
Proof.
  rewrite replace_char, in_flat_map. intros (x & Hx & Hc).
  destruct (Z.eqb_spec a x) as [-> | N]; [now left |].
  destruct Hc as [<- | []]. right. split; [assumption | congruence].
Qed.

Lemma replace_char_absent a r s : ~ In a s -> Py.replace [a] r s = s.
Proof.
  rewrite replace_char. induction s as [|c s IH]; [reflexivity |].
  intros H. cbn [flat_map]. destruct (Z.eqb_spec a c) as [-> | N].
  - exfalso. apply H. now left.
  - rewrite IH; [reflexivity |]. intros Hin. apply H. now right.
Qed.

Lemma starts_with_app old s :
  Py.starts_with old s = true -> exists post, s = old ++ post.
Proof.
  revert s. induction old as [|a old IH]; intros s; simpl.
  - intros _. now exists s.
  - destruct s as [|b s]; [discriminate |].
    rewrite andb_true_iff, Z.eqb_eq. intros [-> H].
    destruct (IH s H) as [post ->]. now exists post.
Qed.

(** Without an occurrence of [old], [replace] changes nothing. *)
Lemma replace_go_absent old new s :
  Py.contains old s = false -> Py.replace_go old new O s = s.
Proof.
  induction s as [|c s IH]; [reflexivity |].
  cbn [Py.contains Py.replace_go]. rewrite orb_false_iff. intros [E H].
  rewrite E, (IH H). reflexivity.
Qed.

Lemma contains_In old s c :
  In c old -> Py.contains old s = true -> In c s.
Proof.
  intros Hc. induction s as [|b s IH]; cbn [Py.contains];
    rewrite orb_true_iff.
  - intros [H | H]; [| discriminate]. apply starts_with_app in H.
    destruct H as [post H]. destruct old; [contradiction | discriminate].
  - intros [H | H]; [| right; now apply IH].
    apply starts_with_app in H. destruct H as [post ->].
    apply in_app_iff. now left.
Qed.


(** A replacement by a shorter text makes the text shorter. *)
Lemma replace_go_length old new s : forall k,
  (length new < length old)%nat -> (k <= length s)%nat ->
  (length (Py.replace_go old new k s) + k <= length s)%nat.
Proof.
  intros k Hlen. revert k.
  induction s as [|c s IH]; intros k Hk; cbn [length] in Hk.
  - assert (k = O) by lia. subst. cbn. lia.
  - cbn [Py.replace_go]. destruct k as [|k].
    + destruct (Py.starts_with old (c :: s)) eqn:E.
      * apply starts_with_app in E. destruct E as [post E].
        assert (Hl : length (c :: s) = (length old + length post)%nat)
          by (rewrite E; apply length_app).
        cbn [length] in Hl.
        specialize (IH (Nat.pred (length old)) ltac:(lia)).
        rewrite length_app. cbn [length]. lia.
      * specialize (IH O ltac:(lia)). cbn [length]. lia.
    + specialize (IH k ltac:(lia)). cbn [length]. lia.
Qed.

Lemma replace_go_shorter old new s :
  (length new < length old)%nat -> Py.contains old s = true ->
  (length (Py.replace_go old new O s) < length s)%nat.
Proof.
  intros Hlen. induction s as [|c s IH]; cbn [Py.contains Py.replace_go].
  - destruct old; [cbn in Hlen; lia | discriminate].
  - destruct (Py.starts_with old (c :: s)) eqn:E; cbn [orb].
    + intros _. apply starts_with_app in E. destruct E as [post E].
      assert (Hl : length (c :: s) = (length old + length post)%nat)
        by (rewrite E; apply length_app).
      cbn [length] in Hl.
      pose proof (replace_go_length old new s (Nat.pred (length old)) Hlen
                    ltac:(lia)).
      rewrite length_app. cbn [length]. lia.
    + intros H. specialize (IH H). cbn [length]. lia.
Qed.

Lemma replace_go_In old new s c : forall k,
  In c (Py.replace_go old new k s) -> In c new \/ In c s.
Proof.
  induction s as [|b s IH]; intros k; cbn [Py.replace_go]; [intros [] |].
  destruct k as [|k].
  - destruct (Py.starts_with old (b :: s)).
    + rewrite in_app_iff. intros [H | H]; [now left |].
      destruct (IH _ H); [now left | right; now right].
    + intros [<- | H]; [right; now left |].
      destruct (IH _ H); [now left | right; now right].
  - intros H. destruct (IH _ H); [now left | right; now right].
Qed.

Lemma spaced_weaken prev s : spaced prev s = true -> spaced false s = true.
Proof.
  destruct s as [|c s]; [reflexivity |]. cbn [spaced].
  destruct (c =? 32); [| trivial]. rewrite andb_true_iff. now intros [_ ->].
Qed.

Lemma spaced_tail prev c s : spaced prev (c :: s) = true -> spaced false s = true.
Proof.
  cbn [spaced]. destruct (c =? 32); [| trivial].
  rewrite andb_true_iff. intros [_ H]. now apply spaced_weaken in H.
Qed.

(** Replacing by one character that is no space brings no two spaces
    together. *)
Lemma replace_go_spaced old q s : q <> 32 -> forall k prev,
  spaced prev s = true ->
  spaced (match k with O => prev | S _ => false end)
         (Py.replace_go old [q] k s) = true.
Proof.
  intros Hq. induction s as [|c s IH]; intros k prev H;
    cbn [Py.replace_go]; [reflexivity |].
  destruct k as [|k].
  - destruct (Py.starts_with old (c :: s)).
    + cbn [app spaced]. destruct (Z.eqb_spec q 32); [contradiction |].
      apply spaced_tail in H. specialize (IH (Nat.pred (length old)) false H).
      destruct (Nat.pred (length old)); exact IH.
    + cbn [spaced] in *. destruct (c =? 32).
      * apply andb_true_iff in H. destruct H as [-> H]. cbn [andb].
        exact (IH O true H).
      * exact (IH O false H).
  - apply spaced_tail in H. specialize (IH k false H). destruct k; exact IH.
Qed.

Lemma replace_go_starts_ok old q s :
  Py.isspace q = false -> starts_ok s -> starts_ok (Py.replace_go old [q] O s).
Proof.
  intros Hq. destruct s as [|c s]; [trivial |]. cbn [Py.replace_go].
  destruct (Py.starts_with old (c :: s)); cbn [app starts_ok]; trivial.
Qed.

Lemma replace_go_nonempty old q c s : Py.replace_go old [q] O (c :: s) <> [].
Proof.
  cbn [Py.replace_go]. destruct (Py.starts_with old (c :: s)); discriminate.
Qed.

Lemma ends_ok_cons c s : s <> [] -> ends_ok s -> ends_ok (c :: s).
Proof.
  intros Hs [E | E]; [contradiction |]. right.
  destruct s; [contradiction | exact E].
Qed.

Lemma ends_ok_tail c s : s <> [] -> ends_ok (c :: s) -> ends_ok s.
Proof.
  intros Hs [E | E]; [discriminate |]. right.
  destruct s; [contradiction | exact E].
Qed.

Lemma replace_go_ends_ok old q s : Py.isspace q = false -> forall k,
  ends_ok s -> ends_ok (Py.replace_go old [q] k s).
Proof.
  intros Hq. induction s as [|c s IH]; intros k H; cbn [Py.replace_go];
    [now left |].
  assert (Hs : s = [] \/ ends_ok s).
  { destruct s as [|d s]; [now left | right].
    apply (ends_ok_tail c); [discriminate | assumption]. }
  destruct k as [|k].
  - destruct (Py.starts_with old (c :: s)).
    + cbn [app]. destruct Hs as [-> | Hs]; [right; exact Hq |].
      specialize (IH (Nat.pred (length old)) Hs).
      destruct (Py.replace_go old [q] (Nat.pred (length old)) s) eqn:E;
        [right; exact Hq |].
      apply ends_ok_cons; [discriminate | assumption].
    + destruct Hs as [-> | Hs]; [exact H |].
      destruct s as [|d s]; [exact H |].
      apply ends_ok_cons; [apply replace_go_nonempty | now apply IH].
  - destruct Hs as [-> | Hs]; [now left | now apply IH].
Qed.

(** *** The collapse of runs of spaces *)

Lemma collapse_In inrun s c :
  In c (Py.sub_class_plus space_or_nbsp (lit " ") inrun s) ->
  c = 32 \/ (In c s /\ space_or_nbsp c = false).
Proof.
  revert inrun. induction s as [|b s IH]; intros inrun;
    cbn [Py.sub_class_plus]; [intros [] |].
  destruct (space_or_nbsp b) eqn:E.
  - rewrite in_app_iff. intros [H | H].
    + destruct inrun; [destruct H | destruct H as [<- | []]; now left].
    + destruct (IH _ H) as [-> | [H1 H2]]; [now left | right].
      split; [now right | assumption].
  - intros [<- | H]; [right; split; [now left | assumption] |].
    destruct (IH _ H) as [-> | [H1 H2]]; [now left | right].
    split; [now right | assumption].
Qed.

Lemma collapse_spaced inrun s :
  spaced inrun (Py.sub_class_plus space_or_nbsp (lit " ") inrun s) = true.
Proof.
  revert inrun. induction s as [|b s IH]; intros inrun;
    cbn [Py.sub_class_plus]; [reflexivity |].
  destruct (space_or_nbsp b) eqn:E.
  - destruct inrun; cbn [app]; [apply IH |].
    cbn [spaced Z.eqb Pos.eqb negb andb]. apply IH.
  - cbn [spaced]. unfold space_or_nbsp in E. apply orb_false_iff in E.
    destruct E as [-> _]. apply IH.
Qed.

Lemma collapse_fixed inrun s :
  (forall c, In c s -> c <> 160) -> spaced inrun s = true ->
  Py.sub_class_plus space_or_nbsp (lit " ") inrun s = s.
Proof.
  revert inrun. induction s as [|b s IH]; intros inrun Hc H;
    cbn [Py.sub_class_plus]; [reflexivity |].
  assert (Hb : b <> 160) by (apply Hc; now left).
  assert (Hc' : forall c, In c s -> c <> 160) by (intros c Hin; apply Hc; now right).
  cbn [spaced] in H.
  replace (space_or_nbsp b) with (b =? 32)
    by (unfold space_or_nbsp; destruct (Z.eqb_spec b 160);
        [contradiction | now rewrite orb_false_r]).
  destruct (Z.eqb_spec b 32) as [-> | N].
  - apply andb_true_iff in H. destruct H as [Hp H].
    destruct inrun; [discriminate |]. cbn [app]. now rewrite (IH true Hc' H).
  - now rewrite (IH false Hc' H).
Qed.

(** *** The line ends *)

Lemma sub_cr_lf_cons c s :
  Py.sub_cr_lf (c :: s) =
  if c =? 13
  then 10 :: Py.sub_cr_lf (match s with
                           | d :: s' => if d =? 10 then s' else s
                           | [] => []
                           end)
  else c :: Py.sub_cr_lf s.
Proof.
  cbn [Py.sub_cr_lf]. destruct (c =? 13); [| reflexivity].
  destruct s as [|d s]; [reflexivity |]. destruct (d =? 10); reflexivity.
Qed.

Lemma sub_cr_lf_props n : forall s prev, (length s <= n)%nat ->
  (forall c, In c (Py.sub_cr_lf s) -> c = 10 \/ (In c s /\ c <> 13)) /\
  (spaced prev s = true -> spaced prev (Py.sub_cr_lf s) = true).
Proof.
  induction n as [|n IH]; intros s prev Hn.
  - destruct s; [| cbn in Hn; lia]. split; [intros c [] | trivial].
  - destruct s as [|b s]; [split; [intros c [] | trivial] |].
    cbn [length] in Hn. rewrite sub_cr_lf_cons.
    destruct (Z.eqb_spec b 13) as [-> | N].
    + set (rest := match s with
                   | d :: s' => if d =? 10 then s' else s
                   | [] => []
                   end).
      assert (Hrest : (length rest <= n)%nat /\
                      (forall c, In c rest -> In c s) /\
                      (spaced false s = true -> spaced false rest = true)).
      { subst rest. destruct s as [|d s]; [cbn; split; [lia | auto] |].
        cbn [length] in Hn. destruct (Z.eqb_spec d 10) as [-> | _].
        - split; [lia |]. split; [intros c Hc; now right |].
          intros H. exact H.
        - split; [cbn [length]; lia |]. split; auto. }
      destruct Hrest as (Hl & Hin & Hsp).
      destruct (IH rest false Hl) as [IH1 IH2]. split.
      * intros c [<- | Hc]; [now left |].
        destruct (IH1 c Hc) as [-> | [H1 H2]]; [now left | right].
        split; [right; now apply Hin | assumption].
      * cbn [spaced Z.eqb Pos.eqb]. intros H. apply IH2, Hsp, H.
    + destruct (IH s (if b =? 32 then true else false) ltac:(lia)) as [IH1 IH2].
      destruct (IH s false ltac:(lia)) as [_ IH3]. split.
      * intros c [<- | Hc]; [right; split; [now left | assumption] |].
        destruct (IH1 c Hc) as [-> | [H1 H2]]; [now left | right].
        split; [now right | assumption].
      * cbn [spaced]. destruct (b =? 32).
        -- rewrite !andb_true_iff. intros [Hp H]. split; [assumption |].
           now apply IH2.
        -- apply IH3.
Qed.

Lemma sub_cr_lf_In s c :
  In c (Py.sub_cr_lf s) -> c = 10 \/ (In c s /\ c <> 13).
Proof. apply (proj1 (sub_cr_lf_props (length s) s false (Nat.le_refl _))). Qed.

Lemma sub_cr_lf_spaced prev s :
  spaced prev s = true -> spaced prev (Py.sub_cr_lf s) = true.
Proof. apply (proj2 (sub_cr_lf_props (length s) s prev (Nat.le_refl _))). Qed.

Lemma sub_cr_lf_fixed s : (forall c, In c s -> c <> 13) -> Py.sub_cr_lf s = s.
Proof.
  induction s as [|b s IH]; intros H; [reflexivity |].
  rewrite sub_cr_lf_cons. destruct (Z.eqb_spec b 13) as [E | _].
  - exfalso. apply (H b); [now left | assumption].
  - rewrite IH; [reflexivity |]. intros c Hc. apply H. now right.
Qed.

(** *** The trimming *)

Lemma drop_while_split f s : exists pre, s = pre ++ Py.drop_while f s.
Proof.
  induction s as [|c s [pre IH]]; [now exists [] |]. cbn [Py.drop_while].
  destruct (f c); [| now exists []].
  exists (c :: pre). cbn [app]. now rewrite <- IH.
Qed.

Lemma drop_while_head f s :
  match Py.drop_while f s with
  | [] => True
  | c :: _ => f c = false
  end.
Proof.
  induction s as [|c s IH]; [exact I |]. cbn [Py.drop_while].
  destruct (f c) eqn:E; [exact IH | exact E].
Qed.

Lemma rstrip_split s : exists post, s = Py.rstrip s ++ post.
Proof.
  unfold Py.rstrip. destruct (drop_while_split Py.isspace (rev s)) as [pre E].
  exists (rev pre). rewrite <- rev_app_distr, <- E. symmetry. apply rev_involutive.
Qed.

Lemma strip_split s : exists pre post, s = pre ++ Py.strip s ++ post.
Proof.
  unfold Py.strip. destruct (drop_while_split Py.isspace s) as [pre E].
  destruct (rstrip_split (Py.lstrip s)) as [post E'].
  exists pre, post. unfold Py.lstrip in *. now rewrite <- E'.
Qed.

Lemma spaced_app_l prev a b : spaced prev (a ++ b) = true -> spaced prev a = true.
Proof.
  revert prev. induction a as [|c a IH]; intros prev; [reflexivity |].
  cbn [app spaced]. destruct (c =? 32); [| apply IH].
  rewrite !andb_true_iff. intros [Hp H]. split; [assumption | now apply IH].
Qed.

Lemma spaced_app_r prev a b : spaced prev (a ++ b) = true -> spaced false b = true.
Proof.
  revert prev. induction a as [|c a IH]; intros prev; [apply spaced_weaken |].
  cbn [app spaced]. destruct (c =? 32); [| apply IH].
  rewrite andb_true_iff. intros [_ H]. now apply IH in H.
Qed.

Lemma strip_starts_ok s : starts_ok (Py.strip s).
Proof.
  unfold Py.strip. destruct (rstrip_split (Py.lstrip s)) as [post E].
  pose proof (drop_while_head Py.isspace s) as H. fold (Py.lstrip s) in H.
  destruct (Py.rstrip (Py.lstrip s)) as [|c r]; [exact I |].
  rewrite E in H. exact H.
Qed.

Lemma rstrip_ends_ok s : ends_ok (Py.rstrip s).
Proof.
  unfold Py.rstrip. pose proof (drop_while_head Py.isspace (rev s)) as H.
  destruct (Py.drop_while Py.isspace (rev s)) as [|c d]; [now left |].
  right. cbn [rev]. now rewrite last_last.
Qed.

Lemma lstrip_fixed t : starts_ok t -> Py.lstrip t = t.
Proof.
  destruct t as [|c t]; [reflexivity |]. cbn [starts_ok]. intros H.
  unfold Py.lstrip. cbn [Py.drop_while]. now rewrite H.
Qed.

Lemma rstrip_fixed t : ends_ok t -> Py.rstrip t = t.
Proof.
  intros [-> | H]; [reflexivity |]. unfold Py.rstrip.
  destruct t as [|c t]; [reflexivity |].
  rewrite (app_removelast_last 0 (l := c :: t)) at 1 by discriminate.
  rewrite rev_app_distr. cbn [rev app Py.drop_while]. rewrite H.
  change (last (c :: t) 0 :: rev (removelast (c :: t)))
    with (rev [last (c :: t) 0] ++ rev (removelast (c :: t))).
  rewrite <- rev_app_distr, rev_involutive. symmetry.
  apply app_removelast_last. discriminate.
Qed.

Lemma strip_fixed t : starts_ok t -> ends_ok t -> Py.strip t = t.
Proof.
  intros H1 H2. unfold Py.strip. rewrite (lstrip_fixed t H1).
  now apply rstrip_fixed.
Qed.

(** *** The steps together *)

Lemma whitespace_steps_In x c :
  In c (whitespace_steps x) ->
  (In c x \/ c = 32 \/ c = 10) /\ c <> 9 /\ c <> 13 /\ c <> 160.
Proof.
  unfold whitespace_steps. intros H.
  destruct (strip_split
              (Py.sub_cr_lf
                 (Py.sub_class_plus space_or_nbsp (lit " ") false
                    (Py.replace [9] (lit " ") x)))) as (pre & post & E).
  assert (H1 : In c (Py.sub_cr_lf
                 (Py.sub_class_plus space_or_nbsp (lit " ") false
                    (Py.replace [9] (lit " ") x)))).
  { rewrite E. apply in_app_iff. right. apply in_app_iff. now left. }
  apply sub_cr_lf_In in H1. destruct H1 as [-> | [H1 N13]].
  { split; [auto |]. repeat split; discriminate. }
  apply collapse_In in H1. destruct H1 as [-> | [H1 Hs]].
  { split; [auto |]. repeat split; discriminate. }
  assert (N160 : c <> 160).
  { intros ->. discriminate Hs. }
  apply replace_char_In in H1. destruct H1 as [[<- | []] | [H1 N9]].
  { discriminate Hs. }
  split; [now left |]. repeat split; assumption.
Qed.

Lemma whitespace_steps_normal x : normal (whitespace_steps x).
Proof.
  split; [intros c Hc; apply (whitespace_steps_In x c Hc) |].
  unfold whitespace_steps.
  set (d := Py.sub_cr_lf
              (Py.sub_class_plus space_or_nbsp (lit " ") false
                 (Py.replace [9] (lit " ") x))).
  split; [| split; [apply strip_starts_ok | apply rstrip_ends_ok]].
  assert (Hd : spaced false d = true)
    by (apply sub_cr_lf_spaced, collapse_spaced).
  destruct (strip_split d) as (pre & post & E). rewrite E in Hd.
  apply spaced_app_r in Hd. now apply spaced_app_l in Hd.
Qed.

(** On a text in normal form the white space steps change nothing. *)
Lemma normal_fixed t : normal t -> whitespace_steps t = t.
Proof.
  intros (Hc & Hs & H1 & H2). unfold whitespace_steps.
  rewrite replace_char_absent
    by (intros H; destruct (Hc 9 H) as [N _]; now apply N).
  rewrite collapse_fixed;
    [| intros c H; now destruct (Hc c H) as (_ & _ & N) | assumption].
  rewrite sub_cr_lf_fixed by (intros c H; now destruct (Hc c H) as (_ & N & _)).
  now apply strip_fixed.
Qed.

Lemma simple_normalize_steps x :
  simple_normalize x
  = Py.replace_go quote_pattern dquote O (whitespace_steps x).
Proof.
  unfold simple_normalize. rewrite replace_char_same. reflexivity.
Qed.

Lemma simple_normalize_normal x : normal (simple_normalize x).
Proof.
  rewrite simple_normalize_steps.
  destruct (whitespace_steps_normal x) as (Hc & Hs & H1 & H2).
  split; [| split; [| split]].
  - intros c H. apply replace_go_In in H. destruct H as [[<- | []] | H].
    + repeat split; discriminate.
    + now apply Hc.
  - apply (replace_go_spaced quote_pattern 34 _ ltac:(discriminate) O false Hs).
  - now apply replace_go_starts_ok.
  - now apply replace_go_ends_ok.
Qed.

Lemma spaced_no_pair prev pre post :
  spaced prev (pre ++ 32 :: 32 :: post) = false.
Proof.
  revert prev. induction pre as [|c pre IH]; intros prev.
  - cbn [app spaced Z.eqb Pos.eqb negb andb]. apply andb_false_r.
  - cbn [app spaced]. destruct (c =? 32); [| apply IH].
    rewrite IH. apply andb_false_r.
Qed.

End NormalizeFacts.

(** X1.  The normalized text holds no tab, no carriage return and no
    no-break space, nowhere two spaces in a row, and no white space at
    either end. *)
Theorem simple_normalize_shape (x : Py.str) :
  (forall c, In c (simple_normalize x) -> c <> 9 /\ c <> 13 /\ c <> 160) /\
  (forall pre post, simple_normalize x <> pre ++ 32 :: 32 :: post) /\
  Py.strip (simple_normalize x) = simple_normalize x.
Proof.
  destruct (NormalizeFacts.simple_normalize_normal x) as (Hc & Hs & H1 & H2).
  split; [exact Hc |]. split.
  - intros pre post E. rewrite E, NormalizeFacts.spaced_no_pair in Hs.
    discriminate Hs.
  - now apply NormalizeFacts.strip_fixed.
Qed.

(** X2.  A second pass of the normalizer changes its result exactly when the
    result holds the text that line 104 searches for. *)
Theorem simple_normalize_twice (x : Py.str) :
  simple_normalize (simple_normalize x) = simple_normalize x
  <-> Py.contains quote_pattern (simple_normalize x) = false.
Proof.
  rewrite (NormalizeFacts.simple_normalize_steps (simple_normalize x)).
  rewrite (NormalizeFacts.normal_fixed _ (NormalizeFacts.simple_normalize_normal x)).
  split.
  - intros E. destruct (Py.contains quote_pattern (simple_normalize x)) eqn:C;
      [| reflexivity].
    apply (NormalizeFacts.replace_go_shorter quote_pattern dquote) in C;
      [| vm_compute; lia].
    rewrite E in C. lia.
  - apply NormalizeFacts.replace_go_absent.
Qed.

(** X3.  On a text without a quotation mark the normalizer does its white
    space steps and nothing else, and a second pass changes nothing. *)
Theorem simple_normalize_no_quote (x : Py.str) (Hx : ~ In 34 x) :
  simple_normalize x = whitespace_steps x /\
  simple_normalize (simple_normalize x) = simple_normalize x.
Proof.
  assert (Hw : forall t, ~ In 34 t ->
                 Py.replace_go quote_pattern dquote O t = t).
  { intros t Ht. apply NormalizeFacts.replace_go_absent.
    destruct (Py.contains quote_pattern t) eqn:C; [| reflexivity].
    exfalso. apply Ht. apply (NormalizeFacts.contains_In quote_pattern); [| exact C].
    vm_compute. tauto. }
  assert (E : simple_normalize x = whitespace_steps x).
  { rewrite NormalizeFacts.simple_normalize_steps. apply Hw.
    intros H. apply NormalizeFacts.whitespace_steps_In in H.
    destruct H as [[H | [H | H]] _]; [contradiction | discriminate | discriminate]. }
  split; [exact E |].
  rewrite (NormalizeFacts.simple_normalize_steps (simple_normalize x)).
  rewrite (NormalizeFacts.normal_fixed _ (NormalizeFacts.simple_normalize_normal x)).
  apply Hw. rewrite E.
  intros H. apply NormalizeFacts.whitespace_steps_In in H.
  destruct H as [[H | [H | H]] _]; [contradiction | discriminate | discriminate].
Qed.

(** ** Words and languages *)

Module WordFacts.

Lemma take_while_length f s : (length (Py.take_while f s) <= length s)%nat.
Proof.
  induction s as [|c s IH]; cbn [Py.take_while length]; [lia |].
  destruct (f c); cbn [length]; lia.
Qed.

Lemma skipn_take_while f s :
  skipn (length (Py.take_while f s)) s = Py.drop_while f s.
Proof.
  induction s as [|c s IH]; [reflexivity |]. cbn [Py.take_while Py.drop_while].
  destruct (f c); [cbn [length skipn]; exact IH | reflexivity].
Qed.

Section Words.

Variable unicode_alnum : Z -> bool.

(** Two matches of [\w+] are at least one character apart. *)
Lemma findall_words_bound s :
  (2 * length (findall_words unicode_alnum O s) <= length s + 1)%nat /\
  forall k, (k <= length s)%nat ->
    match skipn k s with
    | [] => True
    | c :: _ => is_word unicode_alnum c = false
    end ->
    (2 * length (findall_words unicode_alnum k s) + k <= length s)%nat.
Proof.
  induction s as [|c s [IHa IHc]]; [split; [cbn; lia |] |].
  - intros k Hk _. cbn in Hk. assert (k = O) by lia. subst. cbn. lia.
  - split.
    + cbn [findall_words]. destruct (is_word unicode_alnum c) eqn:E.
      * cbn [Py.take_while]. rewrite E. cbn [length Nat.pred].
        pose proof (take_while_length (is_word unicode_alnum) s) as Hl.
        specialize (IHc _ Hl). rewrite skipn_take_while in IHc.
        pose proof (NormalizeFacts.drop_while_head (is_word unicode_alnum) s) as Hd.
        specialize (IHc Hd). lia.
      * cbn [length]. lia.
    + intros k Hk H. cbn [length] in Hk. destruct k as [|k].
      * cbn [skipn] in H. cbn [findall_words]. rewrite H. cbn [length]. lia.
      * cbn [skipn] in H. cbn [findall_words length].
        specialize (IHc k ltac:(lia) H). lia.
Qed.

Lemma findall_words_none s :
  findall_words unicode_alnum O s = []
  <-> forall c, In c s -> is_word unicode_alnum c = false.
Proof.
  induction s as [|c s IH]; [split; [intros _ c [] | reflexivity] |].
  cbn [findall_words]. destruct (is_word unicode_alnum c) eqn:E.
  - split; [discriminate |]. intros H. rewrite (H c (or_introl eq_refl)) in E.
    discriminate.
  - rewrite IH. split.
    + intros H x [<- | Hx]; auto.
    + intros H x Hx. apply H. now right.
Qed.

End Words.

End WordFacts.

Section MoreText.

Variable unicode_alnum : Z -> bool.
Variable unicode_lower : Z -> Py.str.

(** X5.  The word count of the metadata is at most half the character count,
    rounded up, and it is 0 exactly when the cleaned text holds no word
    character. *)
Theorem word_count_bound (now raw_text : Py.str) :
  let cleaned := fst (tps_ai_clean unicode_alnum unicode_lower now raw_text) in
  let meta := snd (tps_ai_clean unicode_alnum unicode_lower now raw_text) in
  char_count meta = Z.of_nat (length cleaned) /\
  0 <= 2 * word_count meta <= char_count meta + 1 /\
  (word_count meta = 0
   <-> forall c, In c cleaned -> is_word unicode_alnum c = false).
Proof.
  cbv zeta. unfold tps_ai_clean. cbn [fst snd char_count word_count].
  split; [reflexivity |].
  destruct (WordFacts.findall_words_bound unicode_alnum
              (simple_normalize raw_text)) as [H _].
  split; [lia |].
  rewrite <- (WordFacts.findall_words_none unicode_alnum).
  destruct (findall_words unicode_alnum 0 (simple_normalize raw_text));
    cbn [length]; split; intros E; try reflexivity; try discriminate; lia.
Qed.

End MoreText.

(** X4.  A text of ASCII characters only is guessed English. *)
Theorem ascii_guess_english (text : Py.str)
  (Hascii : Forall (fun c => c < 128) text) :
  infer_language_guess text = lit "English".
Proof.
  rewrite Forall_forall in Hascii.
  assert (H : forall cls, (forall c, c < 128 -> cls c = false) ->
                Py.search_class cls text = false).
  { intros cls Hcls. apply PyFacts.search_class_none. intros c Hc.
    apply Hcls, Hascii, Hc. }
  assert (Hone : forall cs, Forall (fun x => 128 <= x) cs ->
                   forall c, c < 128 -> Py.one_of cs c = false).
  { intros cs Hcs c Hc. destruct (Py.one_of cs c) eqn:E; [| reflexivity].
    apply one_of_In in E. rewrite Forall_forall in Hcs.
    specialize (Hcs c E). lia. }
  unfold infer_language_guess.
  rewrite (H cyrillic cyrillic_not_ascii), (H cjk cjk_not_ascii).
  rewrite (H spanish_set), (H french_set), (H german_set); [reflexivity | | |];
    apply Hone; repeat constructor; lia.
Qed.

Lemma ascii_guess_english_witness :
  infer_language_guess (lit "plain text, no accents") = lit "English".
Proof.
  apply ascii_guess_english. repeat constructor.
Defined.

(** ** The batch in full *)


Module BatchFacts.

Import PyFacts SqlFacts StoreFacts.

Section Batch.

Variable now_iso_at : nat -> Py.str.
Variable json_dumps : Meta -> Py.str.
Variable ai_clean : Py.str -> option (Py.str -> Py.str * Meta).

(** A turn of the loop on a pending row, in full. *)
Lemma process_row_step conn ok err r :
  wf conn -> In r (raw_entries conn) -> r_status r = pending ->
  let res := process_row now_iso_at json_dumps ai_clean (conn, (ok, err)) r in
  raw_entries (fst res)
  = map (set_status (verdict ai_clean r) (r_id r)) (raw_entries conn) /\
  raw_seq (fst res) = raw_seq conn /\
  cleaned_entries (fst res)
  = cleaned_entries conn
    ++ match ai_clean (r_text r) with
       | Some result => [new_entry now_iso_at json_dumps conn r result]
       | None => []
       end.
Proof.
  intros Hwf Hr Hp res. subst res.
  pose proof (pending_not_cleaned conn r Hwf Hr Hp) as Hnil.
  unfold verdict, raises, process_row.
  destruct (ai_clean (r_text r)) as [result |] eqn:E.
  - unfold now_iso, new_entry.
    cbn [clock raw_entries raw_seq cleaned_entries cleaned_seq].
    destruct (result (now_iso_at (clock conn))) as [cleaned meta].
    unfold insert_cleaned.
    cbn [clock raw_entries raw_seq cleaned_entries cleaned_seq].
    assert (E1 : existsb (fun ce => ce_raw_id ce =? r_id r) (cleaned_entries conn)
                 = false).
    { destruct (existsb _ (cleaned_entries conn)) eqn:X; [| reflexivity].
      apply existsb_exists in X. destruct X as (ce & Hce & Hid).
      apply Z.eqb_eq in Hid.
      exfalso. exact (proj1 (cleaned_for_nil conn (r_id r)) Hnil ce Hce Hid). }
    assert (E2 : existsb (fun r0 => r_id r0 =? r_id r) (raw_entries conn) = true).
    { apply existsb_exists. exists r. split; [assumption | apply Z.eqb_refl]. }
    rewrite E1, E2. cbn [negb fst snd update_status raw_entries raw_seq cleaned_entries].
    unfold update_status. cbn [fst raw_entries raw_seq cleaned_entries].
    repeat split.
  - unfold update_status. cbn [fst raw_entries raw_seq cleaned_entries].
    rewrite app_nil_r. repeat split.
Qed.

Lemma settle_by_cons r rows r0 :
  settle_by ai_clean (r :: rows) r0
  = settle_by ai_clean rows (set_status (verdict ai_clean r) (r_id r) r0).
Proof. reflexivity. Qed.

Lemma settle_by_other rows r0 :
  ~ In (r_id r0) (map r_id rows) -> settle_by ai_clean rows r0 = r0.
Proof.
  induction rows as [|r rows IH]; intros H; [reflexivity |].
  rewrite settle_by_cons, set_status_other.
  - apply IH. intros Hin. apply H. now right.
  - intros E. apply H. left. now symmetry.
Qed.

(** The [UPDATE]s of the batch on a row of the table: the statuses of the
    rows of the batch are set, the other rows are left alone. *)
Lemma settle_by_spec (l rows : list RawEntry) r0 :
  NoDup (map r_id l) -> NoDup (map r_id rows) ->
  (forall r, In r rows -> In r l /\ r_status r = pending) ->
  In r0 l ->
  settle_by ai_clean rows r0
  = if existsb (fun r => r_id r =? r_id r0) rows
    then settle ai_clean r0 else r0.
Proof.
  intros Hl. induction rows as [|r rows IH]; intros Hnd Hrows H0;
    [reflexivity |].
  inversion Hnd as [|? ? Hfresh Hnd']; subst.
  assert (Hrows' : forall r, In r rows -> In r l /\ r_status r = pending)
    by (intros x Hx; apply Hrows; now right).
  destruct (Hrows r (or_introl eq_refl)) as [Hr Hp].
  cbn [existsb]. rewrite settle_by_cons.
  destruct (Z.eqb_spec (r_id r) (r_id r0)) as [E | N].
  - assert (r = r0) by (now apply (same_id_same_row l)). subst r0.
    cbn [orb]. unfold set_status. rewrite Z.eqb_refl.
    rewrite settle_by_other by exact Hfresh.
    unfold settle. rewrite Hp, eqb_refl. reflexivity.
  - cbn [orb]. rewrite set_status_other by congruence.
    apply IH; assumption.
Qed.

(** The loop over pending rows with distinct ids, in full. *)
Lemma process_rows_shape rows : forall conn ok err,
  wf conn -> NoDup (map r_id rows) ->
  (forall r, In r rows -> In r (raw_entries conn) /\ r_status r = pending) ->
  let res := fold_left (process_row now_iso_at json_dumps ai_clean) rows
                       (conn, (ok, err)) in
  raw_entries (fst res) = map (settle_by ai_clean rows) (raw_entries conn) /\
  raw_seq (fst res) = raw_seq conn /\
  exists news,
    cleaned_entries (fst res) = cleaned_entries conn ++ news /\
    map ce_raw_id news
    = map r_id (filter (fun r => negb (raises ai_clean r)) rows) /\
    Forall (fun ce => exists r, In r rows /\
                        cleaned_from now_iso_at json_dumps ai_clean r ce) news.
Proof.
  induction rows as [|r rows IH]; intros conn ok err Hwf Hnd Hrows res.
  - subst res. cbn [fold_left fst]. split.
    + unfold settle_by. cbn [fold_left]. symmetry. apply map_id.
    + split; [reflexivity |]. exists []. rewrite app_nil_r.
      repeat split. constructor.
  - subst res. cbn [fold_left].
    inversion Hnd as [|? ? Hfresh Hnd']; subst.
    destruct (Hrows r (or_introl eq_refl)) as [Hr Hp].
    pose proof (process_row_spec now_iso_at json_dumps ai_clean
                  conn ok err r Hwf Hr Hp) as Hspec.
    pose proof (process_row_step conn ok err r Hwf Hr Hp) as Hstep.
    cbv zeta in Hspec, Hstep.
    destruct (process_row now_iso_at json_dumps ai_clean (conn, (ok, err)) r)
      as [conn1 [ok1 err1]].
    cbn [fst snd] in Hspec, Hstep.
    destruct Hspec as (Hwf1 & Hraw1 & _).
    destruct Hstep as (Eraw & Eseq & Ecl).
    assert (Hrows1 : forall r2, In r2 rows ->
                       In r2 (raw_entries conn1) /\ r_status r2 = pending).
    { intros r2 H2. destruct (Hrows r2 (or_intror H2)) as [Hin2 Hp2].
      split; [| assumption]. apply Hraw1; [assumption |].
      intros Heq. apply Hfresh. rewrite <- Heq. now apply in_map. }
    specialize (IH conn1 ok1 err1 Hwf1 Hnd' Hrows1). cbv zeta in IH.
    destruct IH as (IHraw & IHseq & news & IHcl & IHids & IHfrom).
    split.
    { rewrite IHraw, Eraw, map_map. apply map_ext. intros r0.
      now rewrite settle_by_cons. }
    split; [congruence |].
    exists (match ai_clean (r_text r) with
            | Some result => [new_entry now_iso_at json_dumps conn r result]
            | None => []
            end ++ news).
    split; [rewrite IHcl, Ecl; symmetry; apply app_assoc |].
    assert (Hnews : Forall (fun ce => exists r0, In r0 (r :: rows) /\
                       cleaned_from now_iso_at json_dumps ai_clean r0 ce) news).
    { rewrite Forall_forall in *. intros ce Hce.
      destruct (IHfrom ce Hce) as (r0 & H0 & Hfrom).
      exists r0. split; [now right | assumption]. }
    cbn [filter]. unfold raises at 1.
    destruct (ai_clean (r_text r)) as [result |] eqn:E; cbn [negb app map].
    + split; [cbn [new_entry ce_raw_id]; now rewrite IHids |].
      constructor; [| assumption].
      exists r. split; [now left |]. split; [reflexivity |].
      exists result, (clock conn). rewrite E. repeat split.
    + split; assumption.
Qed.

(** The batch on a well-formed store, in full: the pending rows get their
    new status, and the cleaned entries of the rows that went through are
    added at the end, in the order of the rows. *)
Lemma process_pending_shape conn :
  wf conn ->
  let res := process_pending now_iso_at json_dumps ai_clean conn in
  raw_entries (fst res) = map (settle ai_clean) (raw_entries conn) /\
  raw_seq (fst res) = raw_seq conn /\
  exists news,
    cleaned_entries (fst res) = cleaned_entries conn ++ news /\
    map ce_raw_id news
    = map r_id (filter (fun r => negb (raises ai_clean r))
                       (select_pending conn)) /\
    Forall (fun ce => exists r, In r (select_pending conn) /\
                        cleaned_from now_iso_at json_dumps ai_clean r ce) news.
Proof.
  intros Hwf res. subst res. unfold process_pending.
  rewrite (select_pending_rows conn Hwf).
  set (rows := filter (fun r => Py.eqb (r_status r) pending) (raw_entries conn)).
  assert (Hin : forall r, In r rows ->
                  In r (raw_entries conn) /\ r_status r = pending).
  { intros r Hr. apply filter_In in Hr.
    destruct Hr as [Hr Hp]. now apply eqb_eq in Hp. }
  assert (Hnd : NoDup (map r_id rows))
    by (apply sorted_NoDup, sorted_filter, Hwf).
  pose proof (process_rows_shape rows conn 0 0 Hwf Hnd Hin) as H.
  cbv zeta in H. destruct H as (Hraw & Hseq & Hnews).
  split; [| split; assumption].
  rewrite Hraw. apply map_ext_in. intros r0 H0.
  rewrite (settle_by_spec (raw_entries conn) rows r0
             (wf_raw_NoDup _ Hwf) Hnd Hin H0).
  destruct (existsb (fun r => r_id r =? r_id r0) rows) eqn:E; [reflexivity |].
  unfold settle. destruct (Py.eqb (r_status r0) pending) eqn:Ep; [| reflexivity].
  exfalso. assert (Hex : existsb (fun r => r_id r =? r_id r0) rows = true).
  { apply existsb_exists. exists r0. split; [| apply Z.eqb_refl].
    apply filter_In. split; assumption. }
  congruence.
Qed.

Lemma settle_not_pending r :
  Py.eqb (r_status (settle ai_clean r)) pending = false.
Proof.
  unfold settle. destruct (Py.eqb (r_status r) pending) eqn:E; [| exact E].
  cbn [r_status]. unfold verdict. apply eqb_neq.
  destruct status_distinct as (H1 & H2 & _).
  destruct (raises ai_clean r); congruence.
Qed.

Lemma settle_other r : r_status r <> pending -> settle ai_clean r = r.
Proof.
  intros H. unfold settle. apply eqb_neq in H. now rewrite H.
Qed.

Lemma settle_id r : r_id (settle ai_clean r) = r_id r.
Proof. unfold settle. destruct (Py.eqb (r_status r) pending); reflexivity. Qed.

Lemma settle_text r : r_text (settle ai_clean r) = r_text r.
Proof. unfold settle. destruct (Py.eqb (r_status r) pending); reflexivity. Qed.

Lemma filter_none {A B} (p : B -> bool) (f : A -> B) (l : list A) :
  (forall x, p (f x) = false) -> filter p (map f l) = [].
Proof.
  intros H. induction l as [|x l IH]; [reflexivity |].
  cbn [map filter]. now rewrite H.
Qed.

(** After the batch no row is pending. *)
Lemma select_pending_after conn :
  wf conn ->
  select_pending (fst (process_pending now_iso_at json_dumps ai_clean conn)) = [].
Proof.
  intros Hwf. unfold select_pending.
  destruct (process_pending_shape conn Hwf) as (-> & _).
  rewrite (filter_none (fun r => Py.eqb (r_status r) pending));
    [reflexivity | apply settle_not_pending].
Qed.

(** The counts of the statuses after the batch. *)
Lemma count_settled (l : list RawEntry) :
  Forall known_status l ->
  let rows := filter (fun r => Py.eqb (r_status r) pending) l in
  Z.of_nat (length (filter (fun r => Py.eqb (r_status r) processed)
                           (map (settle ai_clean) l)))
  = Z.of_nat (length (filter (fun r => Py.eqb (r_status r) processed) l))
    + count_rows (fun r => negb (raises ai_clean r)) rows /\
  Z.of_nat (length (filter (fun r => Py.eqb (r_status r) error)
                           (map (settle ai_clean) l)))
  = Z.of_nat (length (filter (fun r => Py.eqb (r_status r) error) l))
    + count_rows (raises ai_clean) rows.
Proof.
  destruct status_distinct as (D1 & D2 & D3).
  assert (N1 : Py.eqb pending processed = false) by now apply eqb_neq.
  assert (N2 : Py.eqb pending error = false) by now apply eqb_neq.
  assert (N3 : Py.eqb processed pending = false)
    by (apply eqb_neq; congruence).
  assert (N4 : Py.eqb processed error = false) by now apply eqb_neq.
  assert (N5 : Py.eqb error pending = false) by (apply eqb_neq; congruence).
  assert (N6 : Py.eqb error processed = false) by (apply eqb_neq; congruence).
  induction 1 as [|r l Hr Hl IH]; cbv zeta in *.
  - unfold count_rows. cbn. split; reflexivity.
  - destruct IH as [IH1 IH2]. cbn [map filter].
    assert (Es : r_status (settle ai_clean r)
                 = if Py.eqb (r_status r) pending
                   then verdict ai_clean r else r_status r)
      by (unfold settle; now destruct (Py.eqb (r_status r) pending)).
    rewrite Es. unfold verdict.
    destruct Hr as [E | [E | E]]; rewrite E;
      rewrite ?eqb_refl, ?N1, ?N2, ?N3, ?N4, ?N5, ?N6, ?count_rows_cons.
    + destruct (raises ai_clean r);
        rewrite ?eqb_refl, ?N1, ?N2, ?N3, ?N4, ?N5, ?N6;
        cbn [length negb]; split; lia.
    + cbn [length]. split; lia.
    + cbn [length]. split; lia.
Qed.

(** Every cleaned entry of a reachable store comes from the cleaning of
    the text of its raw entry, which is processed. *)
Lemma cleaned_provenance conn :
  reachable now_iso_at json_dumps ai_clean conn ->
  forall ce, In ce (cleaned_entries conn) ->
  exists r, In r (raw_entries conn) /\ r_status r = processed /\
            cleaned_from now_iso_at json_dumps ai_clean r ce.
Proof.
  induction 1 as [t | conn text Hreach IH | conn Hreach IH]; intros ce Hce.
  - destruct Hce.
  - destruct (IH ce Hce) as (r & Hr & Hrest).
    exists r. split; [| assumption].
    unfold add_raw, now_iso. cbn [fst raw_entries]. apply in_app_iff. now left.
  - pose proof (reachable_wf _ _ _ _ Hreach) as Hwf.
    destruct (process_pending_shape conn Hwf) as (Eraw & _ & news & Ecl & _ & Hnews).
    rewrite Eraw. rewrite Ecl in Hce. apply in_app_iff in Hce.
    destruct Hce as [Hce | Hce].
    + destruct (IH ce Hce) as (r & Hr & Hp & Hfrom).
      exists r. split; [| split; assumption].
      rewrite <- (settle_other r).
      * now apply in_map.
      * rewrite Hp. intros E. symmetry in E.
        now apply (proj1 status_distinct).
    + rewrite Forall_forall in Hnews.
      destruct (Hnews ce Hce) as (r & Hr & Hid & result & n & E & Hrest).
      rewrite (select_pending_rows conn Hwf) in Hr. apply filter_In in Hr.
      destruct Hr as [Hr Hp].
      exists (settle ai_clean r). split; [now apply in_map |].
      split.
      * unfold settle. rewrite Hp. cbn [r_status]. unfold verdict, raises.
        now rewrite E.
      * split; [now rewrite settle_id |].
        exists result, n. now rewrite settle_text.
Qed.

End Batch.

End BatchFacts.

(** ** The queries *)

Module QueryFacts.

Import PyFacts SqlFacts StoreFacts.

Lemma insert_by_last {A} (key : A -> Z) x l :
  Forall (fun y => key y < key x) l -> Sql.insert_by key x l = l ++ [x].
Proof.
  induction 1 as [|y l Hy Hl IH]; [reflexivity |]. cbn [Sql.insert_by app].
  destruct (Z.leb_spec (key x) (key y)); [lia |]. now rewrite IH.
Qed.

(** [ORDER BY id DESC] on a table in the order of its key turns it round. *)
Lemma order_by_rev {A} (id : A -> Z) l :
  StronglySorted Z.lt (map id l) -> Sql.order_by (fun x => - id x) l = rev l.
Proof.
  unfold Sql.order_by. induction l as [|x l IH]; cbn [map fold_right rev];
    intros H; [reflexivity |].
  inversion H as [|? ? Hl Hx]; subst. rewrite (IH Hl).
  apply insert_by_last. rewrite Forall_forall in *. intros y Hy.
  apply in_rev in Hy. specialize (Hx (id y) (in_map id _ _ Hy)). lia.
Qed.

Lemma filter_key_absent {A} (key : A -> Z) k l :
  ~ In k (map key l) -> filter (fun y => key y =? k) l = [].
Proof.
  induction l as [|y l IH]; cbn [map filter]; intros H; [reflexivity |].
  destruct (Z.eqb_spec (key y) k) as [E | _].
  - exfalso. apply H. now left.
  - apply IH. intros Hin. apply H. now right.
Qed.

(** The row of a primary key. *)
Lemma filter_key_unique {A} (key : A -> Z) l x :
  NoDup (map key l) -> In x l -> filter (fun y => key y =? key x) l = [x].
Proof.
  induction l as [|y l IH]; cbn [map filter]; intros Hnd Hx; [destruct Hx |].
  inversion Hnd as [|? ? Hfresh Hnd']; subst. destruct Hx as [-> | Hx].
  - rewrite Z.eqb_refl, filter_key_absent; [reflexivity | assumption].
  - destruct (Z.eqb_spec (key y) (key x)) as [E | _]; [| now apply IH].
    exfalso. apply Hfresh. rewrite E. now apply in_map.
Qed.

Lemma flat_map_singleton {A B} (f : A -> list B) (g : A -> B) l :
  (forall x, In x l -> f x = [g x]) -> flat_map f l = map g l.
Proof.
  induction l as [|x l IH]; intros H; [reflexivity |]. cbn [flat_map map].
  rewrite (H x (or_introl eq_refl)), IH; [reflexivity |].
  intros y Hy. apply H. now right.
Qed.

Lemma sorted_rev (l : list Z) : StronglySorted Z.lt l -> StronglySorted Z.gt (rev l).
Proof.
  induction 1 as [|x l Hl IH Hx]; cbn [rev]; [constructor |].
  assert (G : forall m, StronglySorted Z.gt m -> Forall (fun y => y > x) m ->
                StronglySorted Z.gt (m ++ [x])).
  { induction 1 as [|y m Hm IHm Hy]; intros Hall; cbn [app];
      [repeat constructor |].
    inversion Hall; subst. constructor; [now apply IHm |].
    apply Forall_app. split; [assumption | repeat constructor; assumption]. }
  apply G; [assumption |]. rewrite Forall_forall in *. intros y Hy.
  apply in_rev in Hy. specialize (Hx y Hy). lia.
Qed.

Lemma sorted_firstn (R : Z -> Z -> Prop) n (l : list Z) :
  StronglySorted R l -> StronglySorted R (firstn n l).
Proof.
  revert l. induction n as [|n IH]; intros l H; [constructor |].
  destruct H as [|x l Hl Hx]; cbn [firstn]; constructor; [now apply IH |].
  rewrite Forall_forall in *. intros y Hy. apply Hx.
  rewrite <- (firstn_skipn n l). apply in_app_iff. now left.
Qed.

Lemma sorted_app_gt (a b : list Z) :
  StronglySorted Z.gt (a ++ b) -> forall x y, In x a -> In y b -> y < x.
Proof.
  induction a as [|c a IH]; intros H x y Hx Hy; [destruct Hx |].
  cbn [app] in H. inversion H as [|? ? Hl Hc]; subst.
  destruct Hx as [<- | Hx]; [| now apply (IH Hl)].
  rewrite Forall_forall in Hc.
  specialize (Hc y ltac:(apply in_app_iff; now right)). lia.
Qed.

(** *** The joins *)

Lemma join_raw_single conn ce :
  wf conn -> In ce (cleaned_entries conn) ->
  exists r, In r (raw_entries conn) /\ r_id r = ce_raw_id ce /\
            join_raw conn ce = [search_row ce r].
Proof.
  intros Hwf Hce. destruct (wf_foreign_key conn Hwf ce Hce) as (r & Hr & E).
  exists r. split; [assumption |]. split; [assumption |].
  unfold join_raw. rewrite <- E.
  now rewrite (filter_key_unique r_id _ r (wf_raw_NoDup _ Hwf) Hr).
Qed.

Lemma left_join_single conn r :
  wf conn -> left_join conn r = [(r, hd_error (cleaned_for conn (r_id r)))].
Proof.
  intros Hwf. unfold left_join.
  change (filter (fun ce => ce_raw_id ce =? r_id r) (cleaned_entries conn))
    with (cleaned_for conn (r_id r)).
  pose proof (unique_at_most_one (cleaned_entries conn) (r_id r)
                (wf_unique _ Hwf)) as H.
  change (filter (fun ce => ce_raw_id ce =? r_id r) (cleaned_entries conn))
    with (cleaned_for conn (r_id r)) in H.
  destruct (cleaned_for conn (r_id r)) as [|ce [|ce' l]]; cbn [length] in H;
    [reflexivity | reflexivity | lia].
Qed.

Lemma left_join_nonempty conn r : left_join conn r <> [].
Proof.
  unfold left_join.
  destruct (filter (fun ce => ce_raw_id ce =? r_id r) (cleaned_entries conn));
    discriminate.
Qed.

(** The left join under the constraints of the DDL: one row for each raw
    entry, with its cleaned entry when it has one. *)
Lemma left_join_rows conn (l : list RawEntry) :
  wf conn ->
  flat_map (left_join conn) l
  = map (fun r => (r, hd_error (cleaned_for conn (r_id r)))) l.
Proof.
  intros Hwf. apply flat_map_singleton. intros r _.
  now apply left_join_single.
Qed.

Lemma has_clean_processed conn r :
  wf conn -> In r (raw_entries conn) ->
  (hd_error (cleaned_for conn (r_id r)) = None <-> r_status r <> processed).
Proof.
  intros Hwf Hr. pose proof (wf_link conn Hwf r Hr) as H.
  destruct (cleaned_for conn (r_id r)) as [|ce l]; cbn [hd_error].
  - split; [| reflexivity]. intros _ E. apply H in E. now apply E.
  - split; [discriminate |]. intros N. exfalso. apply N, H. discriminate.
Qed.

(** *** The listing *)

Lemma recent_window conn limit offset :
  recent_rows conn limit offset
  = limit_offset limit offset (recent_rows conn (-1) 0).
Proof. reflexivity. Qed.

Lemma recent_all_rows conn :
  wf conn ->
  recent_rows conn (-1) 0
  = rev (map (fun r => recent_row (r, hd_error (cleaned_for conn (r_id r))))
             (raw_entries conn)).
Proof.
  intros Hwf. unfold recent_rows, limit_offset.
  cbn [Z.ltb Z.compare Z.to_nat skipn].
  rewrite (left_join_rows conn _ Hwf), map_map.
  apply (order_by_rev rr_id). rewrite map_map. cbn [recent_row rr_id].
  apply Hwf.
Qed.

Lemma limit_offset_In {A} limit offset (l : list A) x :
  In x (limit_offset limit offset l) -> In x l.
Proof.
  unfold limit_offset. intros H.
  assert (H' : In x (skipn (Z.to_nat offset) l)).
  { destruct (limit <? 0); [assumption |].
    rewrite <- (firstn_skipn (Z.to_nat limit) (skipn _ l)).
    apply in_app_iff. now left. }
  rewrite <- (firstn_skipn (Z.to_nat offset) l). apply in_app_iff. now right.
Qed.

Lemma limit_offset_length {A} limit offset (l : list A) :
  0 <= limit -> Z.of_nat (length (limit_offset limit offset l)) <= limit.
Proof.
  intros H. unfold limit_offset. destruct (Z.ltb_spec limit 0); [lia |].
  rewrite length_firstn. lia.
Qed.

(** *** The detail *)

Lemma detail_rows_row conn r :
  wf conn -> In r (raw_entries conn) ->
  hd_error (detail_rows conn (r_id r))
  = Some (detail_row (r, hd_error (cleaned_for conn (r_id r)))).
Proof.
  intros Hwf Hr. unfold detail_rows.
  rewrite (filter_key_unique r_id _ r (wf_raw_NoDup _ Hwf) Hr).
  cbn [flat_map]. rewrite (left_join_single conn r Hwf). reflexivity.
Qed.

Lemma detail_rows_none conn id :
  hd_error (detail_rows conn id) = None
  <-> forall r, In r (raw_entries conn) -> r_id r <> id.
Proof.
  unfold detail_rows. split.
  - intros H r Hr E.
    assert (Hin : In r (filter (fun r => r_id r =? id) (raw_entries conn)))
      by (apply filter_In; split; [assumption | now apply Z.eqb_eq]).
    destruct (filter (fun r => r_id r =? id) (raw_entries conn)) as [|x l];
      [destruct Hin |].
    cbn [flat_map] in H. pose proof (left_join_nonempty conn x) as N.
    destruct (left_join conn x); [now apply N | discriminate H].
  - intros H. rewrite (filter_key_absent r_id); [reflexivity |].
    intros Hin. apply in_map_iff in Hin. destruct Hin as (r & E & Hr).
    exact (H r Hr E).
Qed.

End QueryFacts.

Module SearchFacts.

Import PyFacts SqlFacts StoreFacts QueryFacts.

Lemma joined_ids conn (m : list CleanedEntry) :
  wf conn -> (forall ce, In ce m -> In ce (cleaned_entries conn)) ->
  map sr_id (flat_map (join_raw conn) m) = map ce_id m.
Proof.
  intros Hwf. induction m as [|ce m IH]; intros Hm; [reflexivity |].
  cbn [flat_map map]. rewrite map_app, IH by (intros x Hx; apply Hm; now right).
  destruct (join_raw_single conn ce Hwf (Hm ce (or_introl eq_refl)))
    as (r & _ & _ & ->).
  reflexivity.
Qed.

(** The search under the constraints of the DDL, for a test [hit] on the
    cleaned entries: the rows come newest first, each from a cleaned entry
    that passes the test, and an entry that passes and is left out is older
    than the 50 that are returned. *)
Lemma search_rows conn (hit : CleanedEntry -> bool) :
  wf conn ->
  let rows :=
    firstn 50
      (Sql.order_by (fun row => - sr_id row)
         (flat_map (join_raw conn) (filter hit (cleaned_entries conn)))) in
  StronglySorted Z.gt (map sr_id rows) /\
  (forall row, In row rows ->
     exists ce r, In ce (cleaned_entries conn) /\ hit ce = true /\
                  In r (raw_entries conn) /\ r_id r = ce_raw_id ce /\
                  row = search_row ce r) /\
  (forall ce, In ce (cleaned_entries conn) -> hit ce = true ->
     (exists r, In r (raw_entries conn) /\ r_id r = ce_raw_id ce /\
                In (search_row ce r) rows) \/
     (length rows = 50%nat /\ forall row, In row rows -> ce_id ce < sr_id row)).
Proof.
  intros Hwf rows.
  set (m := filter hit (cleaned_entries conn)) in *.
  set (joined := flat_map (join_raw conn) m) in *.
  assert (Hm : forall ce, In ce m -> In ce (cleaned_entries conn))
    by (intros ce Hce; now apply filter_In in Hce).
  assert (Eids : map sr_id joined = map ce_id m) by (now apply joined_ids).
  assert (Hsorted : StronglySorted Z.lt (map sr_id joined)).
  { rewrite Eids. apply sorted_filter, Hwf. }
  assert (Erows : rows = firstn 50 (rev joined)).
  { unfold rows. now rewrite (order_by_rev sr_id joined Hsorted). }
  assert (Hdesc : StronglySorted Z.gt (map sr_id (rev joined))).
  { rewrite map_rev. now apply sorted_rev. }
  split; [| split].
  - rewrite Erows, <- firstn_map. now apply sorted_firstn.
  - intros row Hrow. rewrite Erows in Hrow.
    apply LikeFacts.firstn_In in Hrow. apply in_rev in Hrow.
    apply in_flat_map in Hrow. destruct Hrow as (ce & Hce & Hrow).
    apply filter_In in Hce. destruct Hce as [Hce Hhit].
    apply join_raw_In in Hrow. destruct Hrow as (r & Hr & E & ->).
    now exists ce, r.
  - intros ce Hce Hhit.
    assert (Hcem : In ce m) by (apply filter_In; now split).
    destruct (join_raw_single conn ce Hwf Hce) as (r & Hr & E & Ej).
    assert (Hin : In (search_row ce r) (rev joined)).
    { apply in_rev. rewrite rev_involutive. apply in_flat_map.
      exists ce. split; [assumption |]. rewrite Ej. now left. }
    rewrite <- (firstn_skipn 50 (rev joined)) in Hin, Hdesc.
    rewrite <- Erows in Hin, Hdesc.
    apply in_app_iff in Hin. destruct Hin as [Hin | Hin].
    + left. now exists r.
    + right. split.
      * assert (Hlen : (50 < length (rev joined))%nat).
        { destruct (Nat.le_gt_cases (length (rev joined)) 50) as [Hle | Hgt];
            [| assumption].
          rewrite (skipn_all2 _ Hle) in Hin. destruct Hin. }
        rewrite Erows, length_firstn. lia.
      * intros row Hrow. rewrite map_app in Hdesc.
        apply (sorted_app_gt _ _ Hdesc (sr_id row) (sr_id (search_row ce r))).
        -- now apply in_map.
        -- now apply in_map.
Qed.

End SearchFacts.

Module AppFacts.

Import PyFacts SqlFacts StoreFacts BatchFacts QueryFacts.



Lemma firstn_add {A} a b (l : list A) :
  firstn (a + b) l = firstn a l ++ firstn b (skipn a l).
Proof.
  revert l. induction a as [|a IH]; intros l; [reflexivity |].
  destruct l as [|x l]; [now rewrite !firstn_nil |].
  cbn [Nat.add firstn skipn app]. now rewrite IH.
Qed.

(** The pages of a listing, put one after the other. *)
Lemma pages_concat {A} (k m : nat) (l : list A) :
  concat (map (fun i => firstn k (skipn (i * k) l)) (seq 0 m))
  = firstn (m * k) l.
Proof.
  induction m as [|m IH]; [reflexivity |].
  rewrite seq_S, map_app, concat_app, IH. cbn [map concat Nat.add].
  rewrite app_nil_r, <- firstn_add. f_equal. lia.
Qed.

Lemma recent_all_length conn :
  wf conn -> length (recent_rows conn (-1) 0) = length (raw_entries conn).
Proof.
  intros Hwf. now rewrite (recent_all_rows conn Hwf), length_rev, length_map.
Qed.

(** The page of [browse] when the offset is one SQLite holds. *)
Lemma browse_in_range conn page :
  sqlite_int ((page - 1) * per_page) = true ->
  browse conn page
  = {| bp_entries :=
         firstn 20 (skipn (Z.to_nat ((page - 1) * 20))
                          (recent_rows conn (-1) 0));
       bp_page := page;
       bp_total_pages := (Z.of_nat (length (raw_entries conn)) + 19) / 20;
       bp_has_prev := 1 <? page;
       bp_has_next :=
         page <? (Z.of_nat (length (raw_entries conn)) + 19) / 20;
       bp_total := Z.of_nat (length (raw_entries conn)) |}.
Proof.
  intros H. unfold browse, recent. rewrite H.
  change (sqlite_int per_page) with true. cbn [andb].
  unfold count_stats, count_where. rewrite filter_true. unfold per_page.
  replace (Z.of_nat (length (raw_entries conn)) + 20 - 1)
    with (Z.of_nat (length (raw_entries conn)) + 19) by lia.
  reflexivity.
Qed.

Lemma sqlite_int_iff n :
  sqlite_int n = true
  <-> - 9223372036854775808 <= n <= 9223372036854775807.
Proof. unfold sqlite_int. rewrite andb_true_iff, !Z.leb_le. reflexivity. Qed.

Lemma page_nonempty {A} (l : list A) p :
  1 <= p ->
  (firstn 20 (skipn (Z.to_nat ((p - 1) * 20)) l) <> []
   <-> p <= (Z.of_nat (length l) + 19) / 20).
Proof.
  intros Hp.
  assert (E : p <= (Z.of_nat (length l) + 19) / 20
              <-> (Z.to_nat ((p - 1) * 20) < length l)%nat).
  { pose proof (Z.div_mod (Z.of_nat (length l) + 19) 20 ltac:(lia)) as D.
    pose proof (Z.mod_pos_bound (Z.of_nat (length l) + 19) 20 ltac:(lia)) as B.
    split; intros H; lia. }
  rewrite E. split.
  - intros H. destruct (Nat.le_gt_cases (length l) (Z.to_nat ((p - 1) * 20)))
      as [Hle | Hgt]; [| assumption].
    rewrite (skipn_all2 _ Hle) in H. now destruct H.
  - intros H N.
    assert (Hl : length (firstn 20 (skipn (Z.to_nat ((p - 1) * 20)) l)) = O)
      by (now rewrite N).
    rewrite length_firstn, length_skipn in Hl. lia.
Qed.

End AppFacts.

Section StoreExtras.

Import PyFacts SqlFacts StoreFacts BatchFacts QueryFacts SearchFacts.

Variable now_iso_at : nat -> Py.str.
Variable json_dumps : Meta -> Py.str.
Variable ai_clean : Py.str -> option (Py.str -> Py.str * Meta).
Variable fts5_match :
  list CleanedEntry -> Py.str -> option (CleanedEntry -> bool).


(** X7.  After a batch no row is pending, and a second batch right after it
    processes nothing: it returns (0, 0) and leaves the store as it is. *)
Theorem process_pending_twice (conn : Conn)
  (Hreach : reachable now_iso_at json_dumps ai_clean conn) :
  let conn1 := fst (process_pending now_iso_at json_dumps ai_clean conn) in
  select_pending conn1 = [] /\
  process_pending now_iso_at json_dumps ai_clean conn1 = (conn1, (0, 0)).
Proof.
  apply reachable_wf in Hreach. intros conn1.
  assert (E : select_pending conn1 = [])
    by (now apply select_pending_after).
  split; [exact E |]. unfold process_pending at 1. now rewrite E.
Qed.

(** X8.  The batch leaves the total of [count_stats] as it is and adds its
    two counters to the other two counts. *)
Theorem count_stats_after_batch (conn : Conn)
  (Hreach : reachable now_iso_at json_dumps ai_clean conn) :
  let res := process_pending now_iso_at json_dumps ai_clean conn in
  let '(total, processed_n, errors) := count_stats conn in
  count_stats (fst res)
  = (total, processed_n + fst (snd res), errors + snd (snd res)).
Proof.
  apply reachable_wf in Hreach. intros res.
  destruct (process_pending_shape now_iso_at json_dumps ai_clean conn Hreach)
    as (Eraw & _).
  destruct (process_pending_spec now_iso_at json_dumps ai_clean conn Hreach)
    as (_ & _ & _ & Hok & Herr).
  fold res in Eraw, Hok, Herr.
  rewrite (select_pending_rows conn Hreach) in Hok, Herr.
  destruct (count_settled ai_clean (raw_entries conn) (wf_status _ Hreach))
    as [C1 C2].
  unfold count_stats, count_where. rewrite Eraw, Hok, Herr, C1, C2.
  rewrite !filter_true, length_map. reflexivity.
Qed.

(** X9.  Every cleaned entry of a reachable store belongs to a raw entry with
    status [processed], and it holds what the cleaner returned on the text
    of that entry: the cleaned text, the metadata as JSON, and the reading
    of the clock made after the cleaning. *)
Theorem cleaned_entry_provenance (conn : Conn) (ce : CleanedEntry)
  (Hreach : reachable now_iso_at json_dumps ai_clean conn)
  (Hce : In ce (cleaned_entries conn)) :
  exists r result n,
    In r (raw_entries conn) /\ r_id r = ce_raw_id ce /\
    r_status r = processed /\
    ai_clean (r_text r) = Some result /\
    ce_clean_text ce = fst (result (now_iso_at n)) /\
    ce_metadata_json ce = json_dumps (snd (result (now_iso_at n))) /\
    ce_created_at ce = now_iso_at (S n).
Proof.
  destruct (cleaned_provenance now_iso_at json_dumps ai_clean conn Hreach ce Hce)
    as (r & Hr & Hp & Hid & result & n & H).
  exists r, result, n. repeat (split; [easy |]). easy.
Qed.

(** X11.  For an id that SQLite holds, [get_entry_detail] returns Python's
    [None] exactly when no raw entry has the id; for the id of a raw entry
    it returns the columns of that entry, with the columns of its cleaned
    entry when the entry is processed and with nulls there otherwise.  On
    an id beyond that range, and only there, it raises. *)
Theorem get_entry_detail_spec (conn : Conn) (id : Z)
  (Hreach : reachable now_iso_at json_dumps ai_clean conn) :
  (get_entry_detail conn id = None <-> sqlite_int id = false) /\
  (get_entry_detail conn id = Some None
   <-> sqlite_int id = true /\
       forall r, In r (raw_entries conn) -> r_id r <> id) /\
  forall r, In r (raw_entries conn) -> r_id r = id -> sqlite_int id = true ->
    exists o,
      get_entry_detail conn id = Some (Some (detail_row (r, o))) /\
      match o with
      | Some ce =>
        In ce (cleaned_entries conn) /\ ce_raw_id ce = id /\
        r_status r = processed
      | None => r_status r <> processed
      end.
Proof.
  apply reachable_wf in Hreach. unfold get_entry_detail.
  split; [destruct (sqlite_int id); split; congruence |]. split.
  - destruct (sqlite_int id).
    + rewrite <- detail_rows_none. split.
      * intros H. injection H as H. now split.
      * intros [_ H]. now rewrite H.
    + split; [discriminate | intros [H _]; discriminate H].
  - intros r Hr <- Hid. rewrite Hid.
    exists (hd_error (cleaned_for conn (r_id r))).
    split; [now rewrite detail_rows_row |].
    pose proof (has_clean_processed conn r Hreach Hr) as H.
    pose proof (wf_link conn Hreach r Hr) as L.
    destruct (cleaned_for conn (r_id r)) as [|ce l] eqn:E; cbn [hd_error] in *.
    + now apply H.
    + assert (Hin : In ce (cleaned_for conn (r_id r))) by (rewrite E; now left).
      apply cleaned_for_In in Hin. destruct Hin as [Hin Hid'].
      split; [assumption |]. split; [assumption |]. apply L. discriminate.
Qed.


(** X12.  [recent] raises exactly when its limit or its offset is beyond
    the integers of SQLite.  With a negative limit and no offset it lists
    every raw entry once, the newest first.  Whatever the limit and the
    offset, a row of the listing shows a raw entry with its text and
    status, and its flag [has_clean] is 1 with a cleaned id when the entry
    is processed, 0 with nulls otherwise; with a limit that is not negative
    no more rows than the limit come back. *)
Theorem recent_all (conn : Conn)
  (Hreach : reachable now_iso_at json_dumps ai_clean conn) :
  (forall limit offset,
     recent conn limit offset = None
     <-> sqlite_int limit = false \/ sqlite_int offset = false) /\
  (exists rows, recent conn (-1) 0 = Some rows /\
                map rr_id rows = rev (map r_id (raw_entries conn))) /\
  (forall limit offset rows row,
     recent conn limit offset = Some rows -> In row rows ->
     exists r,
       In r (raw_entries conn) /\ rr_id row = r_id r /\
       rr_text row = r_text r /\ rr_status row = r_status r /\
       (rr_has_clean row = 1 /\ r_status r = processed /\
        rr_clean_id row <> None
        \/ rr_has_clean row = 0 /\ r_status r <> processed /\
           rr_clean_id row = None /\ rr_metadata_json row = None)) /\
  (forall limit offset rows,
     recent conn limit offset = Some rows -> 0 <= limit ->
     Z.of_nat (length rows) <= limit).
Proof.
  apply reachable_wf in Hreach.
  pose proof (recent_all_rows conn Hreach) as E.
  split; [| split; [| split]].
  - intros limit offset. unfold recent.
    destruct (sqlite_int limit), (sqlite_int offset); cbn [andb];
      split; try discriminate; try tauto; intros [H | H]; discriminate H.
  - exists (recent_rows conn (-1) 0). split; [reflexivity |].
    rewrite E, map_rev, map_map. reflexivity.
  - intros limit offset rows row Hrows Hrow. unfold recent in Hrows.
    destruct (sqlite_int limit && sqlite_int offset); [| discriminate].
    injection Hrows as <-. rewrite recent_window in Hrow.
    apply limit_offset_In in Hrow. rewrite E in Hrow. apply in_rev in Hrow.
    apply in_map_iff in Hrow. destruct Hrow as (r & <- & Hr).
    exists r. split; [assumption |]. cbn [recent_row rr_id rr_text rr_status].
    repeat (split; [reflexivity |]).
    pose proof (has_clean_processed conn r Hreach Hr) as H.
    pose proof (wf_link conn Hreach r Hr) as L.
    cbn [rr_has_clean rr_clean_id rr_metadata_json].
    destruct (hd_error (cleaned_for conn (r_id r))) as [ce |] eqn:Eo.
    + left. split; [reflexivity |]. split; [| discriminate].
      apply L. intros N. rewrite N in Eo. discriminate Eo.
    + right. split; [reflexivity |]. split; [now apply H |].
      split; reflexivity.
  - intros limit offset rows Hrows Hl. unfold recent in Hrows.
    destruct (sqlite_int limit && sqlite_int offset); [| discriminate].
    injection Hrows as <-. rewrite recent_window.
    now apply limit_offset_length.
Qed.


End StoreExtras.

Section EndToEnd.

Import PyFacts SqlFacts StoreFacts BatchFacts QueryFacts SearchFacts.

Variable now_iso_at : nat -> Py.str.
Variable json_dumps : Meta -> Py.str.
Variable unicode_alnum : Z -> bool.
Variable unicode_lower : Z -> Py.str.
Variable fts5_match :
  list CleanedEntry -> Py.str -> option (CleanedEntry -> bool).

(** X14.  With the cleaner of the program, a processed entry is found by
    the fallback search for any text without wildcards and lone surrogates,
    short enough for [LIKE], that occurs, up to the case of the letters of
    ASCII, in the normalized text of the entry read up to its first NUL;
    the row shows that normalized text.  It is left out only when the 50
    rows returned show other entries. *)
Theorem search_finds_processed (conn : Conn) (r : RawEntry) (query : Py.str)
  (Hreach : reachable now_iso_at json_dumps
              (tps_clean_call unicode_alnum unicode_lower) conn)
  (Hr : In r (raw_entries conn))
  (Hp : r_status r = processed)
  (Hplain : plain_query query)
  (Henc : encodable query = true)
  (Hlen : utf8_length query + 2 <= Sql.like_pattern_limit)
  (Hq : contains_nocase query (Sql.c_string (simple_normalize (r_text r)))) :
  exists rows,
    search_clean fts5_match conn query false = Some rows /\
    ((exists row, In row rows /\ sr_raw_id row = r_id r /\
                  sr_clean_text row = simple_normalize (r_text r)) \/
     (length rows = 50%nat /\
      forall row, In row rows -> sr_raw_id row <> r_id r)).
Proof.
  pose proof (reachable_wf _ _ _ _ Hreach) as Hwf.
  assert (Hnul : ~ In 0 query).
  { destruct Hq as (pre & mid & post & E & Hm).
    apply (LikeFacts.like_fold_nul mid query Hm).
    intros H. apply (LikeFacts.c_string_no_nul (simple_normalize (r_text r))).
    rewrite E. apply in_app_iff. right. apply in_app_iff. now left. }
  rewrite (LikeFacts.search_clean_short fts5_match conn query Henc Hlen).
  unfold select_cleaned.
  set (hit := fun ce => Sql.pattern_compare
                          (Sql.c_string (lit "%" ++ query ++ lit "%"))
                          (Sql.c_string (ce_clean_text ce))).
  set (rows := firstn 50 _). exists rows. split; [reflexivity |].
  assert (Hex : exists ce, In ce (cleaned_entries conn) /\ ce_raw_id ce = r_id r).
  { pose proof (proj1 (wf_link conn Hwf r Hr) Hp) as N.
    destruct (cleaned_for conn (r_id r)) as [|ce l] eqn:E; [now destruct N |].
    exists ce. apply cleaned_for_In. rewrite E. now left. }
  destruct Hex as (ce & Hce & Hid).
  destruct (cleaned_provenance _ _ _ conn Hreach ce Hce)
    as (r' & Hr' & _ & Hid' & result & n & Hres & Htext & _).
  assert (r' = r).
  { apply (same_id_same_row _ r' r (wf_raw_NoDup _ Hwf) Hr' Hr). congruence. }
  subst r'. unfold tps_clean_call in Hres. injection Hres as <-.
  cbn [tps_ai_clean fst] in Htext.
  assert (Hhit : hit ce = true).
  { unfold hit. apply LikeFacts.like_contains; [assumption | assumption |].
    now rewrite Htext. }
  destruct (search_rows conn hit Hwf) as (_ & H2 & H3).
  change (firstn 50 _) with rows in H2, H3.
  destruct (H3 ce Hce Hhit) as [(r0 & _ & _ & Hin) | [Hlen' Hall]].
  - left. exists (search_row ce r0). split; [assumption |].
    cbn [search_row sr_raw_id sr_clean_text]. split; assumption.
  - right. split; [assumption |]. intros row Hrow Eq.
    specialize (Hall row Hrow).
    destruct (H2 row Hrow) as (ce' & r1 & Hce' & _ & _ & _ & ->).
    cbn [search_row sr_raw_id sr_id] in *.
    assert (ce' = ce).
    { pose proof (wf_unique conn Hwf) as Hu.
      assert (G : forall l : list CleanedEntry, NoDup (map ce_raw_id l) ->
                    In ce' l -> In ce l -> ce_raw_id ce' = ce_raw_id ce ->
                    ce' = ce).
      { induction l as [|x l IHl]; cbn [map]; intros Hnd Ha Hb Ek;
          [destruct Ha |].
        inversion Hnd as [|? ? Hn Hl]; subst.
        destruct Ha as [<- | Ha], Hb as [<- | Hb]; auto.
        - exfalso. apply Hn. rewrite Ek. now apply in_map.
        - exfalso. apply Hn. rewrite <- Ek. now apply in_map. }
      apply (G _ Hu Hce' Hce). congruence. }
    subst ce'. lia.
Qed.

End EndToEnd.

(** ** The routes *)

Section AppExtras.

Import PyFacts SqlFacts StoreFacts BatchFacts QueryFacts AppFacts.

Variable now_iso_at : nat -> Py.str.
Variable json_dumps : Meta -> Py.str.
Variable ai_clean : Py.str -> option (Py.str -> Py.str * Meta).

(** X15.  The pages of [browse], for page numbers whose offsets SQLite
    holds.  The total is the number of raw entries; a page from 1 on shows
    entries exactly when its number is at most [total_pages]; the link to
    the next page is offered exactly when the next page shows entries; and
    the pages 1 to [total_pages], one after the other, are the whole
    listing, newest first. *)
Theorem browse_pages (conn : Conn) (page : Z)
  (Hreach : reachable now_iso_at json_dumps ai_clean conn)
  (Hpage : 0 <= page)
  (Hfit : sqlite_int (page * per_page) = true) :
  let b := browse conn page in
  bp_total b = Z.of_nat (length (raw_entries conn)) /\
  (bp_has_next b = true <-> bp_entries (browse conn (page + 1)) <> []) /\
  (forall p, 1 <= p -> sqlite_int ((p - 1) * per_page) = true ->
     (bp_entries (browse conn p) <> [] <-> p <= bp_total_pages b)) /\
  (sqlite_int (bp_total_pages b * per_page) = true ->
   recent conn (-1) 0
   = Some (concat (map (fun p => bp_entries (browse conn (Z.of_nat p)))
                       (seq 1 (Z.to_nat (bp_total_pages b)))))).
Proof.
  apply reachable_wf in Hreach. intros b. subst b.
  pose proof (recent_all_length conn Hreach) as Hlen.
  apply sqlite_int_iff in Hfit. unfold per_page in *.
  assert (Hin : sqlite_int ((page - 1) * 20) = true)
    by (apply sqlite_int_iff; lia).
  assert (Hnext : sqlite_int ((page + 1 - 1) * 20) = true)
    by (apply sqlite_int_iff; lia).
  assert (Hnon : forall p, 1 <= p ->
            (firstn 20 (skipn (Z.to_nat ((p - 1) * 20))
                              (recent_rows conn (-1) 0)) <> []
             <-> p <= (Z.of_nat (length (raw_entries conn)) + 19) / 20)).
  { intros p Hp. rewrite <- Hlen. now apply page_nonempty. }
  rewrite (browse_in_range conn page Hin).
  cbn [bp_total bp_has_next bp_total_pages].
  split; [reflexivity |]. split; [| split].
  - rewrite (browse_in_range conn (page + 1) Hnext). cbn [bp_entries].
    rewrite (Hnon (page + 1)) by lia. rewrite Z.ltb_lt. lia.
  - intros p Hp Hp'. rewrite (browse_in_range conn p Hp'). cbn [bp_entries].
    now apply Hnon.
  - intros Hall. apply sqlite_int_iff in Hall. unfold per_page in Hall.
    pose proof (Z.div_mod (Z.of_nat (length (raw_entries conn)) + 19) 20
                  ltac:(lia)) as D.
    pose proof (Z.mod_pos_bound (Z.of_nat (length (raw_entries conn)) + 19) 20
                  ltac:(lia)) as B.
    change (recent conn (-1) 0) with (Some (recent_rows conn (-1) 0)).
    f_equal.
    rewrite (map_ext_in _
               (fun p => firstn 20 (skipn (Nat.pred p * 20)
                                          (recent_rows conn (-1) 0)))).
    + rewrite <- seq_shift, map_map. cbn [Nat.pred].
      rewrite pages_concat. symmetry. apply firstn_all2. rewrite Hlen. lia.
    + intros p Hp. apply in_seq in Hp.
      rewrite browse_in_range by (apply sqlite_int_iff; unfold per_page; lia).
      cbn [bp_entries]. do 2 f_equal. lia.
Qed.



End AppExtras.

(** X16.  A page number below 1 whose offset SQLite holds shows the first
    page, without a link to a previous page: the negative offset counts as
    no offset.  A page number whose offset SQLite cannot hold gets the page
    of the [except] branch: no entries, page 1 of 0. *)
Theorem browse_below_first (conn : Conn) (page : Z) :
  (page <= 1 -> sqlite_int ((page - 1) * per_page) = true ->
   bp_entries (browse conn page) = bp_entries (browse conn 1) /\
   bp_has_prev (browse conn page) = false) /\
  (sqlite_int ((page - 1) * per_page) = false ->
   browse conn page
   = {| bp_entries := []; bp_page := 1; bp_total_pages := 0;
        bp_has_prev := false; bp_has_next := false; bp_total := 0 |}).
Proof.
  split.
  - intros Hpage Hfit.
    rewrite (AppFacts.browse_in_range conn page Hfit).
    rewrite (AppFacts.browse_in_range conn 1 eq_refl).
    cbn [bp_entries bp_has_prev]. split.
    + do 2 f_equal. lia.
    + apply Z.ltb_ge. lia.
  - intros Hfit. unfold browse, recent. rewrite Hfit.
    now rewrite andb_false_r.
Qed.

(** ** The properties above on the example stores *)

Ltac reach_example :=
  unfold example_store, example_pending_store, example_clean_store,
         example_search_store;
  repeat first [ apply reach_process_pending
               | apply reach_add_raw
               | apply reach_empty ].

Lemma simple_normalize_no_quote_witness :
  simple_normalize (lit "a  b") = whitespace_steps (lit "a  b") /\
  simple_normalize (simple_normalize (lit "a  b")) = simple_normalize (lit "a  b").
Proof.
  apply simple_normalize_no_quote.
  intros H. repeat (destruct H as [H | H]; [discriminate H |]). exact H.
Defined.


Lemma process_pending_twice_witness :
  select_pending example_store = [] /\
  process_pending epoch no_json clean_or_raise example_store
  = (example_store, (0, 0)).
Proof.
  apply (process_pending_twice epoch no_json clean_or_raise
           example_pending_store).
  reach_example.
Defined.

Lemma count_stats_after_batch_witness :
  let res := process_pending epoch no_json clean_or_raise example_pending_store in
  let '(total, processed_n, errors) := count_stats example_pending_store in
  count_stats (fst res)
  = (total, processed_n + fst (snd res), errors + snd (snd res)).
Proof.
  apply (count_stats_after_batch epoch no_json clean_or_raise
           example_pending_store).
  reach_example.
Defined.

Lemma cleaned_entry_provenance_witness :
  exists r result n,
    In r (raw_entries example_store) /\ r_id r = 1 /\
    r_status r = processed /\
    clean_or_raise (r_text r) = Some result /\
    lit "Hello world" = fst (result (epoch n)) /\
    lit "{}" = no_json (snd (result (epoch n))) /\
    epoch 2 = epoch (S n).
Proof.
  apply (cleaned_entry_provenance epoch no_json clean_or_raise example_store
           {| ce_id := 1; ce_raw_id := 1; ce_clean_text := lit "Hello world";
              ce_metadata_json := lit "{}"; ce_created_at := epoch 2 |}).
  - reach_example.
  - vm_compute. left. reflexivity.
Defined.


Lemma get_entry_detail_spec_witness :
  get_entry_detail example_store 3 = Some None
  <-> sqlite_int 3 = true /\
      forall r, In r (raw_entries example_store) -> r_id r <> 3.
Proof.
  refine (proj1 (proj2 (get_entry_detail_spec epoch no_json clean_or_raise
                          example_store 3 _))).
  reach_example.
Defined.

Lemma recent_all_witness :
  exists rows, recent example_store (-1) 0 = Some rows /\
               map rr_id rows = rev (map r_id (raw_entries example_store)).
Proof.
  refine (proj1 (proj2 (recent_all epoch no_json clean_or_raise
                          example_store _))).
  reach_example.
Defined.


Lemma search_finds_processed_witness :
  exists rows,
    search_clean no_fts example_clean_store (lit "hello W") false = Some rows /\
    ((exists row, In row rows /\ sr_raw_id row = 1 /\
                  sr_clean_text row = simple_normalize (lit "Hello   world")) \/
     (length rows = 50%nat /\
      forall row, In row rows -> sr_raw_id row <> 1)).
Proof.
  refine (search_finds_processed epoch no_json ascii_only_alnum unchanged_lower
            no_fts example_clean_store
            {| r_id := 1; r_text := lit "Hello   world";
               r_created_at := epoch 0; r_status := processed |}
            (lit "hello W") _ _ eq_refl _ eq_refl _ _).
  - reach_example.
  - vm_compute. left. reflexivity.
  - repeat constructor; discriminate.
  - vm_compute. discriminate.
  - exists [], (lit "Hello w"), (lit "orld"). split; vm_compute; reflexivity.
Defined.

Lemma browse_pages_witness :
  bp_has_next (browse example_store 1) = true
  <-> bp_entries (browse example_store (1 + 1)) <> [].
Proof.
  refine (proj1 (proj2 (browse_pages epoch no_json clean_or_raise
                          example_store 1 _ _ _))).
  - reach_example.
  - lia.
  - vm_compute. reflexivity.
Defined.

Lemma browse_below_first_witness :
  bp_entries (browse example_store (-3)) = bp_entries (browse example_store 1) /\
  bp_has_prev (browse example_store (-3)) = false.
Proof.
  refine (proj1 (browse_below_first example_store (-3)) _ _).
  - lia.
  - vm_compute. reflexivity.
Defined.



(** ** The language of the cleaned text, and the ids *)

Module KeepFacts.

Import NormalizeFacts.

Lemma replace_char_keeps a r s c : In c s -> c <> a -> In c (Py.replace [a] r s).
Proof.
  intros Hc N. rewrite replace_char. apply in_flat_map. exists c.
  split; [assumption |]. destruct (Z.eqb_spec a c); [congruence | now left].
Qed.

Lemma collapse_keeps inrun s c :
  In c s -> space_or_nbsp c = false ->
  In c (Py.sub_class_plus space_or_nbsp (lit " ") inrun s).
Proof.
  intros Hc N. revert inrun. induction s as [|b s IH]; intros inrun;
    [destruct Hc |].
  cbn [Py.sub_class_plus]. destruct Hc as [-> | Hc].
  - rewrite N. now left.
  - destruct (space_or_nbsp b).
    + apply in_app_iff. right. now apply IH.
    + right. now apply IH.
Qed.

Lemma sub_cr_lf_keeps n : forall s c, (length s <= n)%nat ->
  In c s -> c <> 13 -> c <> 10 -> In c (Py.sub_cr_lf s).
Proof.
  induction n as [|n IH]; intros s c Hn Hc N13 N10.
  - destruct s; [destruct Hc | cbn in Hn; lia].
  - destruct s as [|b s]; [destruct Hc |]. cbn [length] in Hn.
    rewrite sub_cr_lf_cons. destruct Hc as [-> | Hc].
    + destruct (Z.eqb_spec c 13); [contradiction | now left].
    + destruct (b =? 13).
      * right. apply IH; try assumption.
        -- destruct s as [|d s]; [cbn; lia |]. cbn [length] in *.
           destruct (d =? 10); cbn [length]; lia.
        -- destruct s as [|d s]; [destruct Hc |].
           destruct (Z.eqb_spec d 10) as [-> | _]; [| assumption].
           destruct Hc as [<- | Hc]; [contradiction | assumption].
      * right. apply IH; try assumption. lia.
Qed.

Lemma drop_while_keeps f s c :
  In c s -> f c = false -> In c (Py.drop_while f s).
Proof.
  intros Hc N. induction s as [|b s IH]; [destruct Hc |].
  cbn [Py.drop_while]. destruct (f b) eqn:E; [| assumption].
  destruct Hc as [-> | Hc]; [congruence | now apply IH].
Qed.

Lemma strip_keeps s c : In c s -> Py.isspace c = false -> In c (Py.strip s).
Proof.
  intros Hc N. unfold Py.strip, Py.rstrip, Py.lstrip.
  apply in_rev. rewrite rev_involutive. apply drop_while_keeps; [| assumption].
  apply in_rev. rewrite rev_involutive. now apply drop_while_keeps.
Qed.

(** A character that the searched text does not hold is never part of an
    occurrence, so it stays. *)
Lemma replace_go_keeps old new c : old <> [] -> ~ In c old -> forall s k,
  (forall x, In x (firstn k s) -> In x old) ->
  In c s -> In c (Py.replace_go old new k s).
Proof.
  intros Hold N. induction s as [|b s IH]; intros k Hk Hc; [destruct Hc |].
  cbn [Py.replace_go]. destruct k as [|k].
  - destruct (Py.starts_with old (b :: s)) eqn:E.
    + apply starts_with_app in E. destruct E as [post E].
      destruct old as [|a old]; [contradiction |].
      cbn [app] in E. injection E as -> ->. cbn [length Nat.pred].
      apply in_app_iff. right. apply IH.
      * intros x Hx. right. rewrite firstn_app, Nat.sub_diag in Hx.
        rewrite firstn_all, firstn_O, app_nil_r in Hx. exact Hx.
      * destruct Hc as [<- | Hc]; [| assumption].
        exfalso. apply N. now left.
    + destruct Hc as [<- | Hc]; [now left | right].
      apply IH; [intros x [] | assumption].
  - assert (Hb : In b old) by (apply Hk; now left).
    destruct Hc as [<- | Hc]; [contradiction |].
    apply IH; [| assumption]. intros x Hx. apply Hk. now right.
Qed.

Lemma isspace_cases c :
  Py.isspace c = true ->
  c <= 32 \/ c = 133 \/ c = 160 \/ c = 5760 \/ 8192 <= c <= 8287 \/ c = 12288.
Proof.
  unfold Py.isspace. rewrite !orb_true_iff, !andb_true_iff, !Z.leb_le, !Z.eqb_eq.
  lia.
Qed.

(** The characters of the five classes of the language guess lie beyond
    ASCII and are no white space. *)
Lemma class_bounds cls c :
  In cls [cyrillic; cjk; spanish_set; french_set; german_set] ->
  cls c = true -> 161 <= c <= 1105 \/ 12353 <= c.
Proof.
  intros Hcls H.
  destruct Hcls as [<- | [<- | [<- | [<- | [<- | []]]]]].
  - unfold cyrillic, Py.in_range, Py.one_of in H. cbn [existsb] in H.
    rewrite !orb_true_iff, !andb_true_iff, !Z.leb_le, !Z.eqb_eq in H. lia.
  - unfold cjk, Py.in_range in H.
    rewrite !orb_true_iff, !andb_true_iff, !Z.leb_le in H. lia.
  - unfold spanish_set, Py.one_of in H. cbn [existsb] in H.
    rewrite !orb_true_iff, !Z.eqb_eq in H. lia.
  - unfold french_set, Py.one_of in H. cbn [existsb] in H.
    rewrite !orb_true_iff, !Z.eqb_eq in H. lia.
  - unfold german_set, Py.one_of in H. cbn [existsb] in H.
    rewrite !orb_true_iff, !Z.eqb_eq in H. lia.
Qed.

Lemma search_class_normalized cls x :
  In cls [cyrillic; cjk; spanish_set; french_set; german_set] ->
  Py.search_class cls (simple_normalize x) = Py.search_class cls x.
Proof.
  intros Hcls.
  assert (Hiff : (exists c, In c (simple_normalize x) /\ cls c = true)
                 <-> (exists c, In c x /\ cls c = true)).
  { split; intros (c & Hc & E); exists c; (split; [| assumption]);
      pose proof (class_bounds cls c Hcls E) as B.
    - rewrite simple_normalize_steps in Hc. apply replace_go_In in Hc.
      destruct Hc as [[<- | []] | Hc]; [lia |].
      apply whitespace_steps_In in Hc. destruct Hc as [[Hc | [-> | ->]] _];
        [assumption | lia | lia].
    - assert (Ns : Py.isspace c = false).
      { destruct (Py.isspace c) eqn:S; [| reflexivity].
        apply isspace_cases in S. lia. }
      rewrite simple_normalize_steps. apply replace_go_keeps.
      + discriminate.
      + intros Hin. vm_compute in Hin.
        repeat (destruct Hin as [<- | Hin]; [lia |]). exact Hin.
      + intros y [].
      + unfold whitespace_steps. apply strip_keeps; [| assumption].
        apply (sub_cr_lf_keeps _ _ c (Nat.le_refl _)); [| lia | lia].
        apply collapse_keeps.
        * apply replace_char_keeps; [assumption | lia].
        * unfold space_or_nbsp.
          destruct (Z.eqb_spec c 32); [lia |].
          destruct (Z.eqb_spec c 160); [lia | reflexivity]. }
  unfold Py.search_class.
  destruct (existsb cls (simple_normalize x)) eqn:E1,
           (existsb cls x) eqn:E2; try reflexivity.
  - apply existsb_exists in E1. apply Hiff in E1. apply existsb_exists in E1.
    congruence.
  - apply existsb_exists in E2. apply Hiff in E2. apply existsb_exists in E2.
    congruence.
Qed.

End KeepFacts.

(** X19.  The normalizer does not change the language guess: the guess on
    the cleaned text, which goes into the metadata, is the guess on the raw
    text. *)
Theorem language_guess_normalized (x : Py.str) :
  infer_language_guess (simple_normalize x) = infer_language_guess x.
Proof.
  unfold infer_language_guess.
  rewrite !KeepFacts.search_class_normalized; [reflexivity | ..];
    cbn [In]; tauto.
Qed.

Section Ids.

Import PyFacts SqlFacts StoreFacts BatchFacts.

Variable now_iso_at : nat -> Py.str.
Variable json_dumps : Meta -> Py.str.
Variable ai_clean : Py.str -> option (Py.str -> Py.str * Meta).

(** X20.  The ids of the raw entries of a reachable store are 1, 2, ... in
    the order of insertion, and the last id given out is their number: the
    total of [count_stats] is the id that the last [add_raw] returned. *)
Theorem raw_ids_consecutive (conn : Conn)
  (Hreach : reachable now_iso_at json_dumps ai_clean conn) :
  map r_id (raw_entries conn)
  = map Z.of_nat (seq 1 (length (raw_entries conn))) /\
  raw_seq conn = Z.of_nat (length (raw_entries conn)) /\
  fst (fst (count_stats conn)) = raw_seq conn.
Proof.
  assert (H : map r_id (raw_entries conn)
              = map Z.of_nat (seq 1 (length (raw_entries conn))) /\
              raw_seq conn = Z.of_nat (length (raw_entries conn))).
  { induction Hreach as [t | conn text Hreach [IH1 IH2] | conn Hreach [IH1 IH2]].
    - split; reflexivity.
    - unfold add_raw, now_iso. cbn [fst raw_entries raw_seq].
      rewrite map_app, length_app, IH1. cbn [map length r_id].
      rewrite Nat.add_1_r, seq_S, map_app. cbn [map]. split.
      + f_equal. f_equal. lia.
      + lia.
    - apply reachable_wf in Hreach.
      destruct (process_pending_shape now_iso_at json_dumps ai_clean conn Hreach)
        as (Eraw & Eseq & _).
      rewrite Eraw, Eseq, length_map, map_map.
      rewrite (map_ext _ r_id) by (intros r; apply settle_id).
      now split. }
  destruct H as [H1 H2]. split; [assumption |]. split; [assumption |].
  unfold count_stats, count_where. cbn [fst]. now rewrite filter_true.
Qed.

End Ids.

Lemma raw_ids_consecutive_witness :
  map r_id (raw_entries example_store)
  = map Z.of_nat (seq 1 (length (raw_entries example_store))).
Proof.
  refine (proj1 (raw_ids_consecutive epoch no_json clean_or_raise
                   example_store _)).
  reach_example.
Defined.
